(** * The naoto syntax module of vasm (syntax/naoto/syntax.c)

    A shallow embedding of the line parser, of the label scanners, of the
    macro escape expander and of the directive handlers of the syntax
    module, together with the properties of its specification.

    Conventions of the embedding.
    - A [char *] into a NUL-terminated line is the text from that position
      on, a [string]; reading [*s] at the terminator gives the NUL
      character and [s+1] drops the first character.  The module never
      stores into a line in the build modelled here (VASM_CPU_Z80 is not
      defined: [exp_skip] is the only function that does, and it is only
      called from the Z80 lines of [skip_operand]).
    - A function with a [char **] parameter returns the new position next
      to its result.
    - [unsigned] is a [Z] kept in [0, 2^32) by [u32]; [int] is a [Z] kept
      in [-2^31, 2^31) by [int_of].
    - What vasm.h, syntax.h, cpu.h and the assembler core provide is not
      part of this source file: macros, constants and variables fixed
      before [parse] runs are the fields of [Config], the functions of the
      core are the fields of [Core], acting on a state [K] of their own.
    - The file-scope variables written while parsing, [parse_end] and
      [anon_labno], are fields of [world], next to the state of the core
      and to the list of the calls made to the core that produce
      diagnostics, atoms or blocks ([trace], oldest first).
    - Where the source leaves the ground C gives it, the embedding says
      so: a position behind the terminator of a line goes on in the bytes
      that follow it in the buffer ([core_behind_line]); a store behind
      the end of an allocated block and a read through NULL are entered
      in [trace]; a store behind [inl_lab_name] and a counter that leaves
      the range of [int] set a flag. *)

From Stdlib Require Import ZArith String Ascii List Bool Lia DecimalString.
From Stdlib Require DecimalFacts DecimalPos DecimalN.
Import ListNotations.
Open Scope string_scope.
Open Scope Z_scope.

(** ** C strings and characters *)

Module CStr.

Definition NUL : ascii := "000"%char.

(** [*s] *)
Definition peek (s : string) : ascii :=
  match s with
  | EmptyString => NUL
  | String c _ => c
  end.

(** [s+1] *)
Definition next (s : string) : string :=
  match s with
  | EmptyString => EmptyString
  | String _ r => r
  end.

(** [s+n] *)
Fixpoint advance (n : nat) (s : string) : string :=
  match n with
  | O => s
  | S k => advance k (next s)
  end.

(** [s[n]] *)
Definition at_ (n : nat) (s : string) : ascii := peek (advance n s).

(** [s+n] for an [n] that may lead behind the terminator of [s]: the
    memory goes on there with the text [far], the bytes that follow the
    terminator in the buffer. *)
Definition advance_far (far : string) (n : nat) (s : string) : string :=
  if Nat.leb n (String.length s) then advance n s
  else advance (n - String.length s - 1) far.

(** [s[n]], likewise. *)
Definition at_far (far : string) (n : nat) (s : string) : ascii :=
  peek (advance_far far n s).

(** The code of a character, as an [int]. *)
Definition code (c : ascii) : Z := Z.of_nat (nat_of_ascii c).

Definition ceq (a b : ascii) : bool := Ascii.eqb a b.

Definition in_range (lo hi c : ascii) : bool :=
  (code lo <=? code c) && (code c <=? code hi).

Definition isdigit (c : ascii) : bool := in_range "0" "9" c.
Definition isupper (c : ascii) : bool := in_range "A" "Z" c.
Definition islower (c : ascii) : bool := in_range "a" "z" c.
Definition isalpha (c : ascii) : bool := isupper c || islower c.
Definition isalnum (c : ascii) : bool := isalpha c || isdigit c.

(** Space, and the characters from horizontal tab (9) to carriage
    return (13). *)
Definition isspace (c : ascii) : bool :=
  ceq c " " || ((9 <=? code c) && (code c <=? 13)).

Definition tolower (c : ascii) : ascii :=
  if isupper c then ascii_of_nat (nat_of_ascii c + 32) else c.

Fixpoint lower (s : string) : string :=
  match s with
  | EmptyString => EmptyString
  | String c r => String (tolower c) (lower r)
  end.

(** The first [n] characters of [s], stopping at its terminator. *)
Fixpoint take (n : nat) (s : string) : string :=
  match n, s with
  | S k, String c r => String c (take k r)
  | _, _ => EmptyString
  end.

(** [e - s] for a position [e] reached from [s]. *)
Definition dist (s e : string) : Z :=
  Z.of_nat (String.length s) - Z.of_nat (String.length e).

(** The text between [s] and a later position [e]. *)
Definition upto (s e : string) : string :=
  take (String.length s - String.length e)%nat s.

(** [strncmp(a,b,n) == 0] *)
Definition strncmp_eq (a b : string) (n : nat) : bool :=
  String.eqb (take n a) (take n b).

(** [strnicmp(a,b,n) == 0] *)
Definition strnicmp_eq (a b : string) (n : nat) : bool :=
  String.eqb (lower (take n a)) (lower (take n b)).

(** [sprintf(buf,"%u",n)] and, for a value that is not negative,
    [sprintf(buf,"%d",n)]: the decimal digits. *)
Definition decimal (n : Z) : string :=
  NilZero.string_of_uint (N.to_uint (Z.to_N n)).

Fixpoint zeros (n : nat) : string :=
  match n with
  | O => EmptyString
  | S k => String "0" (zeros k)
  end.

(** [sprintf(buf,"_%06lu",n)]: an underscore, then the decimal digits
    padded with zeros on the left to six characters; a number of more than
    six digits is written in full. *)
Definition sprintf_id (n : Z) : string :=
  let digits := decimal n in
  String "_" (zeros (6 - String.length digits) ++ digits).

(** What [sprintf] stores: the text and its terminator. *)
Definition with_NUL (s : string) : string := s ++ String NUL EmptyString.

Definition len (s : string) : Z := Z.of_nat (String.length s).

End CStr.

Import CStr.

(** ** Integer types *)

Definition u32 (z : Z) : Z := z mod 2 ^ 32.

(** The conversion to [int] of a value of a wider type. *)
Definition int_of (z : Z) : Z := (z + 2 ^ 31) mod 2 ^ 32 - 2 ^ 31.

Definition INT_MIN : Z := - 2 ^ 31.
Definition INT_MAX : Z := 2 ^ 31 - 1.

(** ** What the headers and the build fix before parsing *)

(** The macros of syntax.h and cpu.h, the constants of vasm.h, the
    variables of the core that are set before [parse] is entered, and the
    options of this module ([syntax_args]). *)
Class Config := {
  (* build *)
  VASM_CPU_M68K : bool;
  MAX_QUALIFIERS : Z;
  MAX_OPERANDS : Z;
  ALLOW_EMPTY_OPS : bool;
  BIGENDIAN : bool;
  sizeof_taddr : Z;
  (* lexical macros *)
  ISIDSTART : ascii -> bool;
  ISIDCHAR : ascii -> bool;
  ISEOL : string -> bool;
  START_PARENTH : ascii -> bool;
  END_PARENTH : ascii -> bool;
  (* data sizes *)
  DATA_ALIGN : Z -> Z;
  OPSZ_BITS : Z -> Z;
  DATA_OPERAND : Z -> Z;
  (* symbol flags and types *)
  EXPORT : Z;
  WEAK : Z;
  LOCAL : Z;
  XREF : Z;
  XDEF : Z;
  IMPORT : Z;
  (* repeat types *)
  REPT_IRP : Z;
  REPT_IRPC : Z;
  (* variables of the core *)
  esc_sequences : bool;
  maxmacparams : Z;
  (* options: -align, -spaces, -altnum, -altlocal *)
  align_data : bool;
  allow_spaces : bool;
  alt_numeric : bool;
  local_char : ascii
}.

(** [char commentchar = ';'] *)
Definition commentchar : ascii := ";"%char.

(** [current_pc_char], set to ['*'] by [init_syntax]. *)
Definition current_pc_char : ascii := "*"%char.

Definition rs_name : string := "__RS".

(** [struct namelen] lists, without their lengths and terminators. *)
Definition macro_dirlist : list string := ["macro"].
Definition endm_dirlist : list string := ["endm"].
Definition rept_dirlist : list string := ["rept"; "irp"; "irpc"].
Definition endr_dirlist : list string := ["endr"].
Definition comend_dirlist : list string := ["comend"].

(** ** Lexical helpers *)

Definition isidchar (c : ascii) : bool :=
  if isalnum c || ceq c "_" then true else false.

Fixpoint skip (s : string) : string :=
  match s with
  | String c r => if isspace c then skip r else s
  | EmptyString => s
  end.

(** ** Macro invocation contexts *)

(** The fields of [source] (vasm.h) this module reads.  [param_len] and
    [qual_len] are C arrays of [maxmacparams] and [MAX_QUALIFIERS]
    elements; an index is read with [elt]. *)
Record source := {
  id : Z;
  num_params : Z;
  param : list string;
  param_len : list Z;
  qual : list string;
  qual_len : list Z;
  argnames : list string
}.

Definition elt (l : list Z) (i : Z) : Z := nth (Z.to_nat i) l 0.

(** [count_passed_macargs]: the loop over [0 <= i < maxmacparams], written
    over the [n] indices from [i] on. *)
Fixpoint count_from (src : source) (i : Z) (n : nat) : Z :=
  match n with
  | O => 0
  | S k => (if elt (param_len src) i >? 0 then 1 else 0)
           + count_from src (i + 1) k
  end.

Definition count_passed_macargs `{Config} (src : source) : Z :=
  count_from src 0 (Z.to_nat maxmacparams).

(** ** The assembler core *)

(** The types of vasm.h this module only passes around. *)
Class Types := {
  expr : Type;
  operand : Type;
  instruction : Type;
  symbol : Type
}.

(** Operators of [make_expr] used in this file. *)
Inductive exprop := ADD | SUB | MUL | BAND.

Section Atoms.
Context {TY : Types}.

(** [dblock], [sblock], [defblock] and [atom] (atom.h), with the fields
    this file reads or writes.  The [type] tag of an atom and the member
    of its [content] union are one constructor. *)
Record dblock := {
  db_size : Z;
  db_data : list ascii
}.

Record sblock := {
  space : Z;
  space_exp : expr;
  sb_size : Z;
  fill_exp : option expr
}.

Record defblock := {
  bitsize : Z;
  op : operand
}.

Inductive atom_content :=
| DATA (db : dblock)
| SPACE (sb : sblock)
| DATADEF (defb : defblock)
| INSTRUCTION (ip : instruction)
| OTHER (type : Z).

Record atom := {
  align : Z;
  content : atom_content
}.

End Atoms.

(** The functions of the core called from this file.  A scanner of
    parse.c is a function of the text; a function that looks something up
    reads [K]; a function that defines, emits or may report something
    returns the next [K]; a field named [core_f] stands for the function
    [f] of the core, and [f] itself is the call of it in the monad of the
    parser below. *)
Class Core `{Config} `{Types} := {
  (* the state of the assembler outside this file *)
  K : Type;
  (* scanners *)
  skip_identifier : string -> option string;
  skip_string : string -> ascii -> string;
  parse_identifier : string -> option (string * string);
  parse_instruction : string -> string * list string * string;
  (* [parse_symbol] calls back [get_local_label] of this file, its first
     argument here *)
  core_parse_symbol :
    (Z -> string -> option (string * string)) ->
    string -> K -> option (string * string);
  (* [make_local_label(n,glob,globlen,loc,loclen)]: [glob] absent when
     NULL *)
  core_make_local_label : Z -> option string -> string -> K -> string;
  core_parse_name : Z -> string -> K -> option (string * string) * K;
  core_get_raw_string : string -> ascii -> K -> option (string * string) * K;
  (* [parse_string] returns NULL for a text it does not take as a string *)
  core_parse_string :
    string -> ascii -> Z -> K -> option dblock * string * K;
  core_parse_operand : string -> Z -> Z -> K -> option operand * K;
  core_parse_cpu_special : string -> K -> string * K;
  core_PARSE_CPU_LABEL : option (string -> string -> K -> bool * string * K);
  (* expressions *)
  number_expr : Z -> expr;
  make_expr : exprop -> expr -> expr -> expr;
  simplify_expr : expr -> expr;
  copy_tree : expr -> expr;
  core_parse_expr_tmplab : string -> K -> expr * string * K;
  core_parse_constexpr : string -> K -> Z * string * K;
  core_eval_expr : expr -> K -> option Z;
  core_free_expr : expr -> K -> K;
  (* symbols *)
  core_find_symbol : string -> K -> option symbol;
  core_sym_type : symbol -> K -> Z;
  core_sym_flags : symbol -> K -> Z;
  core_sym_expr : symbol -> K -> expr;
  core_set_sym_flags : symbol -> Z -> K -> K;
  core_set_sym_expr : symbol -> expr -> K -> K;
  core_new_import : string -> K -> symbol * K;
  core_new_equate : string -> expr -> K -> symbol * K;
  core_new_abs : string -> expr -> K -> symbol * K;
  core_new_labsym : string -> K -> symbol * K;
  core_internal_abs : string -> K -> symbol * K;
  (* conditional assembly (cond.c) *)
  core_cond_state : K -> bool;
  core_cond_if : bool -> K -> K;
  core_cond_skipif : K -> K;
  core_cond_else : K -> K;
  core_cond_skipelse : K -> K;
  core_cond_elseif : bool -> K -> K;
  core_cond_endif : K -> K;
  core_cond_check : K -> K;
  (* atoms and sections *)
  core_add_atom : atom -> K -> K;
  clone_atom : atom -> atom;
  new_label_atom : symbol -> atom;
  new_inst_atom : instruction -> atom;
  new_data_atom : dblock -> Z -> atom;
  new_datadef_atom : Z -> operand -> atom;
  new_sblock : expr -> Z -> option expr -> sblock;
  (* the bytes [setval(be,p,size,val)] stores at [p] *)
  setval : bool -> Z -> Z -> list ascii;
  core_find_structure : string -> K -> option (list atom);
  core_new_structure : string -> K -> bool * K;
  core_set_LABELS_ARE_LOCAL : K -> K;
  (* macros, repetition, instructions *)
  core_find_macro : string -> K -> bool;
  find_macarg_name : source -> string -> Z;
  copy_macro_qual : source -> Z -> Z -> Z * string;
  copy_macro_param : source -> Z -> Z -> Z * string;
  core_new_macro : string -> list string -> list string -> string -> K -> K;
  core_new_repeat :
    Z -> option string -> option string ->
    list string -> list string -> K -> K;
  core_execute_macro : string -> list string -> string -> K -> bool * K;
  core_new_inst : string -> list string -> K -> option instruction * K;
  set_qualifiers : instruction -> list string -> instruction;
  op0_is_NULL : instruction -> bool;
  (* the handlers of this file that are kept abstract *)
  core_other_handler : string -> string -> K -> K;
  (* the source of lines, and the bytes that follow the terminator of the
     current line in its buffer *)
  core_read_next_line : K -> option string * K;
  core_behind_line : K -> string
}.

Section Embedding.
Context {CFG : Config} {TY : Types} {CORE : Core}.

(** ** The parser state and its monad *)

Inductive earg :=
| Int (z : Z)
| Str (s : string).

(** The calls made to the core that change its state or report
    something, with their arguments. *)
Inductive event :=
| E_syntax_error (n : Z) (args : list earg)
| E_general_error (n : Z) (args : list earg)
| E_ierror
| E_parse_name (s : string)
| E_get_raw_string (s : string)
| E_parse_string (s : string)
| E_parse_operand (s : string) (req : Z)
| E_parse_cpu_special (s : string)
| E_PARSE_CPU_LABEL (labname s : string)
| E_parse_expr_tmplab (s : string)
| E_parse_constexpr (s : string)
| E_eval_expr (e : expr)
| E_free_expr (e : expr)
| E_set_sym_flags (sym : symbol) (flags : Z)
| E_set_sym_expr (sym : symbol) (e : expr)
| E_new_import (name : string)
| E_new_equate (name : string) (e : expr)
| E_new_abs (name : string) (e : expr)
| E_new_labsym (name : string)
| E_internal_abs (name : string)
| E_cond_if (flag : bool)
| E_cond_skipif
| E_cond_else
| E_cond_skipelse
| E_cond_elseif (flag : bool)
| E_cond_endif
| E_cond_check
| E_add_atom (a : atom)
| E_new_structure (name : string)
| E_set_LABELS_ARE_LOCAL
| E_new_macro (name : string) (params : string)
| E_new_repeat (rcnt : Z) (name args : option string)
    (dirlist endlist : list string)
| E_execute_macro (name : string) (quals : list string) (s : string)
| E_new_inst (name : string) (ops : list string)
| E_directive (name : string) (s : string)
(* what C leaves undefined: [n] bytes stored behind the end of an
   allocated block, and a read through a NULL pointer *)
| E_write_behind (n : Z)
| E_null_dereference.

Record world := {
  core : K;
  trace : list event;
  parse_end : bool;
  anon_labno : Z
}.

(** A computation either returns or stops the assembler ([ierror]). *)
Definition M (A : Type) : Type := world -> option A * world.

Definition ret {A} (a : A) : M A := fun w => (Some a, w).

Definition bind {A B} (m : M A) (f : A -> M B) : M B :=
  fun w =>
    match m w with
    | (Some a, w') => f a w'
    | (None, w') => (None, w')
    end.

Definition stop {A} : M A := fun w => (None, w).

Definition log (e : event) : M unit :=
  fun w =>
    (Some tt, {| core := core w; trace := trace w ++ [e];
                 parse_end := parse_end w; anon_labno := anon_labno w |}).

Definition set_core (k : K) : M unit :=
  fun w =>
    (Some tt, {| core := k; trace := trace w;
                 parse_end := parse_end w; anon_labno := anon_labno w |}).

Definition set_parse_end (b : bool) : M unit :=
  fun w =>
    (Some tt, {| core := core w; trace := trace w;
                 parse_end := b; anon_labno := anon_labno w |}).

Definition set_anon_labno (n : Z) : M unit :=
  fun w =>
    (Some tt, {| core := core w; trace := trace w;
                 parse_end := parse_end w; anon_labno := n |}).

Definition get_anon_labno : M Z := fun w => (Some (anon_labno w), w).
Definition get_parse_end : M bool := fun w => (Some (parse_end w), w).

(** Reading the core. *)
Definition look {A} (f : K -> A) : M A := fun w => (Some (f (core w)), w).

End Embedding.

Notation "x <- m ;; k" := (bind m (fun x => k))
  (at level 61, m at next level, right associativity).
Notation "' p <- m ;; k" := (bind m (fun x => match x with p => k end))
  (at level 61, p pattern, m at next level, right associativity).
Notation "m ;; k" := (bind m (fun _ => k))
  (at level 61, right associativity).

Section Calls.
Context {CFG : Config} {TY : Types} {CORE : Core}.

(** ** Calls of the core *)

Definition act (e : event) (f : K -> K) : M unit :=
  log e ;; k <- look (fun k => k) ;; set_core (f k).

Definition ask {A} (e : event) (f : K -> A * K) : M A :=
  log e ;; r <- look f ;; set_core (snd r) ;; ret (fst r).

(** Diagnostics are taken to return, as the code after them expects. *)
Definition syntax_error (n : Z) (args : list earg) : M unit :=
  log (E_syntax_error n args).

Definition general_error (n : Z) (args : list earg) : M unit :=
  log (E_general_error n args).

(** An internal error ends the run. *)
Definition ierror {A} : M A := log E_ierror ;; stop.

(** A store of [n] bytes behind the end of a block is entered in the
    trace; the run goes on. *)
Definition write_behind (n : Z) : M unit := log (E_write_behind n).

(** A read through a NULL pointer ends the run. *)
Definition null_dereference {A} : M A := log E_null_dereference ;; stop.

(** The bytes behind the terminator of the line. *)
Definition behind_line : M string := look core_behind_line.

Definition parse_name (bufno : Z) (s : string) :=
  ask (E_parse_name s) (core_parse_name bufno s).
Definition get_raw_string (s : string) (delim : ascii) :=
  ask (E_get_raw_string s) (core_get_raw_string s delim).
Definition parse_string (s : string) (delim : ascii) (width : Z) :=
  ask (E_parse_string s) (core_parse_string s delim width).
Definition parse_operand (s : string) (oplen req : Z) :=
  ask (E_parse_operand (take (Z.to_nat oplen) s) req)
      (core_parse_operand s oplen req).
Definition parse_cpu_special (s : string) :=
  ask (E_parse_cpu_special s) (core_parse_cpu_special s).
Definition parse_expr_tmplab (s : string) :=
  ask (E_parse_expr_tmplab s) (core_parse_expr_tmplab s).
Definition parse_constexpr (s : string) :=
  ask (E_parse_constexpr s) (core_parse_constexpr s).
Definition eval_expr (e : expr) : M (option Z) :=
  log (E_eval_expr e) ;; look (core_eval_expr e).
Definition free_expr (e : expr) := act (E_free_expr e) (core_free_expr e).

Definition find_symbol (name : string) := look (core_find_symbol name).
Definition sym_type (sym : symbol) := look (core_sym_type sym).
Definition sym_flags (sym : symbol) := look (core_sym_flags sym).
Definition sym_expr (sym : symbol) := look (core_sym_expr sym).
Definition set_sym_flags (sym : symbol) (f : Z) :=
  act (E_set_sym_flags sym f) (core_set_sym_flags sym f).
Definition set_sym_expr (sym : symbol) (e : expr) :=
  act (E_set_sym_expr sym e) (core_set_sym_expr sym e).
Definition new_import (name : string) :=
  ask (E_new_import name) (core_new_import name).
Definition new_equate (name : string) (e : expr) :=
  ask (E_new_equate name e) (core_new_equate name e).
Definition new_abs (name : string) (e : expr) :=
  ask (E_new_abs name e) (core_new_abs name e).
Definition new_labsym (name : string) :=
  ask (E_new_labsym name) (core_new_labsym name).
Definition internal_abs (name : string) :=
  ask (E_internal_abs name) (core_internal_abs name).

Definition cond_state : M bool := look core_cond_state.
Definition cond_if (flag : bool) := act (E_cond_if flag) (core_cond_if flag).
Definition cond_skipif := act E_cond_skipif core_cond_skipif.
Definition cond_else := act E_cond_else core_cond_else.
Definition cond_skipelse := act E_cond_skipelse core_cond_skipelse.
Definition cond_elseif (flag : bool) :=
  act (E_cond_elseif flag) (core_cond_elseif flag).
Definition cond_endif := act E_cond_endif core_cond_endif.
Definition cond_check := act E_cond_check core_cond_check.

Definition add_atom (a : atom) := act (E_add_atom a) (core_add_atom a).
Definition find_structure (name : string) := look (core_find_structure name).
Definition new_structure (name : string) :=
  ask (E_new_structure name) (core_new_structure name).
Definition set_LABELS_ARE_LOCAL :=
  act E_set_LABELS_ARE_LOCAL core_set_LABELS_ARE_LOCAL.

Definition find_macro (name : string) := look (core_find_macro name).
Definition new_macro (name : string) (dirlist endlist : list string)
    (params : string) :=
  act (E_new_macro name params) (core_new_macro name dirlist endlist params).
Definition new_repeat (rcnt : Z) (name args : option string)
    (dirlist endlist : list string) :=
  act (E_new_repeat rcnt name args dirlist endlist)
      (core_new_repeat rcnt name args dirlist endlist).
Definition execute_macro (name : string) (quals : list string) (s : string) :=
  ask (E_execute_macro name quals s) (core_execute_macro name quals s).
Definition new_inst (name : string) (ops : list string) :=
  ask (E_new_inst name ops) (core_new_inst name ops).

(** ** Operands *)

Definition squote : ascii := "039"%char.
Definition dquote : ascii := "034"%char.

(** The loop of [skip_operand]; every round moves on by one character at
    least, so that the length of the operand field, plus one for the round
    that stops, bounds the number of rounds. *)
Fixpoint skip_operand_loop (rounds : nat) (par_cnt : Z) (s : string)
    : M (Z * string) :=
  match rounds with
  | O => ret (par_cnt, s)
  | S n =>
      let c := peek s in
      if START_PARENTH c then skip_operand_loop n (par_cnt + 1) (next s)
      else if END_PARENTH c then
        if par_cnt >? 0 then skip_operand_loop n (par_cnt - 1) (next s)
        else syntax_error 3 [] ;; skip_operand_loop n par_cnt (next s)
      else if ceq c squote || ceq c dquote then
        skip_operand_loop n par_cnt (skip_string s c)
      else if ceq c NUL
              || ((par_cnt =? 0) && (ceq c "," || ceq c commentchar)) then
        ret (par_cnt, s)
      else skip_operand_loop n par_cnt (next s)
  end.

Definition skip_operand (s : string) : M string :=
  r <- skip_operand_loop (S (String.length s)) 0 s ;;
  (if negb (fst r =? 0) then syntax_error 4 [] else ret tt) ;;
  ret (snd r).

Definition my_skip_macro_arg (s : string) : option string :=
  skip_identifier (if ceq (peek s) "\" then next s else s).

(** ** Local and anonymous labels *)

Fixpoint skip_idchars (p : string) : string :=
  match p with
  | String c r => if ISIDCHAR c then skip_idchars r else p
  | EmptyString => p
  end.

Definition skip_local (p : string) : option string :=
  if ISIDSTART (peek p) || isdigit (peek p) then Some (skip_idchars (next p))
  else None.

(** [*(p-1)] for a position [p] reached from [s]. *)
Definition before (s p : string) : ascii :=
  at_ (String.length s - String.length p - 1) s.

(** The run of ['+'] and ['-'] after the first marker of an anonymous
    reference. *)
Fixpoint anon_markers (refno : Z) (s : string) : Z * string :=
  match s with
  | String c r =>
      if ceq c "+" then anon_markers (u32 (refno + 1)) r
      else if ceq c "-" then anon_markers (u32 (refno - 1)) r
      else (refno, s)
  | EmptyString => (refno, s)
  end.

(** The last branch of [get_local_label]: [:] and a run of markers. *)
Definition anon_reference (labno : Z) (k : K) (n : Z) (s : string)
    : option (string * string) :=
  if ceq (peek s) ":" then
    let s1 := next s in
    (* anonymous label reference *)
    if ceq (peek s1) "+" || ceq (peek s1) "-" then
      let refno := if ceq (peek s1) "+" then u32 (labno + 1) else labno in
      let r := anon_markers refno (next s1) in
      Some (core_make_local_label n (Some ":") (decimal (fst r)) k,
            skip (snd r))
    else None
  else None.

(** [get_local_label(n,&start)], reading [anon_labno] and, through
    [make_local_label], the core: the name and the new [*start], or
    nothing, [*start] being left as it was. *)
Definition get_local_label (labno : Z) (k : K) (n : Z) (start : string)
    : option (string * string) :=
  let s := start in
  match skip_local s with
  | Some p =>
      if ceq (peek p) ":" && ISIDSTART (peek s)
         && negb (ceq (peek s) local_char)
         && negb (ceq (before s p) "$") then
        (* skip local part of global.local label *)
        let s2 := next p in
        match skip_local s2 with
        | Some p2 =>
            let loclen :=
              if ceq (before s2 p2) "$" then dist s2 p2 - 1
              else dist s2 p2 in
            Some (core_make_local_label n (Some (upto start p))
                    (take (Z.to_nat loclen) s2) k,
                  skip p2)
        | None => None
        end
      else if (dist s p >? 1) && ceq (peek s) local_char then
        Some (core_make_local_label n None (upto (next s) p) k, skip p)
      else if (dist s p >? 0) && ceq (peek p) "$" then
        Some (core_make_local_label n None (upto s p) k, skip (next p))
      else anon_reference labno k n s
  | None => anon_reference labno k n s
  end.

(** [parse_symbol] of the core, which scans local labels with
    [get_local_label] above. *)
Definition parse_symbol (s : string) : M (option (string * string)) :=
  fun w =>
    (Some (core_parse_symbol (get_local_label (anon_labno w) (core w))
             s (core w)), w).

End Calls.

Section Directives.
Context {CFG : Config} {TY : Types} {CORE : Core}.

(** [eol]: check for end of line, issue error, if not. *)
Definition eol (s : string) : M unit :=
  if allow_spaces then
    if negb (ISEOL (skip s)) then syntax_error 6 [] else ret tt
  else
    if negb (ISEOL s) && negb (isspace (peek s)) then syntax_error 6 []
    else ret tt.

(** ** Reserve symbol directives *)

Definition handle_rsreset (s : string) : M unit :=
  new_abs rs_name (number_expr 0) ;; ret tt.

Definition handle_rsset (s : string) : M unit :=
  r <- parse_expr_tmplab s ;;
  new_abs rs_name (fst r) ;; ret tt.

Definition addsub (dir : Z) : exprop := if dir >? 0 then ADD else SUB.

Definition setoffset_align (symname : string) (dir align : Z) : M unit :=
  sym <- internal_abs symname ;;
  let align := align - 1 in
  e <- sym_expr sym ;;
  let new :=
    make_expr BAND (make_expr (addsub dir) e (number_expr align))
              (number_expr (Z.lnot align)) in
  set_sym_expr sym (simplify_expr new).

Definition handle_rseven (s : string) : M unit :=
  setoffset_align rs_name 1 2.

(** [new_setoffset_size]: the equated symbol, if any, and the new [*s].
    [simplify_expr] works in place in the source and is a function here:
    the expression equated to [equname] is copied before the last
    simplification. *)
Definition new_setoffset_size (equname : option string) (symname : string)
    (s : string) (dir size : Z) : M (option symbol * string) :=
  sym <- internal_abs symname ;;
  r <- (if negb (ISEOL s) then
          pe <- parse_expr_tmplab s ;;
          let new :=
            simplify_expr (make_expr MUL (fst pe) (number_expr size)) in
          old <- (if align_data && (size >? 1) then
                    let dalign := DATA_ALIGN (int_of size * 8) - 1 in
                    e <- sym_expr sym ;;
                    ret (simplify_expr
                           (make_expr BAND
                              (make_expr (addsub dir) e (number_expr dalign))
                              (number_expr (Z.lnot dalign))))
                  else sym_expr sym) ;;
          ret (old, make_expr (addsub dir) old new, snd pe)
        else
          e <- sym_expr sym ;; ret (e, e, s)) ;;
  let old := fst (fst r) in
  let new := snd (fst r) in
  equsym <- match equname with
            | Some name =>
                q <- new_equate name
                       (if dir >? 0 then copy_tree old else copy_tree new) ;;
                ret (Some q)
            | None => ret None
            end ;;
  set_sym_expr sym (simplify_expr new) ;;
  ret (equsym, snd r).

(** [new_setoffset]: the operation size comes from the extension of the
    directive, [start] being at its two letters.  [start[2]], [start[3]]
    and [start+4] are read without a look at the terminator: for a text
    that ends before them, such as [rs.], they lie behind it. *)
Definition new_setoffset (equname : option string) (s : string)
    (symname : string) (dir : Z) : M (option symbol * string) :=
  far <- behind_line ;;
  let start := s in
  if ceq (at_far far 2 start) "." then
    let ext := tolower (at_far far 3 start) in
    let s := skip (advance_far far 4 start) in
    if ceq ext "b" then new_setoffset_size equname symname s dir 1
    else if ceq ext "w" then new_setoffset_size equname symname s dir 2
    else if ceq ext "l" then new_setoffset_size equname symname s dir 4
    else
      syntax_error 1 [] ;;  (* invalid extension *)
      new_setoffset_size equname symname s dir 1
  else
    (* defaults to 'w' extension when missing *)
    new_setoffset_size equname symname (skip (advance_far far 2 start)) dir 2.

Definition handle_rs8 (s : string) : M unit :=
  new_setoffset_size None rs_name s 1 1 ;; ret tt.
Definition handle_rs16 (s : string) : M unit :=
  new_setoffset_size None rs_name s 1 2 ;; ret tt.
Definition handle_rs32 (s : string) : M unit :=
  new_setoffset_size None rs_name s 1 4 ;; ret tt.

(** ** Conditional directives *)

Definition ifdef (s : string) (b : bool) : M unit :=
  r <- parse_symbol s ;;
  match r with
  | None => syntax_error 10 []  (* identifier expected *)
  | Some (name, _) =>
      sym <- find_symbol name ;;
      result <- match sym with
                | Some y => t <- sym_type y ;; ret (negb (t =? IMPORT))
                | None => ret false
                end ;;
      cond_if (Bool.eqb result b)
  end.

Definition handle_ifd (s : string) := ifdef s true.
Definition handle_ifnd (s : string) := ifdef s false.

Definition ifmacro (s : string) (b : bool) : M unit :=
  let name := s in
  match skip_identifier s with
  | Some e =>
      result <- find_macro (upto name e) ;;
      cond_if (Bool.eqb result b)
  | None => syntax_error 10 []  (* identifier expected *)
  end.

Definition handle_ifmacrod (s : string) := ifmacro s true.
Definition handle_ifmacrond (s : string) := ifmacro s false.

Definition ifc (s : string) (b : bool) : M unit :=
  r1 <- parse_name 0 s ;;
  match r1 with
  | Some (str1, s1) =>
      if ceq (peek s1) "," then
        r2 <- parse_name 1 (skip (next s1)) ;;
        match r2 with
        | Some (str2, _) => cond_if (Bool.eqb (String.eqb str1 str2) b)
        | None => syntax_error 5 []  (* missing operand *)
        end
      else syntax_error 5 []
  | None => syntax_error 5 []
  end.

Definition handle_ifc (s : string) := ifc s true.
Definition handle_ifnc (s : string) := ifc s false.

Definition handle_ifb (s : string) : M unit := cond_if (ISEOL (skip s)).
Definition handle_ifnb (s : string) : M unit :=
  cond_if (negb (ISEOL (skip s))).

(** [eval_ifexp(&s,c)]: the truth of the guard and the new [*s]. *)
Definition eval_ifexp (s : string) (c : Z) : M (bool * string) :=
  pe <- parse_expr_tmplab s ;;
  let condexp := fst pe in
  v <- eval_expr condexp ;;
  b <- match v with
       | Some val =>
           if c =? 0 then ret (val =? 0)
           else if c =? 1 then ret (negb (val =? 0))
           else if c =? 2 then ret (val >? 0)
           else if c =? 3 then ret (val >=? 0)
           else if c =? 4 then ret (val <? 0)
           else if c =? 5 then ret (val <=? 0)
           else ierror
       | None =>
           general_error 30 [] ;;  (* expression must be constant *)
           ret false
       end ;;
  free_expr condexp ;;
  ret (b, snd pe).

Definition ifexp (s : string) (c : Z) : M unit :=
  r <- eval_ifexp s c ;; cond_if (fst r).

Definition handle_ifeq (s : string) := ifexp s 0.
Definition handle_ifne (s : string) := ifexp s 1.
Definition handle_ifgt (s : string) := ifexp s 2.
Definition handle_ifge (s : string) := ifexp s 3.
Definition handle_iflt (s : string) := ifexp s 4.
Definition handle_ifle (s : string) := ifexp s 5.

Definition handle_else (s : string) : M unit := cond_skipelse.
Definition handle_elseif (s : string) : M unit := cond_skipelse.
Definition handle_endif (s : string) : M unit := cond_endif.

(** [handle_iif]: the position parsing goes on from.  The guard is
    evaluated on a copy of the line, and the original is entered again at
    the length the evaluation consumed. *)
Definition handle_iif (line_ptr : string) : M string :=
  if strnicmp_eq line_ptr "iif" 3 && isspace (at_ 3 line_ptr) then
    let line_ptr := skip (advance 3 line_ptr) in
    r <- eval_ifexp line_ptr 1 ;;
    let expr_len := dist line_ptr (snd r) in
    if fst r then ret (skip (advance (Z.to_nat expr_len) line_ptr))
    else ret (advance (String.length line_ptr) line_ptr)
  else ret line_ptr.

(** ** Comment blocks, repetition and macros *)

Definition handle_comment (s : string) : M unit :=
  new_repeat 0 None None [] comend_dirlist.

Definition handle_comend (s : string) : M unit :=
  syntax_error 12 [Str "comend"; Str "comment"].

(** [handle_rept]: the count is the constant converted to [int]. *)
Definition handle_rept (s : string) : M unit :=
  r <- parse_constexpr s ;;
  let cnt := int_of (fst r) in
  new_repeat (if cnt <? 0 then 0 else cnt) None None
             rept_dirlist endr_dirlist.

Definition do_irp (type : Z) (s : string) : M unit :=
  match parse_identifier s with
  | None => syntax_error 10 []  (* identifier expected *)
  | Some (name, s) =>
      let s := skip s in
      let s := if ceq (peek s) "," then skip (next s) else s in
      new_repeat type (Some name) (Some s) rept_dirlist endr_dirlist
  end.

Definition handle_irp (s : string) := do_irp REPT_IRP s.
Definition handle_irpc (s : string) := do_irp REPT_IRPC s.

Definition handle_endr (s : string) : M unit :=
  syntax_error 12 [Str "endr"; Str "rept"].

Definition handle_endm (s : string) : M unit :=
  syntax_error 12 [Str "endm"; Str "macro"].

End Directives.

Section Dispatch.
Context {CFG : Config} {TY : Types} {CORE : Core}.

(** ** Linker-related directives *)

Definition b2z (b : bool) : Z := if b then 1 else 0.

(** The test of [do_bind] as C reads it.  [!=] binds tighter than [&], so
    that [flags & (EXPORT|WEAK|LOCAL) != 0] is
    [flags & ((EXPORT|WEAK|LOCAL) != 0)], and likewise for the comparison
    with [bind]. *)
Definition binding_already_set (flags bind : Z) : bool :=
  let mask := Z.lor (Z.lor EXPORT WEAK) LOCAL in
  negb (Z.land flags (b2z (negb (mask =? 0))) =? 0)
  && negb (Z.land flags (b2z (negb (mask =? bind))) =? 0).

(** One round of the loop of [do_bind], after the name was read. *)
Definition bind_symbol (name : string) (bind : Z) : M unit :=
  sym <- new_import name ;;
  flags <- sym_flags sym ;;
  if binding_already_set flags bind then
    general_error 62 [Str name]  (* binding already set *)
  else
    set_sym_flags sym (Z.lor flags bind) ;;
    if negb (Z.land bind XREF =? 0) then
      t <- sym_type sym ;;
      if negb (t =? IMPORT) then
        general_error 85 [Str name]  (* xref must not be defined already *)
      else ret tt
    else ret tt.

(** The loop of [do_bind]; a round consumes a name, so that the length of
    the operand field bounds the rounds. *)
Fixpoint do_bind_loop (rounds : nat) (s : string) (bind : Z) : M unit :=
  match rounds with
  | O => ret tt
  | S n =>
      match parse_identifier s with
      | None => syntax_error 10 []  (* identifier expected *)
      | Some (name, s) =>
          bind_symbol name bind ;;
          let s := skip s in
          if negb (ceq (peek s) ",") then eol s
          else do_bind_loop n (skip (next s)) bind
      end
  end.

Definition do_bind (s : string) (bind : Z) : M unit :=
  do_bind_loop (S (String.length s)) s bind.

Definition handle_local (s : string) := do_bind s LOCAL.
Definition handle_weak (s : string) := do_bind s WEAK.
Definition handle_global (s : string) := do_bind s EXPORT.
Definition handle_xref (s : string) := do_bind s (Z.lor EXPORT XREF).
Definition handle_xdef (s : string) := do_bind s (Z.lor EXPORT XDEF).

(** ** Miscellaneous directives *)

Definition handle_inform (s : string) : M unit :=
  r <- parse_constexpr s ;;
  let severity := int_of (fst r) in
  let s := skip (snd r) in
  if negb (ceq (peek s) ",") then syntax_error 5 []  (* missing operand *)
  else
    t <- parse_name 0 (skip (next s)) ;;
    match t with
    | Some (txt, s) =>
        (if severity =? 0 then syntax_error 16 [Str txt]
         else if severity =? 1 then syntax_error 17 [Str txt]
         else if severity =? 2 then syntax_error 18 [Str txt]
         else if severity =? 3 then
           syntax_error 19 [Str txt] ;; set_parse_end true
         else syntax_error 15 []) ;;
        eol s
    | None => eol (skip (next s))
    end.

Definition handle_fail (s : string) : M unit :=
  syntax_error 11 [] ;; set_parse_end true.

Definition handle_end (s : string) : M unit := set_parse_end true.

(** ** The directive table *)

(** The functions the table points to. *)
Inductive handler :=
| fn_rsset | fn_rsreset | fn_rseven | fn_rs8 | fn_rs16 | fn_rs32
| fn_d8 | fn_d16 | fn_d32 | fn_blk8 | fn_blk16 | fn_blk32
| fn_spc8 | fn_spc16 | fn_spc32
| fn_org | fn_obj | fn_objend | fn_cnop | fn_even | fn_align
| fn_incdir | fn_include | fn_incbin
| fn_else | fn_elseif | fn_endif
| fn_ifd | fn_ifnd | fn_ifmacrod | fn_ifmacrond
| fn_ifnb | fn_ifb | fn_ifc | fn_ifnc
| fn_ifeq | fn_ifne | fn_ifgt | fn_ifge | fn_iflt | fn_ifle
| fn_comment | fn_comend | fn_struct | fn_endstruct
| fn_module | fn_endmodule
| fn_rept | fn_irp | fn_irpc | fn_endr
| fn_endm | fn_mexit | fn_purge
| fn_section | fn_pushsect | fn_popsect
| fn_local | fn_weak | fn_global | fn_xref | fn_xdef
| fn_inform | fn_list | fn_nolist | fn_fail | fn_end.

Definition handler_eq_dec (a b : handler) : {a = b} + {a <> b}.
Proof. decide equality. Defined.

(** [directives[idx].func == f] *)
Definition handler_eqb (a b : handler) : bool :=
  if handler_eq_dec a b then true else false.

Definition directives : list (string * handler) :=
  [ ("rsset", fn_rsset); ("rsreset", fn_rsreset); ("rseven", fn_rseven) ]
  ++ (if VASM_CPU_M68K then
        [ ("rs", fn_rs16); ("rs.b", fn_rs8); ("rs.w", fn_rs16);
          ("rs.l", fn_rs32);
          ("dc.b", fn_d8); ("dc.w", fn_d16); ("dc.l", fn_d32);
          ("dcb", fn_blk16); ("dcb.b", fn_blk8); ("dcb.w", fn_blk16);
          ("dcb.l", fn_blk32);
          ("ds", fn_spc16); ("ds.b", fn_spc8); ("ds.w", fn_spc16);
          ("ds.l", fn_spc32) ]
      else
        [ ("rb", fn_rs8); ("rw", fn_rs16); ("rl", fn_rs32);
          ("db", fn_d8); ("dw", fn_d16); ("dl", fn_d32);
          ("dcb", fn_blk8); ("dcw", fn_blk16); ("dcl", fn_blk32);
          ("ds", fn_spc8) ])
  ++ [ ("org", fn_org); ("obj", fn_obj); ("objend", fn_objend);
       ("cnop", fn_cnop); ("even", fn_even); ("align", fn_align);
       ("incdir", fn_incdir); ("include", fn_include);
       ("incbin", fn_incbin);
       ("if", fn_ifne); ("else", fn_else); ("elseif", fn_elseif);
       ("endif", fn_endif);
       ("ifdef", fn_ifd); ("ifnodef", fn_ifnd); ("ifmac", fn_ifmacrod);
       ("ifnomac", fn_ifmacrond);
       ("ifstr", fn_ifnb); ("ifnostr", fn_ifb); ("ifstreq", fn_ifc);
       ("ifstrne", fn_ifnc);
       ("ifeq", fn_ifeq); ("ifne", fn_ifne); ("ifgt", fn_ifgt);
       ("ifge", fn_ifge); ("iflt", fn_iflt); ("ifle", fn_ifle);
       ("comment", fn_comment); ("comend", fn_comend);
       ("struct", fn_struct); ("strend", fn_endstruct);
       ("module", fn_module); ("modend", fn_endmodule);
       ("rept", fn_rept); ("irp", fn_irp); ("irpc", fn_irpc);
       ("endr", fn_endr);
       ("endm", fn_endm); ("mexit", fn_mexit); ("purge", fn_purge);
       ("section", fn_section); ("pushs", fn_pushsect);
       ("pops", fn_popsect);
       ("local", fn_local); ("weak", fn_weak); ("global", fn_global);
       ("xref", fn_xref); ("xdef", fn_xdef);
       ("inform", fn_inform); ("list", fn_list); ("nolist", fn_nolist);
       ("fail", fn_fail); ("end", fn_end) ].

(** [find_namelen_nc(dirhash,name,len,&data)]: the table is entered in
    [dirhash] by [init_syntax], each name under its index, and is looked
    up without regard to case. *)
Fixpoint find_namelen_nc (tab : list (string * handler)) (idx : nat)
    (name : string) : option nat :=
  match tab with
  | [] => None
  | (n, _) :: rest =>
      if String.eqb (lower n) (lower name) then Some idx
      else find_namelen_nc rest (S idx) name
  end.

Fixpoint skip_dirchars (s : string) : string :=
  match s with
  | String c r => if ISIDCHAR c || ceq c "." then skip_dirchars r else s
  | EmptyString => s
  end.

(** [check_directive(&line)]: the index and the new [*line], or nothing
    for -1. *)
Definition check_directive (line : string) : option (nat * string) :=
  let s := skip line in
  if negb (ISIDSTART (peek s)) then None
  else
    let name := s in
    let s := skip_dirchars (next s) in
    match find_namelen_nc directives 0 (upto name s) with
    | None => None
    | Some idx => Some (idx, s)
    end.

Definition directive_name (idx : nat) : string :=
  fst (nth idx directives (EmptyString, fn_end)).

Definition directive_func (idx : nat) : handler :=
  snd (nth idx directives (EmptyString, fn_end)).

(** A handler no property below depends on stays a step of the rest of
    the assembler, named after its C function. *)
Definition other (name : string) (s : string) : M unit :=
  k <- look (fun k => k) ;; set_core (core_other_handler name s k).

Definition call_handler (f : handler) (s : string) : M unit :=
  match f with
  | fn_rsset => handle_rsset s
  | fn_rsreset => handle_rsreset s
  | fn_rseven => handle_rseven s
  | fn_rs8 => handle_rs8 s
  | fn_rs16 => handle_rs16 s
  | fn_rs32 => handle_rs32 s
  | fn_d8 => other "handle_d8" s
  | fn_d16 => other "handle_d16" s
  | fn_d32 => other "handle_d32" s
  | fn_blk8 => other "handle_blk8" s
  | fn_blk16 => other "handle_blk16" s
  | fn_blk32 => other "handle_blk32" s
  | fn_spc8 => other "handle_spc8" s
  | fn_spc16 => other "handle_spc16" s
  | fn_spc32 => other "handle_spc32" s
  | fn_org => other "handle_org" s
  | fn_obj => other "handle_obj" s
  | fn_objend => other "handle_objend" s
  | fn_cnop => other "handle_cnop" s
  | fn_even => other "handle_even" s
  | fn_align => other "handle_align" s
  | fn_incdir => other "handle_incdir" s
  | fn_include => other "handle_include" s
  | fn_incbin => other "handle_incbin" s
  | fn_else => handle_else s
  | fn_elseif => handle_elseif s
  | fn_endif => handle_endif s
  | fn_ifd => handle_ifd s
  | fn_ifnd => handle_ifnd s
  | fn_ifmacrod => handle_ifmacrod s
  | fn_ifmacrond => handle_ifmacrond s
  | fn_ifnb => handle_ifnb s
  | fn_ifb => handle_ifb s
  | fn_ifc => handle_ifc s
  | fn_ifnc => handle_ifnc s
  | fn_ifeq => handle_ifeq s
  | fn_ifne => handle_ifne s
  | fn_ifgt => handle_ifgt s
  | fn_ifge => handle_ifge s
  | fn_iflt => handle_iflt s
  | fn_ifle => handle_ifle s
  | fn_comment => handle_comment s
  | fn_comend => handle_comend s
  | fn_struct => other "handle_struct" s
  | fn_endstruct => other "handle_endstruct" s
  | fn_module => other "handle_module" s
  | fn_endmodule => other "handle_endmodule" s
  | fn_rept => handle_rept s
  | fn_irp => handle_irp s
  | fn_irpc => handle_irpc s
  | fn_endr => handle_endr s
  | fn_endm => handle_endm s
  | fn_mexit => other "handle_mexit" s
  | fn_purge => other "handle_purge" s
  | fn_section => other "handle_section" s
  | fn_pushsect => other "handle_pushsect" s
  | fn_popsect => other "handle_popsect" s
  | fn_local => handle_local s
  | fn_weak => handle_weak s
  | fn_global => handle_global s
  | fn_xref => handle_xref s
  | fn_xdef => handle_xdef s
  | fn_inform => handle_inform s
  | fn_list => other "handle_list" s
  | fn_nolist => other "handle_nolist" s
  | fn_fail => handle_fail s
  | fn_end => handle_end s
  end.

(** [handle_directive]: whether the line was a directive.  The dispatch
    is entered in the trace before the handler runs. *)
Definition handle_directive (line : string) : M bool :=
  match check_directive line with
  | Some (idx, line) =>
      log (E_directive (directive_name idx) (skip line)) ;;
      call_handler (directive_func idx) (skip line) ;;
      ret true
  | None => ret false
  end.

(** [offs_directive(s,name)].  [d[2]] is read without a look at [d[1]]:
    behind a text that ends with the dot it is the first of the bytes
    [far] behind the terminator. *)
Definition offs_directive (far : string) (s name : string) : bool :=
  let len := String.length name in
  let d := advance len s in
  strnicmp_eq s name len
  && ((isspace (peek d) || ISEOL d)
      || (ceq (peek d) "."
          && (isspace (at_far far 2 d) || ISEOL (advance_far far 2 d)))).

End Dispatch.

Section Parser.
Context {CFG : Config} {TY : Types} {CORE : Core}.

(** [oplen(e,s)]: the length of the operand from [s] to [e] without the
    white space at its end. *)
Fixpoint rtrim (t : string) : string :=
  match t with
  | EmptyString => EmptyString
  | String c r =>
      match rtrim r with
      | EmptyString => if isspace c then EmptyString else String c EmptyString
      | r' => String c r'
      end
  end.

Definition oplen (e s : string) : Z := len (rtrim (upto s e)).

(** ** Structure initialisation *)

(** [memcpy(dst,src,n)] on the bytes of two blocks. *)
Definition memcpy (dst src : list ascii) (n : Z) : list ascii :=
  firstn (Z.to_nat n) src ++ skipn (Z.to_nat n) dst.

(** Storing [bytes] at offset [off] of the block [data]: the block
    afterwards, and the number of bytes that were stored behind its
    end. *)
Definition store (data : list ascii) (off : Z) (bytes : list ascii)
    : list ascii * Z :=
  let room := (List.length data - Z.to_nat off)%nat in
  ((firstn (Z.to_nat off) data ++ firstn room bytes
    ++ skipn (Z.to_nat off + List.length bytes) data)%list,
   Z.of_nat (List.length bytes - room)%nat).

(** [mycalloc(n)] *)
Definition mycalloc (n : Z) : list ascii := repeat NUL (Z.to_nat n).

(** The body of the loop of [execute_struct] for the atom [p], the
    operand text being at [s]: the position of the next operand. *)
Definition struct_atom (p : atom) (s : string) : M string :=
  match content p with
  | INSTRUCTION _ =>
      syntax_error 20 [] ;;  (* skipping instruction in struct init *)
      ret s
  | OTHER _ => ret s  (* other atoms are silently ignored *)
  | c =>
      let opp := skip s in
      s <- skip_operand opp ;;
      let opl := dist opp s in
      (if opl >? 0 then
         (* initialize this atom with a new expression *)
         match c with
         | DATADEF defb =>
             (* parse a new data operand of the declared bitsize *)
             r <- parse_operand opp opl (DATA_OPERAND (bitsize defb)) ;;
             match r with
             | Some o =>
                 let new := new_datadef_atom (bitsize defb) o in
                 add_atom {| align := align p; content := content new |}
             | None => syntax_error 8 []  (* invalid data operand *)
             end
         | SPACE sb =>
             (* parse the fill expression for this space *)
             let new := clone_atom p in
             pe <- parse_expr_tmplab opp ;;
             let nsb :=
               new_sblock (space_exp sb) (sb_size sb) (Some (fst pe)) in
             add_atom
               {| align := align new;
                  content :=
                    SPACE {| space := space sb;
                             space_exp := space_exp nsb;
                             sb_size := sb_size nsb;
                             fill_exp := fill_exp nsb |} |}
         | DATA db0 =>
             (* parse constant data - probably a string, or a single
                constant *)
             let size := db_size db0 in
             let data := if size =? 0 then None else Some (mycalloc size) in
             data <- match data with
                     | Some d =>
                         if ceq (peek opp) dquote || ceq (peek opp) squote
                         then
                           r <- parse_string opp (peek opp) 8 ;;
                           match fst r with
                           | Some strdb =>
                               if negb (db_size strdb =? 0) then
                                 (if db_size strdb >? size then
                                    (* cut last chars *)
                                    syntax_error 21
                                      [Int (db_size strdb - size)]
                                  else ret tt) ;;
                                 ret (Some
                                        (memcpy d (db_data strdb)
                                           (if db_size strdb >? size
                                            then size else db_size strdb)))
                               else ret (Some d)
                           | None =>
                               (* [strdb->size] is read without a test *)
                               null_dereference
                           end
                         else
                           r <- parse_constexpr opp ;;
                           let off :=
                             if (size >? sizeof_taddr) && BIGENDIAN
                             then size - sizeof_taddr else 0 in
                           (* [sizeof(taddr)] bytes are stored, whatever
                              the size of the block *)
                           let st :=
                             store d off
                               (setval BIGENDIAN sizeof_taddr (fst r)) in
                           (if snd st >? 0 then write_behind (snd st)
                            else ret tt) ;;
                           ret (Some (fst st))
                     | None => ret None
                     end ;;
             add_atom
               (new_data_atom
                  {| db_size := size;
                     db_data := match data with Some d => d | None => [] end |}
                  (align p))
         | _ => ret tt
         end
       else
         (* empty: use default values from original atom *)
         add_atom (clone_atom p)) ;;
      let s := skip s in
      ret (if ceq (peek s) "," then next s else s)
  end.

Fixpoint struct_atoms (atoms : list atom) (s : string) : M unit :=
  match atoms with
  | [] => ret tt
  | p :: rest => s <- struct_atom p s ;; struct_atoms rest s
  end.

(** [execute_struct(name,name_len,s)]: 0 when no structure has this name;
    otherwise the atoms of the structure are inserted and the result
    is 1. *)
Definition execute_struct (name : string) (s : string) : M Z :=
  str <- find_structure name ;;
  match str with
  | None => ret 0
  | Some atoms => struct_atoms atoms s ;; ret 1
  end.

(** ** Labels at the start of a line *)

Definition current_pc_str : string := String current_pc_char EmptyString.

(** [parse_label_or_pc(&start)]: the name, or nothing for NULL, and the
    new [*start]. *)
Definition parse_label_or_pc (start : string) : M (option string * string) :=
  let s := start in
  r <- (if ceq (peek s) ":" then
          (* anonymous label definition *)
          n <- get_anon_labno ;;
          set_anon_labno (u32 (n + 1)) ;;
          name <- look (core_make_local_label 0 (Some ":")
                          (decimal (u32 (n + 1)))) ;;
          ret (Some (Some name, skip (next s)))
        else
          (* colon required, when label doesn't start at 1st column *)
          let lvalid := negb (isspace (peek s)) in
          let s := if isspace (peek s) then skip s else s in
          r <- parse_symbol s ;;
          match r with
          | Some (name, s) =>
              let s := skip s in
              if ceq (peek s) ":" then
                let s := next s in
                if ceq (peek s) "+" || ceq (peek s) "-" then
                  (* likely an operand with anonymous label reference *)
                  ret None
                else ret (Some (Some name, s))
              else if negb lvalid then ret None
              else ret (Some (Some name, s))
          | None => ret (Some (None, s))
          end) ;;
  match r with
  | None => ret (None, start)
  | Some (Some name, s) => ret (Some name, s)
  | Some (None, s) =>
      if ceq (peek s) current_pc_char && negb (ISIDCHAR (at_ 1 s)) then
        ret (Some current_pc_str, skip (next s))
      else ret (None, start)
  end.

(** ** The parser *)

(** The part of [parse] that skips source until ELSE or ENDIF. *)
Definition parse_skipped (line : string) : M unit :=
  r <- parse_label_or_pc line ;;
  match check_directive (snd r) with
  | Some (idx, s) =>
      if strncmp_eq (directive_name idx) "if" 2 then cond_skipif
      else if handler_eqb (directive_func idx) fn_else then cond_else
      else if handler_eqb (directive_func idx) fn_endif then cond_endif
      else if handler_eqb (directive_func idx) fn_elseif then
        g <- eval_ifexp (skip s) 1 ;;
        cond_elseif (fst g)
      else ret tt
  | None => ret tt
  end.

(** Where a part of the loop body leaves: at [continue], or at the next
    statement with the position [s]. *)
Inductive flow :=
| Continue
| Next (s : string).

Definition directive_at (s : string) (name : string) : bool :=
  let n := String.length name in
  strnicmp_eq s name n
  && (isspace (at_ n s) || ceq (at_ n s) NUL || ceq (at_ n s) commentchar).

(** The part of [parse] for a line that starts with a label. *)
Definition parse_labelled (line labname s : string) : M flow :=
  let s := skip s in
  s <- handle_iif s ;;
  far <- behind_line ;;
  if strnicmp_eq s "equ" 3 && isspace (at_ 3 s) then
    pe <- parse_expr_tmplab (skip (advance 3 s)) ;;
    new_equate labname (fst pe) ;;
    ret (Next (snd pe))
  else if strnicmp_eq s "set" 3 && isspace (at_ 3 s) then
    (* set allows redefinitions *)
    pe <- parse_expr_tmplab (skip (advance 3 s)) ;;
    new_abs labname (fst pe) ;;
    ret (Next (snd pe))
  else if ceq (peek s) "=" then
    let s := next s in
    if ceq (peek s) "=" then
      (* '==' is shorthand for equ *)
      pe <- parse_expr_tmplab (skip (next s)) ;;
      new_equate labname (fst pe) ;;
      ret (Next (snd pe))
    else
      (* '=' is shorthand for set *)
      pe <- parse_expr_tmplab (skip s) ;;
      new_abs labname (fst pe) ;;
      ret (Next (snd pe))
  else if offs_directive far s "rs" then
    r <- new_setoffset (Some labname) s rs_name 1 ;;
    ret (Next (snd r))
  else if directive_at s "macro" then
    let params := skip (advance 5 s) in
    match parse_identifier line with
    | None => ierror
    | Some (buf, _) =>
        new_macro buf macro_dirlist endm_dirlist params ;;
        ret Continue
    end
  else if directive_at s "struct" then
    match parse_identifier line with
    | None => ierror
    | Some (buf, _) =>
        ok <- new_structure buf ;;
        (if ok : bool then set_LABELS_ARE_LOCAL else ret tt) ;;
        ret Continue
    end
  else
    r <- match core_PARSE_CPU_LABEL with
         | Some f => ask (E_PARSE_CPU_LABEL labname s) (f labname s)
         | None => ret (false, s)
         end ;;
    (if negb (fst r) then
       (* it's just a label *)
       label <- new_labsym labname ;;
       add_atom (new_label_atom label)
     else ret tt) ;;
    ret (Next (snd r)).

(** The loop that reads the operands of an instruction; a round consumes
    a comma at least. *)
Fixpoint parse_operands (rounds : nat) (s : string) (ops : list string)
    : M (string * list string) :=
  match rounds with
  | O => ret (s, ops)
  | S n =>
      if negb (ISEOL s) && (Z.of_nat (List.length ops) <? MAX_OPERANDS) then
        let opstart := s in
        s <- skip_operand s ;;
        let l := oplen s opstart in
        ops <- (if negb ALLOW_EMPTY_OPS && (l <=? 0) then
                  syntax_error 5 [] ;;  (* missing operand *)
                  ret ops
                else ret (ops ++ [take (Z.to_nat l) opstart])%list) ;;
        if allow_spaces then
          let s := skip s in
          if negb (ceq (peek s) ",") then ret (s, ops)
          else parse_operands n (skip (next s)) ops
        else
          if negb (ceq (peek s) ",") then ret (s, ops)
          else parse_operands n (next s) ops
      else ret (s, ops)
  end.

Fixpoint skip_nonspace (s : string) : string :=
  match s with
  | String c r => if isspace c then s else skip_nonspace r
  | EmptyString => s
  end.

(** The part of [parse] from the check for directives on. *)
Definition parse_statement (s : string) : M unit :=
  let s := skip s in
  if ceq (peek s) commentchar then ret tt
  else
    s <- handle_iif s ;;
    s <- parse_cpu_special s ;;
    if ISEOL s then ret tt
    else
      d <- handle_directive s ;;
      if d : bool then ret tt
      else
        let s := skip s in
        if ISEOL s then ret tt
        else
          (* read mnemonic name *)
          let inst := s in
          if negb (ISIDSTART (peek s)) then
            syntax_error 10 []  (* identifier expected *)
          else
            let '(name, ext, s) :=
              if MAX_QUALIFIERS =? 0 then
                (upto inst (skip_nonspace s), [], skip_nonspace s)
              else parse_instruction s in
            (if negb (isspace (peek s)) && negb (ceq (peek s) NUL) then
               syntax_error 2 []  (* no space before operands *)
             else ret tt) ;;
            let s := skip s in
            m <- execute_macro name ext s ;;
            if m : bool then ret tt
            else
              x <- execute_struct name s ;;
              if negb (x =? 0) then ret tt
              else
                (* read operands, terminated by comma or blank (unless
                   in parentheses) *)
                r <- parse_operands (S (String.length s)) s [] ;;
                let ops := snd r in
                eol (fst r) ;;
                ip <- new_inst name ops ;;
                match ip with
                | Some ip =>
                    let ip :=
                      if MAX_QUALIFIERS >? 0 then set_qualifiers ip ext
                      else ip in
                    (if (MAX_OPERANDS >? 0) && allow_spaces
                        && op0_is_NULL ip
                        && negb (Z.of_nat (List.length ops) =? 0)
                     then syntax_error 6 []
                     else ret tt) ;;
                    add_atom (new_inst_atom ip)
                | None => ret tt
                end.

(** The body of the loop of [parse] for one line. *)
Definition parse_line (line : string) : M unit :=
  e <- get_parse_end ;;
  if e : bool then ret tt
  else
    c <- cond_state ;;
    if negb c then parse_skipped line
    else
      r <- parse_label_or_pc line ;;
      f <- match fst r with
           | Some labname =>
               (* we have found a global or local label, or current-pc
                  character *)
               parse_labelled line labname (snd r)
           | None => ret (Next (snd r))
           end ;;
      match f with
      | Continue => ret tt
      | Next s => parse_statement s
      end.

Definition read_next_line : M (option string) :=
  r <- look core_read_next_line ;; set_core (snd r) ;; ret (fst r).

(** The loop of [parse], for at most [lines] lines: whether the source of
    lines was exhausted. *)
Fixpoint parse_loop (lines : nat) : M bool :=
  match lines with
  | O => ret false
  | S n =>
      l <- read_next_line ;;
      match l with
      | Some line => parse_line line ;; parse_loop n
      | None => ret true
      end
  end.

(** [parse], when the source of lines ends within [lines] lines. *)
Definition parse (lines : nat) : M bool :=
  done <- parse_loop lines ;;
  if done : bool then
    cond_check ;;  (* check for open conditional blocks *)
    ret true
  else ret false.

End Parser.

Section Macros.
Context {CFG : Config} {TY : Types} {CORE : Core}.

(** ** Escape codes in macro bodies *)

Definition flag (b : bool) : string :=
  String (if b then "1"%char else "0"%char) EmptyString.

(** [macro_arg_defined(src,argstart,argend,d,type)]: the result, and the
    characters stored at [d]. *)
Definition macro_arg_defined (src : source) (argstart argend : string)
    (type : Z) : Z * string :=
  let valid (n : Z) :=
    if n >=? 0 then
      (* valid argument name *)
      (1, flag ((n <? num_params src) && (n <? maxmacparams)
                && (elt (param_len src) n >? 0)))
    else (0, EmptyString) in
  if negb (type =? 0) then
    valid (find_macarg_name src (upto argstart argend))
  else
    let n := code (peek argstart) - code "0" in
    if n =? 0 then
      (1, if MAX_QUALIFIERS >? 0 then flag (elt (qual_len src) 0 >? 0)
          else flag false)
    else valid (n - 1).

(** What a call of [expand_macro] leaves: its result [nc], the new
    [*line], and the characters it stored at [d], in the order of their
    addresses, the terminator [sprintf] appends included. *)
Record expansion := {
  nc : Z;
  line' : string;
  stored : string
}.

(** The branches of [expand_macro] after the backslash, [s] being behind
    it: [nc], [s] and the stored characters before the final test. *)
Definition escape (src : source) (s : string) (dlen : Z)
    : Z * string * string :=
  if ceq (peek s) "\" then
    if dlen >=? 1 then
      if esc_sequences then
        if dlen >=? 2 then (2, next s, "\\")  (* make it a double \ again *)
        else (-1, next s, "\")
      else (1, next s, "\")
    else (-1, s, EmptyString)
  else if ceq (peek s) "@" then
    (* \@: insert a unique id *)
    if dlen >? 7 then
      (len (sprintf_id (id src)), next s, with_NUL (sprintf_id (id src)))
    else (-1, s, EmptyString)
  else if ceq (peek s) "#" then
    (* \# : insert number of parameters *)
    if dlen >? 3 then
      (len (decimal (count_passed_macargs src)), next s,
       with_NUL (decimal (count_passed_macargs src)))
    else (-1, s, EmptyString)
  else if ceq (peek s) "?" && (dlen >=? 1) then
    (* \?n : check if numeric parameter is defined *)
    if isdigit (at_ 1 s) && (dlen >? 3) then
      let r := macro_arg_defined src (next s) (advance 2 s) 0 in
      (fst r, if fst r >=? 0 then advance 2 s else s, snd r)
    else
      match skip_identifier (next s) with
      | Some e =>
          (* \?argname : check if named parameter is defined *)
          let r := macro_arg_defined src (next s) e 1 in
          (fst r, if fst r >=? 0 then e else s, snd r)
      | None => (-1, s, EmptyString)
      end
  else if isdigit (peek s) then
    (* \0..\9 : insert macro parameter 0..9 *)
    let r :=
      if ceq (peek s) "0" then copy_macro_qual src 0 dlen
      else copy_macro_param src (code (peek s) - code "1") dlen in
    (fst r, next s, snd r)
  else
    match skip_identifier s with
    | Some e =>
        let n := find_macarg_name src (upto s e) in
        if n >=? 0 then
          (* \argname: insert named macro parameter n *)
          let r := copy_macro_param src n dlen in
          (fst r, e, snd r)
        else (0, s, EmptyString)
    | None => (0, s, EmptyString)
    end.

(** [expand_macro(src,&line,d,dlen)] *)
Definition expand_macro (src : source) (line : string) (dlen : Z)
    : expansion :=
  if ceq (peek line) "\" then
    (* possible macro expansion detected *)
    let '(n, s, out) := escape src (next line) dlen in
    if n >=? dlen then {| nc := -1; line' := line; stored := out |}
    else if n >=? 0 then
      (* update line pointer when expansion took place *)
      {| nc := n; line' := s; stored := out |}
    else {| nc := n; line' := line; stored := out |}
  else {| nc := 0; line' := line; stored := EmptyString |}.

(** The text an expansion inserts: the first [nc] stored characters. *)
Definition inserted (x : expansion) : string :=
  take (Z.to_nat (nc x)) (stored x).

End Macros.

(** ** Vocabulary of the properties *)

(** A marker of an anonymous reference. *)
Definition marker (c : ascii) : bool := ceq c "+" || ceq c "-".


(** The characters [l], followed by [rest]. *)
Fixpoint text (l : list ascii) (rest : string) : string :=
  match l with
  | [] => rest
  | c :: l' => String c (text l' rest)
  end.

Section MacroVocabulary.
Context {CFG : Config}.





End MacroVocabulary.

(** An invocation context whose unique id has eight digits. *)
Definition big_id_source : source := {|
  id := 12345678;
  num_params := 0;
  param := [];
  param_len := [];
  qual := [];
  qual_len := [];
  argnames := []
|}.

Section DriverVocabulary.
Context {CFG : Config} {TY : Types} {CORE : Core}.

(** The source of lines returns [n] more lines and then none, which
    leaves the core in the state given. *)
Fixpoint drain (n : nat) (k : K) : option K :=
  match n, core_read_next_line k with
  | O, (None, k') => Some k'
  | S m, (Some _, k') => drain m k'
  | _, _ => None
  end.

(** The world after [e] was entered in the trace and the core went to
    [k]. *)
Definition after (w : world) (evs : list event) (k : K) : world :=
  {| core := k; trace := trace w ++ evs;
     parse_end := parse_end w; anon_labno := anon_labno w |}.

End DriverVocabulary.

Section SkipVocabulary.
Context {CFG : Config} {TY : Types} {CORE : Core}.

(** An event of the evaluation of a guard by [eval_ifexp]. *)
Definition guard_event (e : event) : bool :=
  match e with
  | E_parse_expr_tmplab _ | E_eval_expr _ | E_free_expr _ => true
  | E_general_error n _ => n =? 30
  | _ => false
  end.

(** An event of the conditional stack. *)
Definition cond_event (e : event) : bool :=
  match e with
  | E_cond_skipif | E_cond_else | E_cond_elseif _ | E_cond_endif => true
  | _ => false
  end.

(** The world with the anonymous counter at [n]. *)
Definition counting (w : world) (n : Z) : world :=
  {| core := core w; trace := trace w;
     parse_end := parse_end w; anon_labno := n |}.

(** What [eval_ifexp(&s,1)] enters in the trace, the guard it finds and
    the state it leaves the core in. *)
Definition guard_of (s : string) (k : K) : list event * bool * K :=
  let pe := core_parse_expr_tmplab s k in
  let e := fst (fst pe) in
  match core_eval_expr e (snd pe) with
  | Some val =>
      ([E_parse_expr_tmplab s; E_eval_expr e; E_free_expr e],
       negb (val =? 0), core_free_expr e (snd pe))
  | None =>
      ([E_parse_expr_tmplab s; E_eval_expr e; E_general_error 30 [];
        E_free_expr e],
       false, core_free_expr e (snd pe))
  end.

End SkipVocabulary.

Section StructVocabulary.
Context {CFG : Config} {TY : Types} {CORE : Core}.

(** A computation that always returns. *)
Definition returns {A} (m : M A) : Prop :=
  forall w, exists a w', m w = (Some a, w').

(** The position of the next operand segment, after [skip_operand]
    stopped at [s]. *)
Definition next_segment (s : string) : string :=
  if ceq (peek (skip s)) "," then next (skip s) else skip s.

(** A field of a structure: an atom [execute_struct] reads an operand
    segment for. *)
Definition is_field (p : atom) : bool :=
  match content p with
  | DATA _ | SPACE _ | DATADEF _ => true
  | _ => false
  end.

(** The world after [add_atom(0,a)]. *)
Definition emitted (w : world) (a : atom) : world :=
  after w [E_add_atom a] (core_add_atom a (core w)).

(** The effect of [new_setoffset_size] for the label [lab] in the
    direction of [rs]: the label is equated to a copy of the offset
    expression [old], taken after alignment when the size asks for it,
    and the offset symbol is set to [new], simplified; [new] is [old]
    when the directive has no operand, and [old] plus the operand times
    [size] when it has one. *)
Definition rs_effect (lab s : string) (size : Z) (w : world) : Prop :=
  let a := core_internal_abs rs_name (core w) in
  let sym := fst a in
  exists (old new : expr) (k : K) (evs : list event),
    let q := core_new_equate lab (copy_tree old) k in
    new_setoffset_size (Some lab) rs_name s 1 size w
    = (Some (Some (fst q),
             if ISEOL s then s
             else snd (fst (core_parse_expr_tmplab s (snd a)))),
       after w
         (E_internal_abs rs_name
          :: evs ++ [E_new_equate lab (copy_tree old);
                     E_set_sym_expr sym (simplify_expr new)])%list
         (core_set_sym_expr sym (simplify_expr new) (snd q)))
    /\ old
       = (if negb (ISEOL s) && align_data && (size >? 1) then
            simplify_expr
              (make_expr BAND
                 (make_expr ADD (core_sym_expr sym k)
                    (number_expr (DATA_ALIGN (int_of size * 8) - 1)))
                 (number_expr (Z.lnot (DATA_ALIGN (int_of size * 8) - 1))))
          else core_sym_expr sym k)
    /\ (if ISEOL s then evs = [] /\ k = snd a /\ new = old
        else
          let pe := core_parse_expr_tmplab s (snd a) in
          evs = [E_parse_expr_tmplab s] /\ k = snd pe
          /\ new = make_expr ADD old
                     (simplify_expr
                        (make_expr MUL (fst (fst pe)) (number_expr size)))).

End StructVocabulary.

(** ** A small assembler core to run the parser on examples

    The properties below are proved for every configuration and every
    core.  To run the parser on a line, a core is needed to link against;
    this one is a stand-in for the examples: a symbol table, a stack of
    conditions with the count of skipped blocks, a list of pending lines,
    and scanners for identifiers, decimal numbers and quoted strings.  Its
    symbol flags are single bits above the type bits, its [taddr] is wider
    than [int], and its target is the M68K with one qualifier. *)

Module Ref.

Inductive rexpr :=
| Num (z : Z)
| Name (s : string)
| Bin (o : exprop) (l r : rexpr).

Definition is_eol (s : string) : bool :=
  ceq (peek s) NUL || ceq (peek s) commentchar.

Definition idstart (c : ascii) : bool :=
  isalpha c || ceq c "." || ceq c "_" || ceq c "@".

(** Modelled from the spec: vasm.h, syntax.h, cpu.h and symbol.h are not
    under src.  Identifiers, end of line and parentheses are those of the
    lexical helpers of the specification; the binding flags export, weak,
    local, xref and xdef are distinct bits. *)
Definition config : Config := {|
  VASM_CPU_M68K := true;
  MAX_QUALIFIERS := 1;
  MAX_OPERANDS := 4;
  ALLOW_EMPTY_OPS := false;
  BIGENDIAN := true;
  sizeof_taddr := 8;
  ISIDSTART := idstart;
  ISIDCHAR := isidchar;
  ISEOL := is_eol;
  START_PARENTH := fun c => ceq c "(";
  END_PARENTH := fun c => ceq c ")";
  DATA_ALIGN := fun n => if n <=? 8 then 1 else 2;
  OPSZ_BITS := fun n => n;
  DATA_OPERAND := fun n => n;
  EXPORT := 8;
  WEAK := 64;
  LOCAL := 128;
  XREF := 65536;
  XDEF := 131072;
  IMPORT := 2;
  REPT_IRP := -1;
  REPT_IRPC := -2;
  esc_sequences := true;
  maxmacparams := 9;
  align_data := false;
  allow_spaces := false;
  alt_numeric := false;
  local_char := "."
|}.

Definition types : Types := {|
  expr := rexpr;
  operand := string;
  instruction := string * list string;
  symbol := string
|}.

#[local] Existing Instance config.
#[local] Existing Instance types.

Definition ratom : Type := @atom types.

Record rsym := {
  r_type : Z;
  r_flags : Z;
  r_expr : rexpr
}.

Record state := {
  syms : list (string * rsym);
  conds : list bool;
  ifnesting : Z;
  lines : list string;
  structs : list (string * list ratom);
  macros : list string;
  last_global : string;
  atoms : list ratom
}.

Definition with_syms (k : state) (l : list (string * rsym)) : state :=
  {| syms := l; conds := conds k; ifnesting := ifnesting k;
     lines := lines k; structs := structs k; macros := macros k;
     last_global := last_global k; atoms := atoms k |}.

Definition with_conds (k : state) (c : list bool) (n : Z) : state :=
  {| syms := syms k; conds := c; ifnesting := n;
     lines := lines k; structs := structs k; macros := macros k;
     last_global := last_global k; atoms := atoms k |}.

Definition with_lines (k : state) (l : list string) : state :=
  {| syms := syms k; conds := conds k; ifnesting := ifnesting k;
     lines := l; structs := structs k; macros := macros k;
     last_global := last_global k; atoms := atoms k |}.

Definition with_atom (k : state) (a : ratom) : state :=
  {| syms := syms k; conds := conds k; ifnesting := ifnesting k;
     lines := lines k; structs := structs k; macros := macros k;
     last_global := last_global k; atoms := atoms k ++ [a] |}.

Fixpoint lookup {A} (l : list (string * A)) (name : string) : option A :=
  match l with
  | [] => None
  | (n, a) :: rest => if String.eqb n name then Some a else lookup rest name
  end.

Fixpoint update {A} (l : list (string * A)) (name : string) (a : A)
    : list (string * A) :=
  match l with
  | [] => [(name, a)]
  | (n, b) :: rest =>
      if String.eqb n name then (n, a) :: rest
      else (n, b) :: update rest name a
  end.

Definition no_sym : rsym := {| r_type := 0; r_flags := 0; r_expr := Num 0 |}.

Definition sym_of (k : state) (name : string) : rsym :=
  match lookup (syms k) name with
  | Some y => y
  | None => no_sym
  end.

Definition define (k : state) (name : string) (t : Z) (e : rexpr) : state :=
  with_syms k
    (update (syms k) name
       {| r_type := t; r_flags := r_flags (sym_of k name); r_expr := e |}).

Definition declare (k : state) (name : string) (t : Z) : state :=
  match lookup (syms k) name with
  | Some _ => k
  | None => define k name t (Num 0)
  end.

(** Scanners. *)

Fixpoint idchars (s : string) : string :=
  match s with
  | String c r => if isidchar c then idchars r else s
  | EmptyString => s
  end.

Definition scan_identifier (s : string) : option string :=
  if idstart (peek s) then Some (idchars (next s)) else None.

Definition identifier (s : string) : option (string * string) :=
  match scan_identifier s with
  | Some e => Some (upto s e, e)
  | None => None
  end.

Fixpoint digits (acc : Z) (s : string) : Z * string :=
  match s with
  | String c r =>
      if isdigit c then digits (10 * acc + (code c - 48)) r else (acc, s)
  | EmptyString => (acc, s)
  end.

Fixpoint until (delim : ascii) (s : string) : string :=
  match s with
  | String c r => if ceq c delim then s else until delim r
  | EmptyString => s
  end.

Definition quoted (s : string) (delim : ascii) : string * string :=
  let body := next s in
  let e := until delim body in
  (upto body e, next e).

Fixpoint word_end (s : string) : string :=
  match s with
  | String c r =>
      if isspace c || ceq c "," || ceq c commentchar then s else word_end r
  | EmptyString => s
  end.

Definition name_at (s : string) : option (string * string) :=
  if ceq (peek s) dquote || ceq (peek s) squote then
    Some (quoted s (peek s))
  else
    let e := word_end s in
    if dist s e >? 0 then Some (upto s e, e) else None.

Definition expression (s : string) : rexpr * string :=
  if ceq (peek s) "-" then
    let r := digits 0 (next s) in (Num (- fst r), snd r)
  else if isdigit (peek s) then
    let r := digits 0 s in (Num (fst r), snd r)
  else
    match identifier s with
    | Some (n, e) => (Name n, e)
    | None => (Num 0, s)
    end.

Definition apply_op (o : exprop) (a b : Z) : Z :=
  match o with
  | ADD => a + b
  | SUB => a - b
  | MUL => a * b
  | BAND => Z.land a b
  end.

Fixpoint eval (e : rexpr) : option Z :=
  match e with
  | Num z => Some z
  | Name _ => None
  | Bin o l r =>
      match eval l, eval r with
      | Some a, Some b => Some (apply_op o a b)
      | _, _ => None
      end
  end.

Definition simplify (e : rexpr) : rexpr :=
  match eval e with
  | Some z => Num z
  | None => e
  end.

Fixpoint index_of (l : list string) (name : string) (i : Z) : Z :=
  match l with
  | [] => -1
  | n :: rest => if String.eqb n name then i else index_of rest name (i + 1)
  end.

Definition copy_text (t : string) (room : Z) : Z * string :=
  if len t >? room then (-1, take (Z.to_nat room) t) else (len t, t).

Definition argument (src : source) (n : Z) : string :=
  take (Z.to_nat (elt (param_len src) n))
       (nth (Z.to_nat n) (param src) EmptyString).

Fixpoint bytes_be (n : nat) (v : Z) : list ascii :=
  match n with
  | O => []
  | S k =>
      (bytes_be k (v / 256) ++ [ascii_of_nat (Z.to_nat (v mod 256))])%list
  end.

(** Modelled from the spec: the assembler core is not under src.  It is
    the set of collaborators of the specification: an expression parser
    with a fail mode for expressions that are not constant, a symbol table
    with define, lookup and import, a conditional stack, a sink of atoms
    that can clone an atom, the source of lines and the construction of
    instructions. *)
Definition asm : @Core config types := {|
  K := state;
  skip_identifier := scan_identifier;
  skip_string := fun s delim => snd (quoted s delim);
  parse_identifier := identifier;
  parse_instruction := fun s =>
    match scan_identifier s with
    | Some e => (upto s e, [], e)
    | None => (EmptyString, [], s)
    end;
  core_parse_symbol := fun local s k =>
    match local 0 s with
    | Some r => Some r
    | None => identifier s
    end;
  core_make_local_label := fun n glob loc k =>
    (match glob with Some g => g | None => last_global k end)
    ++ String " " loc;
  core_parse_name := fun bufno s k => (name_at s, k);
  core_get_raw_string := fun s delim k => (name_at s, k);
  core_parse_string := fun s delim width k =>
    let q := quoted s delim in
    (Some {| db_size := len (fst q);
             db_data := list_ascii_of_string (fst q) |}, snd q, k);
  core_parse_operand := fun s l req k =>
    (if l >? 0 then Some (take (Z.to_nat l) s) else None, k);
  core_parse_cpu_special := fun s k => (s, k);
  core_PARSE_CPU_LABEL := None;
  number_expr := Num;
  make_expr := Bin;
  simplify_expr := simplify;
  copy_tree := fun e => e;
  core_parse_expr_tmplab := fun s k => (expression s, k);
  core_parse_constexpr := fun s k =>
    let r := expression s in
    (match eval (fst r) with Some z => z | None => 0 end, snd r, k);
  core_eval_expr := fun e k => eval e;
  core_free_expr := fun e k => k;
  core_find_symbol := fun name k =>
    match lookup (syms k) name with
    | Some _ => Some name
    | None => None
    end;
  core_sym_type := fun y k => r_type (sym_of k y);
  core_sym_flags := fun y k => r_flags (sym_of k y);
  core_sym_expr := fun y k => r_expr (sym_of k y);
  core_set_sym_flags := fun y f k =>
    with_syms k
      (update (syms k) y
         {| r_type := r_type (sym_of k y); r_flags := f;
            r_expr := r_expr (sym_of k y) |});
  core_set_sym_expr := fun y e k => define k y (r_type (sym_of k y)) e;
  core_new_import := fun name k => (name, declare k name 2);
  core_new_equate := fun name e k => (name, define k name 3 e);
  core_new_abs := fun name e k => (name, define k name 3 e);
  core_new_labsym := fun name k => (name, define k name 1 (Num 0));
  core_internal_abs := fun name k => (name, declare k name 3);
  core_cond_state := fun k =>
    match conds k with
    | c :: _ => c
    | [] => true
    end;
  core_cond_if := fun b k => with_conds k (b :: conds k) (ifnesting k);
  core_cond_skipif := fun k => with_conds k (conds k) (ifnesting k + 1);
  core_cond_else := fun k =>
    if ifnesting k =? 0 then with_conds k (true :: tl (conds k)) 0 else k;
  core_cond_skipelse := fun k =>
    with_conds k (false :: tl (conds k)) (ifnesting k);
  core_cond_elseif := fun b k =>
    if ifnesting k =? 0 then with_conds k (b :: tl (conds k)) 0 else k;
  core_cond_endif := fun k =>
    if ifnesting k =? 0 then with_conds k (tl (conds k)) 0
    else with_conds k (conds k) (ifnesting k - 1);
  core_cond_check := fun k => k;
  core_add_atom := fun a k => with_atom k a;
  clone_atom := fun a => a;
  new_label_atom := fun y => {| align := 1; content := OTHER 1 |};
  new_inst_atom := fun ip => {| align := 1; content := INSTRUCTION ip |};
  new_data_atom := fun db al => {| align := al; content := DATA db |};
  new_datadef_atom := fun bits o =>
    {| align := 1; content := DATADEF {| bitsize := bits; op := o |} |};
  new_sblock := fun e size fill =>
    {| space := 0; space_exp := e; sb_size := size; fill_exp := fill |};
  setval := fun be size v => bytes_be (Z.to_nat size) v;
  core_find_structure := fun name k => lookup (structs k) name;
  core_new_structure := fun name k => (true, k);
  core_set_LABELS_ARE_LOCAL := fun k => k;
  core_find_macro := fun name k => existsb (String.eqb name) (macros k);
  find_macarg_name := fun src name => index_of (argnames src) name 0;
  copy_macro_qual := fun src n room =>
    copy_text (take (Z.to_nat (elt (qual_len src) n))
                 (nth (Z.to_nat n) (qual src) EmptyString)) room;
  copy_macro_param := fun src n room =>
    if n <? num_params src then copy_text (argument src n) room
    else (0, EmptyString);
  core_new_macro := fun name dirlist endlist params k => k;
  core_new_repeat := fun rcnt name args dirlist endlist k => k;
  core_execute_macro := fun name quals s k =>
    (existsb (String.eqb name) (macros k), k);
  core_new_inst := fun name ops k => (Some (name, ops), k);
  set_qualifiers := fun ip ext => ip;
  op0_is_NULL := fun ip => match snd ip with [] => true | _ => false end;
  core_other_handler := fun name s k => k;
  core_read_next_line := fun k =>
    match lines k with
    | l :: rest => (Some l, with_lines k rest)
    | [] => (None, k)
    end;
  core_behind_line := fun k => EmptyString
|}.

#[local] Existing Instance asm.

Definition rworld : Type := @world config types asm.

(** A state with nothing defined, and a parser that has not started. *)
Definition empty : state := {|
  syms := []; conds := []; ifnesting := 0; lines := []; structs := [];
  macros := []; last_global := EmptyString; atoms := []
|}.

Definition start (k : state) : rworld :=
  {| core := k; trace := []; parse_end := false; anon_labno := 0 |}.

Definition fresh : rworld := start empty.

(** [empty] as the state of this core. *)
Definition nothing : @K config types asm := empty.

End Ref.

(** A state in which [foo] is bound by [global]. *)
Definition exported_foo : Ref.state :=
  Ref.with_syms Ref.empty
    [("foo", {| Ref.r_type := 1; Ref.r_flags := 8; Ref.r_expr := Ref.Num 0 |})].

(** A state inside a conditional block whose branch is not taken. *)
Definition inactive : Ref.state := Ref.with_conds Ref.empty [false] 0.

(** An invocation with three arguments, the second of them empty. *)
Definition two_of_three : source := {|
  id := 7;
  num_params := 3;
  param := ["d0"; EmptyString; "#1"];
  param_len := [2; 0; 2; 0; 0; 0; 0; 0; 0];
  qual := ["w"];
  qual_len := [1];
  argnames := []
|}.

(** A word field of a structure, with the default 0. *)
Definition word_field : Ref.ratom :=
  {| align := 2;
     content := DATADEF {| bitsize := 16; op := "0" : @operand Ref.types |} |}.

(** A structure with a word field and a byte field, both with the
    default 0. *)
Definition byte_field : Ref.ratom :=
  {| align := 1;
     content := DATADEF {| bitsize := 8; op := "0" : @operand Ref.types |} |}.

Definition with_template : Ref.state :=
  {| Ref.syms := []; Ref.conds := []; Ref.ifnesting := 0; Ref.lines := [];
     Ref.structs := [("pair", [word_field; byte_field])];
     Ref.macros := []; Ref.last_global := EmptyString; Ref.atoms := [] |}.

(** A data field of two bytes, as the string of two characters of a
    [dc.b] leaves it, and a structure with this field alone. *)
Definition tag_field : Ref.ratom :=
  {| align := 1;
     content := DATA {| db_size := 2; db_data := ["a"; "b"]%char |} |}.

Definition with_tag : Ref.state :=
  {| Ref.syms := []; Ref.conds := []; Ref.ifnesting := 0; Ref.lines := [];
     Ref.structs := [("tag", [tag_field])];
     Ref.macros := []; Ref.last_global := EmptyString; Ref.atoms := [] |}.

(** ** Numeric constants *)

Definition isxdigit (c : ascii) : bool :=
  isdigit c || in_range "a" "f" c || in_range "A" "F" c.

(** [*s <= c] on characters. *)
Definition cle (a b : ascii) : bool := code a <=? code b.

(** The [switch] of [intel_suffix], whose cases fall through: [case 10],
    then [case 8] that falls into it, then [case 2] that falls into
    [case 8]. *)
Definition case_10 (c : ascii) : Z := if cle c "9" then 10 else 16.
Definition case_8 (c : ascii) : Z := if cle c "7" then 8 else case_10 c.
Definition case_2 (c : ascii) : Z := if cle c "1" then 2 else case_8 c.

Definition switch_base (base : Z) (c : ascii) : Z :=
  if base =? 2 then case_2 c
  else if base =? 8 then case_8 c
  else if base =? 10 then case_10 c
  else base.

(** The loop of [intel_suffix]: [base], [lastbase], the character at
    [s-1] and [s] when it stops.  Before the first round [lastbase] is not
    initialised and [s-1] lies before the text: [junk] and [before] stand
    for what is found there. *)
Fixpoint intel_scan (base lastbase : Z) (prev : ascii) (s : string)
    : Z * Z * ascii * string :=
  match s with
  | String c r =>
      if isxdigit c then intel_scan (switch_base base c) base c r
      else (base, lastbase, prev, s)
  | EmptyString => (base, lastbase, prev, s)
  end.

(** [intel_suffix(s)]: check for constants with h, d, o, q or b suffix. *)
Definition intel_suffix (junk : Z) (before : ascii) (s : string) : Z :=
  let '(base, lastbase, prev, e) := intel_scan 2 junk before s in
  let c := tolower (peek e) in
  if ceq c "h" then 16
  else if (ceq c "o" || ceq c "q") && (base <=? 8) then 8
  else
    let c := tolower prev in
    if ceq c "d" && (lastbase <=? 10) then 10
    else if ceq c "b" && (lastbase <=? 2) then 2
    else 0.

Section Constants.
Context {CFG : Config}.

(** [const_prefix(s,&base)]: the position behind the prefix and the
    base.  The lines for the Z80 are left out, as everywhere. *)
Definition const_prefix (junk : Z) (before : ascii) (s : string)
    : string * Z :=
  if isdigit (peek s) then
    if alt_numeric && negb (intel_suffix junk before s =? 0) then
      (s, intel_suffix junk before s)
    else if ceq (peek s) "0" && (ceq (at_ 1 s) "x" || ceq (at_ 1 s) "X") then
      (advance 2 s, 16)
    else if ceq (peek s) "0" && (ceq (at_ 1 s) "b" || ceq (at_ 1 s) "B") then
      (advance 2 s, 2)
    else if ceq (peek s) "0" && (ceq (at_ 1 s) "q" || ceq (at_ 1 s) "Q") then
      (advance 2 s, 8)
    else if negb (ceq (peek s) "0") && ceq (at_ 1 s) "_"
            && cle "2" (peek s) && cle (peek s) "9" then
      (advance 2 s, Z.land (code (peek s)) 15)
    else (s, 10)
  else if ceq (peek s) "$" && isxdigit (at_ 1 s) then (next s, 16)
  else if ceq (peek s) "@" then (next s, 8)
  else if ceq (peek s) "%" then (next s, 2)
  else (s, 0).

End Constants.

(** [const_suffix(start,end)] *)
Definition const_suffix (junk : Z) (before : ascii) (start e : string)
    : string :=
  if negb (intel_suffix junk before start =? 0) then next e else e.

(** ** Options *)

(** The options of the module, as [syntax_args] sets them. *)
Record options := {
  opt_align_data : bool;
  opt_allow_spaces : bool;
  opt_alt_numeric : bool;
  opt_local_char : ascii
}.

(** The options before any argument is read. *)
Definition default_options : options := {|
  opt_align_data := false;
  opt_allow_spaces := false;
  opt_alt_numeric := false;
  opt_local_char := "."
|}.

(** [syntax_args(p)]: the result and the options after it. *)
Definition syntax_args (p : string) (o : options) : Z * options :=
  if String.eqb p "-align" then
    (1, {| opt_align_data := true; opt_allow_spaces := opt_allow_spaces o;
           opt_alt_numeric := opt_alt_numeric o;
           opt_local_char := opt_local_char o |})
  else if String.eqb p "-spaces" then
    (1, {| opt_align_data := opt_align_data o; opt_allow_spaces := true;
           opt_alt_numeric := opt_alt_numeric o;
           opt_local_char := opt_local_char o |})
  else if String.eqb p "-altnum" then
    (1, {| opt_align_data := opt_align_data o;
           opt_allow_spaces := opt_allow_spaces o;
           opt_alt_numeric := true;
           opt_local_char := opt_local_char o |})
  else if String.eqb p "-altlocal" then
    (1, {| opt_align_data := opt_align_data o;
           opt_allow_spaces := opt_allow_spaces o;
           opt_alt_numeric := opt_alt_numeric o;
           opt_local_char := "@" |})
  else (0, o).

(** ** Isolated local labels blocks *)

Definition INLSTACKSIZE : Z := 100.

(** [sprintf(buf,"%06d",n)]: the sign of a negative number, then its
    digits, with zeros between them to six characters in all. *)
Definition printf_06d (n : Z) : string :=
  if n <? 0 then
    String "-" (zeros (5 - String.length (decimal (- n))) ++ decimal (- n))
  else zeros (6 - String.length (decimal n)) ++ decimal n.

(** [sprintf(inl_lab_name,"=%06d",id)]: the characters stored, without
    the terminator. *)
Definition inl_lab_name (id : Z) : string := String "=" (printf_06d id).

(** [static char inl_lab_name[8]]: the name and its terminator fit the
    eight bytes. *)
Definition name_fits (id : Z) : bool := len (inl_lab_name id) + 1 <=? 8.

(** [a[i] = v] on an array kept as a list; a store outside the array is
    not modelled and leaves the list as it is. *)
Fixpoint store_at (a : list Z) (i : nat) (v : Z) : list Z :=
  match a, i with
  | [], _ => []
  | _ :: r, O => v :: r
  | x :: r, S j => x :: store_at r j v
  end.

Section Modules.

(** The state of the core, and its [set_last_global_label], which returns
    the label it replaces; a [const char *] that may be NULL is an
    option. *)
Variable G : Type.
Variable set_last_global_label : option string -> G -> option string * G.

(** What the core holds as the last global label. *)
Variable last_global_label : G -> option string.

(** The file-scope variables of [module] and [modend], the [static id] of
    [handle_module], the core and the errors reported.  [undefined] is
    set once C leaves the behaviour undefined: [sprintf] has stored
    behind [inl_lab_name], or [id++] has left the range of [int]; what the
    other fields hold from then on is not what the program does. *)
Record inl := {
  inline_stack : list Z;
  inline_stack_index : Z;
  saved_last_global_label : option string;
  module_id : Z;
  glob : G;
  reported : list (Z * list earg);
  undefined : bool
}.

Definition handle_module (st : inl) : inl :=
  if inline_stack_index st <? INLSTACKSIZE then
    let r := set_last_global_label (Some (inl_lab_name (module_id st)))
               (glob st) in
    {| inline_stack :=
         store_at (inline_stack st) (Z.to_nat (inline_stack_index st))
           (module_id st);
       inline_stack_index := inline_stack_index st + 1;
       saved_last_global_label :=
         if inline_stack_index st =? 0 then fst r
         else saved_last_global_label st;
       module_id := module_id st + 1;
       glob := snd r;
       reported := reported st;
       undefined :=
         undefined st || negb (name_fits (module_id st))
         || (INT_MAX <=? module_id st) |}
  else
    (* maximum module nesting depth exceeded *)
    {| inline_stack := inline_stack st;
       inline_stack_index := inline_stack_index st;
       saved_last_global_label := saved_last_global_label st;
       module_id := module_id st;
       glob := glob st;
       reported := reported st ++ [(14, [Int INLSTACKSIZE])];
       undefined := undefined st |}.

Definition handle_endmodule (st : inl) : inl :=
  if inline_stack_index st >? 0 then
    let i := inline_stack_index st - 1 in
    if i =? 0 then
      {| inline_stack := inline_stack st;
         inline_stack_index := i;
         saved_last_global_label := None;
         module_id := module_id st;
         glob := snd (set_last_global_label (saved_last_global_label st)
                        (glob st));
         reported := reported st;
         undefined := undefined st |}
    else
      {| inline_stack := inline_stack st;
         inline_stack_index := i;
         saved_last_global_label := saved_last_global_label st;
         module_id := module_id st;
         glob := snd (set_last_global_label
                        (Some (inl_lab_name (elt (inline_stack st) (i - 1))))
                        (glob st));
         reported := reported st;
         undefined :=
           undefined st
           || negb (name_fits (elt (inline_stack st) (i - 1))) |}
  else
    (* unexpected modend without module *)
    {| inline_stack := inline_stack st;
       inline_stack_index := inline_stack_index st;
       saved_last_global_label := saved_last_global_label st;
       module_id := module_id st;
       glob := glob st;
       reported := reported st ++ [(12, [Str "modend"; Str "module"])];
       undefined := undefined st |}.

(** A run of [module] ([true]) and [modend] ([false]) directives. *)
Fixpoint run_modules (ops : list bool) (st : inl) : inl :=
  match ops with
  | [] => st
  | true :: rest => run_modules rest (handle_module st)
  | false :: rest => run_modules rest (handle_endmodule st)
  end.

(** The variables as the program starts: an array of [INLSTACKSIZE]
    zeros, no block open. *)
Definition no_module (g : G) : inl := {|
  inline_stack := repeat 0 (Z.to_nat INLSTACKSIZE);
  inline_stack_index := 0;
  saved_last_global_label := None;
  module_id := 0;
  glob := g;
  reported := [];
  undefined := false
|}.

(** The variables are as the two handlers keep them: the index within the
    array, and nothing undefined so far. *)
Definition inl_ok (st : inl) : Prop :=
  0 <= inline_stack_index st <= INLSTACKSIZE
  /\ List.length (inline_stack st) = Z.to_nat INLSTACKSIZE
  /\ undefined st = false.

(** The ids of the open blocks are ids that were given out: not negative
    and below the next one. *)
Definition ids_given (st : inl) : Prop :=
  0 <= module_id st
  /\ forall j, 0 <= j < inline_stack_index st ->
       0 <= elt (inline_stack st) j < module_id st.

(** The label the core holds while the blocks of [st] are open: inside a
    block the name made of the number of the innermost one, with the
    label from [before] the outermost block put aside. *)
Definition block_label (before : option string) (st : inl) : Prop :=
  (inline_stack_index st = 0 -> last_global_label (glob st) = before)
  /\ (inline_stack_index st > 0 ->
      saved_last_global_label st = before
      /\ last_global_label (glob st)
         = Some (inl_lab_name
                   (elt (inline_stack st) (inline_stack_index st - 1)))).

(** The numbers of the open blocks grow from the outermost to the
    innermost, and the next block gets a larger one. *)
Definition fresh_ids (st : inl) : Prop :=
  forall i j, 0 <= i -> i < j -> j <= inline_stack_index st ->
    elt (inline_stack st) i
    < (if j =? inline_stack_index st then module_id st
       else elt (inline_stack st) j).

End Modules.

Arguments inline_stack {G} _.
Arguments inline_stack_index {G} _.
Arguments saved_last_global_label {G} _.
Arguments module_id {G} _.
Arguments glob {G} _.
Arguments reported {G} _.
Arguments undefined {G} _.
Arguments handle_module {G} _ _.
Arguments handle_endmodule {G} _ _.
Arguments run_modules {G} _ _ _.
Arguments no_module {G} _.
Arguments inl_ok {G} _.
Arguments ids_given {G} _.
Arguments block_label {G} _ _ _.
Arguments fresh_ids {G} _.

(** ** Further vocabulary of the properties *)

Section OperandVocabulary.
Context {CFG : Config} {TY : Types} {CORE : Core}.

(** A character that ends an operand outside parentheses. *)
Definition ends_operand (c : ascii) : bool :=
  ceq c NUL || ceq c "," || ceq c commentchar.

(** A character [skip_operand] treats specially before it looks for the
    end of the operand. *)
Definition special (c : ascii) : bool :=
  START_PARENTH c || END_PARENTH c || ceq c squote || ceq c dquote.

(** The first position of [s] with a character that ends an operand. *)
Fixpoint operand_end (s : string) : string :=
  match s with
  | String c r => if ends_operand c then s else operand_end r
  | EmptyString => s
  end.

(** No parenthesis and no quote before the end of the operand. *)
Fixpoint plain (s : string) : bool :=
  match s with
  | String c r =>
      if special c then false
      else if ends_operand c then true
      else plain r
  | EmptyString => true
  end.

(** No parenthesis, no quote and no terminator at all. *)
Definition inner (t : list ascii) : bool :=
  forallb (fun c => negb (special c) && negb (ceq c NUL)) t.

(** What [execute_struct] does with an atom when the operand field is
    empty. *)
Definition default_of (p : atom) (w : world) : world :=
  match content p with
  | INSTRUCTION _ => after w [E_syntax_error 20 []] (core w)
  | OTHER _ => w
  | _ => emitted w (clone_atom p)
  end.

(** The directives that open a conditional block. *)
Definition opens_block (f : handler) : bool :=
  match f with
  | fn_ifd | fn_ifnd | fn_ifmacrod | fn_ifmacrond
  | fn_ifnb | fn_ifb | fn_ifc | fn_ifnc
  | fn_ifeq | fn_ifne | fn_ifgt | fn_ifge | fn_iflt | fn_ifle => true
  | _ => false
  end.

End OperandVocabulary.

Section ConditionalVocabulary.
Context {CFG : Config} {TY : Types} {CORE : Core}.

(** A call that moves the stack of the conditional blocks. *)
Definition stack_event (e : event) : bool :=
  match e with
  | E_cond_if _ | E_cond_skipif | E_cond_else | E_cond_skipelse
  | E_cond_elseif _ | E_cond_endif | E_cond_check => true
  | _ => false
  end.

(** The directive that tests the opposite of the comparison [c] of
    [eval_ifexp]: [ifne] for [ifeq], [ifle] for [ifgt], [iflt] for
    [ifge]. *)
Definition opposite (c : Z) : Z :=
  if c =? 0 then 1 else if c =? 2 then 5 else 3.

End ConditionalVocabulary.

(** The options after the arguments [ps] were handed to [syntax_args] one
    by one. *)
Fixpoint read_args (ps : list string) (o : options) : options :=
  match ps with
  | [] => o
  | p :: rest => read_args rest (snd (syntax_args p o))
  end.

(** * Properties *)

Lemma geb_true (a b : Z) : b <= a -> (a >=? b) = true.
Proof. intro. rewrite Z.geb_leb. apply Z.leb_le. assumption. Qed.

Lemma geb_false (a b : Z) : a < b -> (a >=? b) = false.
Proof. intro. rewrite Z.geb_leb. apply Z.leb_gt. assumption. Qed.

Lemma gtb_true (a b : Z) : b < a -> (a >? b) = true.
Proof. intro. rewrite Z.gtb_ltb. apply Z.ltb_lt. assumption. Qed.

Lemma gtb_false (a b : Z) : a <= b -> (a >? b) = false.
Proof. intro. rewrite Z.gtb_ltb. apply Z.ltb_ge. assumption. Qed.

Section LabelProperties.
Context {CFG : Config} {TY : Types} {CORE : Core}.





(** C9.  When the identifier that leads a line is followed by a colon and
    then by [+] or [-], [parse_label_or_pc] returns NULL and leaves
    [*start] and the state as they were. *)
Theorem label_before_anonymous_reference_is_no_label
    (start : string) (w : world) (name rest : string) :
  ceq (peek start) ":" = false ->
  core_parse_symbol (get_local_label (anon_labno w) (core w))
    (if isspace (peek start) then skip start else start) (core w)
  = Some (name, rest) ->
  ceq (peek (skip rest)) ":" = true ->
  marker (at_ 1 (skip rest)) = true ->
  parse_label_or_pc start w = (Some (None, start), w).
Proof.
  intros Hcolon Hsym Hc Hm.
  unfold parse_label_or_pc, bind, parse_symbol. rewrite Hcolon.
  rewrite Hsym. cbn. rewrite Hc.
  unfold marker, at_ in Hm. cbn in Hm. rewrite Hm. reflexivity.
Qed.

End LabelProperties.

Section MacroProperties.
Context {CFG : Config} {TY : Types} {CORE : Core}.






Lemma isdigit_code (c : ascii) : isdigit c = true -> 48 <= code c <= 57.
Proof.
  unfold isdigit, in_range. intro E. apply andb_true_iff in E.
  destruct E as [E1 E2]. apply Z.leb_le in E1, E2.
  change (code "0") with 48 in E1. change (code "9") with 57 in E2. lia.
Qed.





End MacroProperties.

Section ExpansionProperties.
Context {CFG : Config} {TY : Types} {CORE : Core}.

(** A call of [expand_macro] that fails leaves [*line] as it was. *)
Lemma expand_macro_failure_keeps_line (src : source) (line : string)
    (dlen : Z) :
  nc (expand_macro src line dlen) < 0 ->
  line' (expand_macro src line dlen) = line.
Proof.
  unfold expand_macro. destruct (ceq (peek line) "\"); [|reflexivity].
  destruct (escape src (next line) dlen) as [[n s] out].
  destruct (n >=? dlen); [reflexivity|].
  destruct (n >=? 0) eqn:E; [|reflexivity].
  cbn [nc line']. intro Hn. rewrite Z.geb_leb in E. apply Z.leb_le in E. lia.
Qed.

(** An escape that succeeds inserts fewer than [dlen] characters. *)
Lemma expand_macro_success_below_dlen (src : source) (rest : string)
    (dlen : Z) :
  0 <= nc (expand_macro src (String "\" rest) dlen) ->
  nc (expand_macro src (String "\" rest) dlen) < dlen.
Proof.
  unfold expand_macro. cbn [peek next]. change (ceq "\" "\") with true.
  cbv iota.
  destruct (escape src rest dlen) as [[n s] out].
  destruct (n >=? dlen) eqn:E; [cbn [nc]; lia|].
  rewrite Z.geb_leb in E. apply Z.leb_gt in E.
  destruct (n >=? 0); cbn [nc]; lia.
Qed.

(** C4, at the input where the code departs from it.  With the unique id
    12345678 and a buffer of 8 characters, [\@] makes [expand_macro]
    report -1 and leave the line where it was, but only after [sprintf]
    has stored the nine characters of the id and a terminator: ten
    characters in a buffer of eight. *)
Theorem expand_macro_unique_id_overruns_buffer (rest : string) :
  let x := expand_macro big_id_source (String "\" (String "@" rest)) 8 in
  nc x = -1
  /\ line' x = String "\" (String "@" rest)
  /\ stored x = with_NUL "_12345678"
  /\ len (stored x) = 10.
Proof. cbv zeta. repeat split. Qed.

End ExpansionProperties.

Section RepeatProperties.
Context {CFG : Config} {TY : Types} {CORE : Core}.

Lemma int_of_small (v : Z) : INT_MIN <= v <= INT_MAX -> int_of v = v.
Proof.
  unfold INT_MIN, INT_MAX, int_of. intro Hv.
  rewrite Z.mod_small by lia. lia.
Qed.

(** C5, as the code has it.  [handle_rept] hands [new_repeat] the count
    converted to [int], or 0 when that is negative; for a constant in the
    range of [int] this is 0 for a negative constant and the constant
    itself otherwise. *)
Theorem rept_count_is_clamped_int (s : string) (w : world) :
  let v := fst (fst (core_parse_constexpr s (core w))) in
  let k := snd (core_parse_constexpr s (core w)) in
  let cnt := Z.max 0 (int_of v) in
  handle_rept s w
  = (Some tt,
     {| core := core_new_repeat cnt None None rept_dirlist endr_dirlist k;
        trace := trace w
                 ++ [E_parse_constexpr s;
                     E_new_repeat cnt None None rept_dirlist endr_dirlist];
        parse_end := parse_end w;
        anon_labno := anon_labno w |})
  /\ (INT_MIN <= v <= INT_MAX -> cnt = Z.max 0 v).
Proof.
  cbv zeta. split.
  - unfold handle_rept, parse_constexpr, new_repeat, ask, act, bind, log,
      look, set_core, ret. cbn.
    destruct (core_parse_constexpr s (core w)) as [[v rest] k]. cbn.
    rewrite <- app_assoc. cbn [app].
    replace (if int_of v <? 0 then 0 else int_of v)
      with (Z.max 0 (int_of v)); [reflexivity|].
    destruct (int_of v <? 0) eqn:E.
    + apply Z.ltb_lt in E. lia.
    + apply Z.ltb_ge in E. lia.
  - intro Hv. rewrite int_of_small by assumption. reflexivity.
Qed.

End RepeatProperties.

Section StopProperties.
Context {CFG : Config} {TY : Types} {CORE : Core}.

Ltac run :=
  unfold ask, act, bind, log, look, set_core, set_parse_end, get_parse_end,
    syntax_error, general_error, ret; cbn.

Lemma eol_keeps_parse_end (s : string) (w : world) :
  fst (eol s w) = Some tt /\ parse_end (snd (eol s w)) = parse_end w.
Proof.
  unfold eol. destruct allow_spaces.
  - destruct (negb (ISEOL (skip s))); run; auto.
  - destruct (negb (ISEOL s) && negb (isspace (peek s))); run; auto.
Qed.

Lemma parse_line_stopped (line : string) (w : world) :
  parse_end w = true -> parse_line line w = (Some tt, w).
Proof.
  intro E. unfold parse_line, bind, get_parse_end. rewrite E. reflexivity.
Qed.

Lemma bind_returns {A B} (m : M A) (f : A -> M B) (w w' : world) (a : A) :
  m w = (Some a, w') -> bind m f w = f a w'.
Proof. intro E. unfold bind. rewrite E. reflexivity. Qed.

Lemma read_next_line_step (w : world) :
  read_next_line w
  = (Some (fst (core_read_next_line (core w))),
     after w [] (snd (core_read_next_line (core w)))).
Proof.
  unfold read_next_line, after. run. rewrite app_nil_r. reflexivity.
Qed.

Lemma after_nil_nil (w : world) (k1 k2 : K) :
  after (after w [] k1) [] k2 = after w [] k2.
Proof. unfold after. cbn. rewrite !app_nil_r. reflexivity. Qed.

Lemma parse_loop_stopped (n : nat) (w : world) (k' : K) :
  parse_end w = true ->
  drain n (core w) = Some k' ->
  parse_loop (S n) w = (Some true, after w [] k').
Proof.
  revert w. induction n as [|n IH]; intros w E D.
  - cbn [drain] in D. cbn [parse_loop].
    rewrite (bind_returns _ _ _ _ _ (read_next_line_step w)).
    destruct (core_read_next_line (core w)) as [[l|] k1]; [discriminate|].
    injection D as <-. reflexivity.
  - cbn [drain] in D.
    change (parse_loop (S (S n)) w)
      with ((l <- read_next_line ;;
             match l with
             | Some line => parse_line line ;; parse_loop (S n)
             | None => ret true
             end) w).
    rewrite (bind_returns _ _ _ _ _ (read_next_line_step w)).
    destruct (core_read_next_line (core w)) as [[l|] k1]; [|discriminate].
    cbn [fst snd].
    rewrite (bind_returns _ _ _ _ _
               (parse_line_stopped l (after w [] k1) E)).
    rewrite (IH (after w [] k1) E D). rewrite after_nil_nil. reflexivity.
Qed.

(** C8.  [fail], [end] and [inform] with severity 3 set [parse_end].
    Once it is set, [parse] does nothing with a line it reads: no label,
    directive, macro or instruction is looked for, and the state and the
    trace stay as they are.  When the source of lines is exhausted,
    [cond_check] is still called. *)
Theorem stop_flag_skips_lines_but_not_cond_check :
  (forall (s : string) (w : world),
      parse_end (snd (handle_fail s w)) = true)
  /\ (forall (s : string) (w : world),
         parse_end (snd (handle_end s w)) = true)
  /\ (forall (s : string) (w : world) (txt rest : string) (k : K),
         let c := core_parse_constexpr s (core w) in
         let s1 := skip (snd (fst c)) in
         int_of (fst (fst c)) = 3 ->
         ceq (peek s1) "," = true ->
         core_parse_name 0 (skip (next s1)) (snd c) = (Some (txt, rest), k) ->
         parse_end (snd (handle_inform s w)) = true)
  /\ (forall (line : string) (w : world),
         parse_end w = true -> parse_line line w = (Some tt, w))
  /\ (forall (n : nat) (w : world) (k' : K),
         parse_end w = true ->
         drain n (core w) = Some k' ->
         parse (S n) w
         = (Some true, after w [E_cond_check] (core_cond_check k'))).
Proof.
  split; [|split; [|split; [|split]]].
  - intros s w. reflexivity.
  - intros s w. reflexivity.
  - intros s w txt rest k c s1 Hsev Hcomma Hname. subst c s1.
    unfold handle_inform, parse_constexpr, parse_name. run.
    destruct (core_parse_constexpr s (core w)) as [[v r] k1].
    cbn in *. rewrite Hsev, Hcomma. cbn. rewrite Hname. cbn.
    match goal with
    | |- parse_end (snd (eol ?a ?b)) = true =>
        rewrite (proj2 (eol_keeps_parse_end a b))
    end.
    reflexivity.
  - exact parse_line_stopped.
  - intros n w k' E D. unfold parse, bind.
    rewrite (parse_loop_stopped n w k' E D). unfold cond_check. run.
    unfold after. cbn. rewrite app_nil_r. reflexivity.
Qed.

End StopProperties.

Section SkipProperties.
Context {CFG : Config} {TY : Types} {CORE : Core}.

Ltac run :=
  unfold ask, act, bind, log, look, set_core, set_parse_end, get_parse_end,
    get_anon_labno, set_anon_labno, syntax_error, general_error, ret; cbn.

(** [parse_label_or_pc] returns, and changes nothing but the anonymous
    counter. *)
Lemma parse_label_or_pc_counts (start : string) (w : world) :
  exists (name : option string) (s : string) (n : Z),
    parse_label_or_pc start w = (Some (name, s), counting w n).
Proof.
  assert (Hw : w = counting w (anon_labno w)) by (destruct w; reflexivity).
  unfold parse_label_or_pc. destruct (ceq (peek start) ":").
  - run. eexists _, _, _. unfold counting. reflexivity.
  - unfold bind at 1. unfold bind at 1. unfold parse_symbol at 1.
    destruct (core_parse_symbol _ _ _) as [[name s]|].
    + destruct (ceq (peek (skip s)) ":").
      * destruct (ceq (peek (next (skip s))) "+"
                  || ceq (peek (next (skip s))) "-");
          run; eexists _, _, _; rewrite Hw at 1; reflexivity.
      * destruct (negb (negb (isspace (peek start))));
          run; eexists _, _, _; rewrite Hw at 1; reflexivity.
    + run.
      destruct (ceq (peek _) current_pc_char && negb (ISIDCHAR (at_ 1 _)));
        run; eexists _, _, _; rewrite Hw at 1; reflexivity.
Qed.

Lemma eval_ifexp_guard (s : string) (w : world) :
  eval_ifexp s 1 w
  = (Some (snd (fst (guard_of s (core w))),
           snd (fst (core_parse_expr_tmplab s (core w)))),
     after w (fst (fst (guard_of s (core w)))) (snd (guard_of s (core w)))).
Proof.
  unfold eval_ifexp, guard_of, parse_expr_tmplab, eval_expr, free_expr, after.
  run.
  destruct (core_parse_expr_tmplab s (core w)) as [[e rest] k]. cbn.
  destruct (core_eval_expr e k) as [val|]; cbn;
    rewrite <- !app_assoc; reflexivity.
Qed.

(** C1, as the code has it.  While the conditional state is inactive, a
    line only moves the conditional stack: a directive whose name starts
    with [if] calls [cond_skipif] and its guard is not evaluated, [else]
    calls [cond_else], [endif] calls [cond_endif], and [elseif] has its
    guard evaluated by [eval_ifexp] and handed to [cond_elseif]; any other
    line changes nothing, but for a leading [:] that steps the anonymous
    counter.  The trace gains events of the conditional stack and of the
    guard of an [elseif] only: no handler of the table runs, no macro is
    executed and no instruction is built. *)
Theorem skipped_line_only_moves_conditionals (line : string) (w : world) :
  parse_end w = false ->
  core_cond_state (core w) = false ->
  exists (name : option string) (s : string) (n : Z)
         (evs : list event) (k : K),
    parse_label_or_pc line w = (Some (name, s), counting w n)
    /\ parse_line line w = (Some tt, after (counting w n) evs k)
    /\ forallb (fun e => cond_event e || guard_event e) evs = true
    /\ match check_directive s with
       | Some (idx, s') =>
           if strncmp_eq (directive_name idx) "if" 2 then
             evs = [E_cond_skipif] /\ k = core_cond_skipif (core w)
           else if handler_eqb (directive_func idx) fn_else then
             evs = [E_cond_else] /\ k = core_cond_else (core w)
           else if handler_eqb (directive_func idx) fn_endif then
             evs = [E_cond_endif] /\ k = core_cond_endif (core w)
           else if handler_eqb (directive_func idx) fn_elseif then
             let g := guard_of (skip s') (core w) in
             evs = (fst (fst g) ++ [E_cond_elseif (snd (fst g))])%list
             /\ k = core_cond_elseif (snd (fst g)) (snd g)
           else evs = [] /\ k = core w
       | None => evs = [] /\ k = core w
       end.
Proof.
  intros Hend Hcond.
  destruct (parse_label_or_pc_counts line w) as (name & s & n & Hlab).
  assert (Hline :
    parse_line line w
    = match check_directive s with
      | Some (idx, s') =>
          if strncmp_eq (directive_name idx) "if" 2 then cond_skipif
          else if handler_eqb (directive_func idx) fn_else then cond_else
          else if handler_eqb (directive_func idx) fn_endif then cond_endif
          else if handler_eqb (directive_func idx) fn_elseif then
            g <- eval_ifexp (skip s') 1 ;; cond_elseif (fst g)
          else ret tt
      | None => ret tt
      end (counting w n)).
  { unfold parse_line, bind at 1, get_parse_end. rewrite Hend.
    unfold bind at 1, cond_state, look. rewrite Hcond. cbn [negb].
    unfold parse_skipped, bind at 1. rewrite Hlab. reflexivity. }
  exists name, s, n. rewrite Hline. clear Hline.
  destruct (check_directive s) as [[idx s']|].
  - destruct (strncmp_eq (directive_name idx) "if" 2).
    { exists [E_cond_skipif], (core_cond_skipif (core w)).
      repeat split. exact Hlab. }
    destruct (handler_eqb (directive_func idx) fn_else).
    { exists [E_cond_else], (core_cond_else (core w)).
      repeat split. exact Hlab. }
    destruct (handler_eqb (directive_func idx) fn_endif).
    { exists [E_cond_endif], (core_cond_endif (core w)).
      repeat split. exact Hlab. }
    destruct (handler_eqb (directive_func idx) fn_elseif).
    { exists (fst (fst (guard_of (skip s') (core w)))
              ++ [E_cond_elseif (snd (fst (guard_of (skip s') (core w))))])%list,
        (core_cond_elseif (snd (fst (guard_of (skip s') (core w))))
           (snd (guard_of (skip s') (core w)))).
      split; [exact Hlab|]. split; [|split; [|split; reflexivity]].
      - unfold bind. rewrite eval_ifexp_guard. cbn [fst snd].
        unfold cond_elseif, after. run. rewrite <- app_assoc. reflexivity.
      - unfold guard_of.
        destruct (core_eval_expr _ _); reflexivity. }
    exists [], (core w). split; [exact Hlab|].
    split; [|split; [|split]; reflexivity].
    unfold after, counting. run. rewrite app_nil_r. reflexivity.
  - exists [], (core w). split; [exact Hlab|].
    split; [|split; [|split]; reflexivity].
    unfold after, counting. run. rewrite app_nil_r. reflexivity.
Qed.

End SkipProperties.

Section OffsetProperties.
Context {CFG : Config} {TY : Types} {CORE : Core}.

Ltac run :=
  unfold ask, act, bind, log, look, set_core, syntax_error, ret; cbn.

Lemma new_setoffset_size_equates (lab s : string) (size : Z) (w : world) :
  rs_effect lab s size w.
Proof.
  unfold rs_effect. cbv zeta. unfold new_setoffset_size, internal_abs, parse_expr_tmplab,
    sym_expr, new_equate, set_sym_expr, after.
  destruct (core_internal_abs rs_name (core w)) as [sym k0] eqn:Ea.
  destruct (ISEOL s) eqn:Eeol.
  - exists (core_sym_expr sym k0), (core_sym_expr sym k0), k0, [].
    run. rewrite Ea. cbn.
    destruct (core_new_equate lab _ k0) as [q k1]. cbn.
    rewrite <- !app_assoc. cbn. auto.
  - destruct (core_parse_expr_tmplab s k0) as [[e rest] k1] eqn:Ep.
    set (old :=
      if align_data && (size >? 1) then
        simplify_expr
          (make_expr BAND
             (make_expr ADD (core_sym_expr sym k1)
                (number_expr (DATA_ALIGN (int_of size * 8) - 1)))
             (number_expr (Z.lnot (DATA_ALIGN (int_of size * 8) - 1))))
      else core_sym_expr sym k1).
    exists old,
      (make_expr ADD old (simplify_expr (make_expr MUL e (number_expr size)))),
      k1, [E_parse_expr_tmplab s].
    run. rewrite Ea. cbn. rewrite Ep. cbn.
    subst old. destruct (align_data && (size >? 1)) eqn:Eal; cbn;
      rewrite <- !app_assoc; cbn; auto.
Qed.

Lemma advance_far_in (far : string) (n : nat) (s : string) :
  (n <= String.length s)%nat -> advance_far far n s = advance n s.
Proof.
  intro H. unfold advance_far. apply Nat.leb_le in H. rewrite H. reflexivity.
Qed.

Lemma at_far_in (far : string) (n : nat) (s : string) :
  (n <= String.length s)%nat -> at_far far n s = at_ n s.
Proof. intro H. unfold at_far, at_. rewrite advance_far_in by exact H. reflexivity. Qed.

Lemma advance_behind (n : nat) (s : string) :
  (String.length s <= n)%nat -> advance n s = EmptyString.
Proof.
  revert s. induction n as [|n IH]; intros [|c r] H; cbn in *;
    try reflexivity; try lia.
  - apply IH. cbn. lia.
  - apply IH. lia.
Qed.

(** A character that is not the terminator lies before the terminator. *)
Lemma at_before_terminator (n : nat) (s : string) :
  ceq (at_ n s) NUL = false -> (n < String.length s)%nat.
Proof.
  intro H. destruct (Nat.lt_ge_cases n (String.length s)) as [Hlt|Hge];
    [exact Hlt|].
  unfold at_ in H. rewrite advance_behind in H by exact Hge. discriminate H.
Qed.

Lemma strnicmp_rs_length (s : string) :
  strnicmp_eq s "rs" 2 = true -> (2 <= String.length s)%nat.
Proof.
  intro H. unfold strnicmp_eq in H. apply String.eqb_eq in H.
  destruct s as [|a [|b r]]; cbn [take lower String.length] in *;
    [discriminate H | | lia].
  injection H as _ H. discriminate H.
Qed.

(** C10.  For a label followed by [rs]: without a [.] qualifier the
    element size is 2; with a qualifier letter other than [b], [w] and
    [l] the invalid-extension error is reported and the element size
    is 1.  In both cases the directive goes on: the label is equated to
    the offset value and the offset symbol is updated.  [parse] runs this
    for a label followed by [rs].  A qualifier letter is given when the
    character behind the dot is not the terminator: behind [rs.] at the
    end of the text the source reads what follows the terminator. *)
Theorem rs_default_and_invalid_extension (lab start : string) (w : world) :
  (strnicmp_eq start "rs" 2 = true ->
   ceq (at_ 2 start) "." = false ->
   new_setoffset (Some lab) start rs_name 1 w
   = new_setoffset_size (Some lab) rs_name (skip (advance 2 start)) 1 2 w
   /\ rs_effect lab (skip (advance 2 start)) 2 w)
  /\ (ceq (at_ 2 start) "." = true ->
      ceq (at_ 3 start) NUL = false ->
      ceq (tolower (at_ 3 start)) "b" = false ->
      ceq (tolower (at_ 3 start)) "w" = false ->
      ceq (tolower (at_ 3 start)) "l" = false ->
      let w1 := after w [E_syntax_error 1 []] (core w) in
      new_setoffset (Some lab) start rs_name 1 w
      = new_setoffset_size (Some lab) rs_name (skip (advance 4 start)) 1 1 w1
      /\ rs_effect lab (skip (advance 4 start)) 1 w1)
  /\ (forall line s : string,
         skip s = start ->
         strnicmp_eq start "iif" 3 && isspace (at_ 3 start) = false ->
         strnicmp_eq start "equ" 3 && isspace (at_ 3 start) = false ->
         strnicmp_eq start "set" 3 && isspace (at_ 3 start) = false ->
         ceq (peek start) "=" = false ->
         offs_directive (core_behind_line (core w)) start "rs" = true ->
         parse_labelled line lab s w
         = (r <- new_setoffset (Some lab) start rs_name 1 ;;
            ret (Next (snd r))) w).
Proof.
  split; [|split].
  - intros Hrs Hdot. split; [|apply new_setoffset_size_equates].
    pose proof (strnicmp_rs_length start Hrs) as Hlen.
    unfold new_setoffset, behind_line. unfold bind at 1. unfold look.
    rewrite at_far_in, Hdot by exact Hlen.
    rewrite advance_far_in by exact Hlen. reflexivity.
  - intros Hdot Hext Hb Hw Hl w1.
    split; [|apply new_setoffset_size_equates].
    assert (Hnul : ceq (at_ 2 start) NUL = false).
    { unfold ceq in *. apply Ascii.eqb_eq in Hdot. rewrite Hdot. reflexivity. }
    pose proof (at_before_terminator 2 start Hnul) as H2.
    pose proof (at_before_terminator 3 start Hext) as H3.
    unfold new_setoffset, behind_line. unfold bind at 1. unfold look.
    rewrite !at_far_in by lia. rewrite advance_far_in by lia.
    rewrite Hdot, Hb, Hw, Hl.
    unfold bind at 1, syntax_error, log. reflexivity.
  - intros line s Hs Hiif Hequ Hset Heq Hrs.
    unfold parse_labelled. rewrite Hs.
    unfold bind at 1, handle_iif. rewrite Hiif.
    unfold ret at 1. cbv iota beta.
    unfold bind at 1, behind_line, look. 
    rewrite Hequ, Hset, Heq, Hrs. reflexivity.
Qed.

End OffsetProperties.

Section StructProperties.
Context {CFG : Config} {TY : Types} {CORE : Core}.

Ltac run :=
  unfold ask, act, bind, log, look, set_core, syntax_error, ret; cbn.

Lemma returns_ret {A} (a : A) : returns (ret a).
Proof. intro w. eexists _, _. reflexivity. Qed.

Lemma returns_bind {A B} (m : M A) (f : A -> M B) :
  returns m -> (forall a, returns (f a)) -> returns (bind m f).
Proof.
  intros Hm Hf w. destruct (Hm w) as (a & w' & E).
  destruct (Hf a w') as (b & w'' & E').
  exists b, w''. unfold bind. rewrite E. exact E'.
Qed.

Lemma returns_log (e : event) : returns (log e).
Proof. intro w. eexists _, _. reflexivity. Qed.

Lemma returns_look {A} (f : K -> A) : returns (look f).
Proof. intro w. eexists _, _. reflexivity. Qed.

Lemma returns_set_core (k : K) : returns (set_core k).
Proof. intro w. eexists _, _. reflexivity. Qed.

Lemma returns_act (e : event) (f : K -> K) : returns (act e f).
Proof.
  unfold act. apply returns_bind; [apply returns_log|intro].
  apply returns_bind; [apply returns_look|intro]. apply returns_set_core.
Qed.

Lemma returns_ask {A} (e : event) (f : K -> A * K) : returns (ask e f).
Proof.
  unfold ask. apply returns_bind; [apply returns_log|intro].
  apply returns_bind; [apply returns_look|intro].
  apply returns_bind; [apply returns_set_core|intro]. apply returns_ret.
Qed.

Lemma returns_syntax_error (n : Z) (args : list earg) :
  returns (syntax_error n args).
Proof. apply returns_log. Qed.

Lemma returns_skip_operand_loop (rounds : nat) (par_cnt : Z) (s : string) :
  returns (skip_operand_loop rounds par_cnt s).
Proof.
  revert par_cnt s. induction rounds as [|n IH]; intros par_cnt s.
  - apply returns_ret.
  - cbn [skip_operand_loop].
    destruct (START_PARENTH (peek s)); [apply IH|].
    destruct (END_PARENTH (peek s)).
    { destruct (par_cnt >? 0); [apply IH|].
      apply returns_bind; [apply returns_syntax_error|intro; apply IH]. }
    destruct (ceq (peek s) squote || ceq (peek s) dquote); [apply IH|].
    destruct (ceq (peek s) NUL
              || (par_cnt =? 0)
                 && (ceq (peek s) "," || ceq (peek s) commentchar));
      [apply returns_ret | apply IH].
Qed.

Lemma returns_skip_operand (s : string) : returns (skip_operand s).
Proof.
  unfold skip_operand.
  apply returns_bind; [apply returns_skip_operand_loop|intro r].
  apply returns_bind; [|intro; apply returns_ret].
  destruct (negb (fst r =? 0));
    [apply returns_syntax_error | apply returns_ret].
Qed.

Lemma returns_add_atom (a : atom) : returns (add_atom a).
Proof. apply returns_act. Qed.

Lemma act_step (e : event) (f : K -> K) (w : world) :
  act e f w = (Some tt, after w [e] (f (core w))).
Proof. reflexivity. Qed.

Lemma ask_step {A} (e : event) (f : K -> A * K) (w : world) :
  ask e f w = (Some (fst (f (core w))), after w [e] (snd (f (core w)))).
Proof. reflexivity. Qed.

Lemma syntax_error_step (n : Z) (args : list earg) (w : world) :
  syntax_error n args w = (Some tt, after w [E_syntax_error n args] (core w)).
Proof. reflexivity. Qed.

Lemma add_atom_step (a : atom) (w : world) :
  add_atom a w = (Some tt, emitted w a).
Proof. reflexivity. Qed.

Lemma gtb_of_le (a b : Z) : a <= b -> (a >? b) = false.
Proof. intro. rewrite Z.gtb_ltb. apply Z.ltb_ge. assumption. Qed.

Lemma gtb_of_lt (a b : Z) : b < a -> (a >? b) = true.
Proof. intro. rewrite Z.gtb_ltb. apply Z.ltb_lt. assumption. Qed.

(** [memcpy] of the first [n] bytes of [src] into a block of zeros. *)
Lemma memcpy_into_zeros (size n : Z) (src : list ascii) :
  0 <= n <= size ->
  n <= Z.of_nat (List.length src) ->
  memcpy (mycalloc size) src n
  = (firstn (Z.to_nat n) src ++ repeat NUL (Z.to_nat (size - n)))%list.
Proof.
  intros Hn Hsrc. unfold memcpy, mycalloc. f_equal.
  replace (Z.to_nat size) with (Z.to_nat n + Z.to_nat (size - n))%nat by lia.
  rewrite repeat_app, skipn_app, repeat_length, Nat.sub_diag.
  rewrite skipn_all2 by (rewrite repeat_length; lia). reflexivity.
Qed.

(** The walk of [execute_struct], case by case.  It returns 0, and leaves
    everything as it was, when no structure has the name, and 1 otherwise,
    unless an atom ends the run.  The atoms of the structure are walked in
    order, each field against the next operand segment.  An empty segment
    emits a clone of the atom.  A segment that is not empty initialises
    the field anew: a data definition from the operand, or nothing but
    error 8 when the operand does not parse; a space with the fill
    expression; a data block from a string, cut to the size of the block
    and reported with error 21 when it is longer, the read through the
    result of [parse_string] being one through NULL when that returns
    NULL; or a data block with the [sizeof(taddr)] bytes of a constant,
    some of them stored behind a block that is smaller.  An instruction
    atom is reported with error 20 and the walk goes on at the same
    segment. *)
Lemma execute_struct_walks_the_fields :
  (* no structure of this name *)
  (forall (name s : string) (w : world),
      core_find_structure name (core w) = None ->
      execute_struct name s w = (Some 0, w))
  (* a structure of this name *)
  /\ (forall (name s : string) (w : world) (atoms : list atom),
         core_find_structure name (core w) = Some atoms ->
         execute_struct name s w
         = (match fst (struct_atoms atoms s w) with
            | Some _ => Some 1
            | None => None
            end, snd (struct_atoms atoms s w)))
  (* the atoms in order, each from where the one before stopped *)
  /\ (forall (p : atom) (rest : list atom) (s : string) (w : world),
         struct_atoms (p :: rest) s w
         = match struct_atom p s w with
           | (Some s1, w1) => struct_atoms rest s1 w1
           | (None, w1) => (None, w1)
           end)
  (* an empty segment *)
  /\ (forall (p : atom) (s s1 : string) (w w1 : world),
         is_field p = true ->
         skip_operand (skip s) w = (Some s1, w1) ->
         dist (skip s) s1 <= 0 ->
         struct_atom p s w
         = (Some (next_segment s1), emitted w1 (clone_atom p)))
  (* a segment for a data definition *)
  /\ (forall (p : atom) (defb : defblock) (s s1 : string) (w w1 : world),
         content p = DATADEF defb ->
         skip_operand (skip s) w = (Some s1, w1) ->
         0 < dist (skip s) s1 ->
         let opl := dist (skip s) s1 in
         let req := DATA_OPERAND (bitsize defb) in
         let r := core_parse_operand (skip s) opl req (core w1) in
         let w2 :=
           after w1 [E_parse_operand (take (Z.to_nat opl) (skip s)) req]
             (snd r) in
         struct_atom p s w
         = (Some (next_segment s1),
            match fst r with
            | Some o =>
                emitted w2
                  {| align := align p;
                     content := content (new_datadef_atom (bitsize defb) o) |}
            | None => after w2 [E_syntax_error 8 []] (core w2)
            end))
  (* a segment for a space *)
  /\ (forall (p : atom) (sb : sblock) (s s1 : string) (w w1 : world),
         content p = SPACE sb ->
         skip_operand (skip s) w = (Some s1, w1) ->
         0 < dist (skip s) s1 ->
         let r := core_parse_expr_tmplab (skip s) (core w1) in
         let nsb :=
           new_sblock (space_exp sb) (sb_size sb) (Some (fst (fst r))) in
         struct_atom p s w
         = (Some (next_segment s1),
            emitted (after w1 [E_parse_expr_tmplab (skip s)] (snd r))
              {| align := align (clone_atom p);
                 content :=
                   SPACE {| space := space sb;
                            space_exp := space_exp nsb;
                            sb_size := sb_size nsb;
                            fill_exp := fill_exp nsb |} |}))
  (* a string for a data block *)
  /\ (forall (p : atom) (db : dblock) (s s1 : string) (w w1 : world),
         content p = DATA db ->
         skip_operand (skip s) w = (Some s1, w1) ->
         0 < dist (skip s) s1 ->
         0 < db_size db ->
         ceq (peek (skip s)) dquote || ceq (peek (skip s)) squote = true ->
         let r := core_parse_string (skip s) (peek (skip s)) 8 (core w1) in
         let w2 := after w1 [E_parse_string (skip s)] (snd r) in
         match fst (fst r) with
         | Some strdb =>
             0 < db_size strdb ->
             Z.min (db_size strdb) (db_size db)
             <= Z.of_nat (List.length (db_data strdb)) ->
             struct_atom p s w
             = (Some (next_segment s1),
                emitted
                  (if db_size strdb >? db_size db then
                     after w2
                       [E_syntax_error 21 [Int (db_size strdb - db_size db)]]
                       (core w2)
                   else w2)
                  (new_data_atom
                     {| db_size := db_size db;
                        db_data :=
                          (firstn
                             (Z.to_nat (Z.min (db_size strdb) (db_size db)))
                             (db_data strdb)
                           ++ repeat NUL
                                (Z.to_nat
                                   (db_size db
                                    - Z.min (db_size strdb) (db_size db))))%list
                     |}
                     (align p)))
         | None =>
             struct_atom p s w
             = (None, after w2 [E_null_dereference] (core w2))
         end)
  (* a constant for a data block *)
  /\ (forall (p : atom) (db : dblock) (s s1 : string) (w w1 : world),
         content p = DATA db ->
         skip_operand (skip s) w = (Some s1, w1) ->
         0 < dist (skip s) s1 ->
         db_size db <> 0 ->
         ceq (peek (skip s)) dquote || ceq (peek (skip s)) squote = false ->
         let r := core_parse_constexpr (skip s) (core w1) in
         let off :=
           if (db_size db >? sizeof_taddr) && BIGENDIAN
           then db_size db - sizeof_taddr else 0 in
         let w2 := after w1 [E_parse_constexpr (skip s)] (snd r) in
         let st :=
           store (mycalloc (db_size db)) off
             (setval BIGENDIAN sizeof_taddr (fst (fst r))) in
         struct_atom p s w
         = (Some (next_segment s1),
            emitted
              (if snd st >? 0 then after w2 [E_write_behind (snd st)] (core w2)
               else w2)
              (new_data_atom
                 {| db_size := db_size db; db_data := fst st |}
                 (align p))))
  (* an instruction in the structure *)
  /\ (forall (p : atom) (ip : instruction) (rest : list atom) (s : string)
        (w : world),
         content p = INSTRUCTION ip ->
         let w1 := after w [E_syntax_error 20 []] (core w) in
         struct_atom p s w = (Some s, w1)
         /\ struct_atoms (p :: rest) s w = struct_atoms rest s w1).
Proof.
  repeat match goal with |- _ /\ _ => split end.
  - intros name s w Hf. unfold execute_struct, bind, find_structure, look.
    rewrite Hf. reflexivity.
  - intros name s w atoms Hf.
    unfold execute_struct, bind, find_structure, look. rewrite Hf.
    destruct (struct_atoms atoms s w) as [[[]|] w']; reflexivity.
  - intros p rest s w. cbn [struct_atoms]. unfold bind.
    destruct (struct_atom p s w) as [[s1|] w1]; reflexivity.
  - intros p s s1 w w1 Hp Hskip Hlen.
    unfold struct_atom, is_field in *.
    destruct (content p); try discriminate;
      unfold bind at 1; rewrite Hskip;
      rewrite (gtb_of_le _ _ Hlen);
      unfold bind; rewrite add_atom_step; reflexivity.
  - intros p defb s s1 w w1 Hp Hskip Hlen opl req r w2.
    unfold struct_atom. rewrite Hp.
    unfold bind at 1. rewrite Hskip.
    rewrite (gtb_of_lt _ _ Hlen).
    unfold bind at 1. unfold bind at 1. unfold parse_operand.
    rewrite ask_step. fold opl req r w2.
    destruct (fst r) as [o|]; reflexivity.
  - intros p sb s s1 w w1 Hp Hskip Hlen r nsb.
    unfold struct_atom. rewrite Hp.
    unfold bind at 1. rewrite Hskip.
    rewrite (gtb_of_lt _ _ Hlen).
    unfold bind at 1. unfold bind at 1. unfold parse_expr_tmplab.
    rewrite ask_step. reflexivity.
  - intros p db s s1 w w1 Hp Hskip Hlen Hpos Hq r w2. subst r w2.
    assert (Hsize : (db_size db =? 0) = false) by (apply Z.eqb_neq; lia).
    assert (Hstart :
      struct_atom p s w
      = ((data <-
          (r <- parse_string (skip s) (peek (skip s)) 8 ;;
           match fst r with
           | Some strdb =>
               if negb (db_size strdb =? 0) then
                 (if db_size strdb >? db_size db then
                    syntax_error 21 [Int (db_size strdb - db_size db)]
                  else ret tt) ;;
                 ret (Some
                        (memcpy (mycalloc (db_size db)) (db_data strdb)
                           (if db_size strdb >? db_size db
                            then db_size db else db_size strdb)))
               else ret (Some (mycalloc (db_size db)))
           | None => null_dereference
           end) ;;
          add_atom
            (new_data_atom
               {| db_size := db_size db;
                  db_data := match data with Some d => d | None => [] end |}
               (align p))) ;;
         ret (next_segment s1)) w1).
    { unfold struct_atom. rewrite Hp.
      unfold bind at 1. rewrite Hskip.
      rewrite (gtb_of_lt _ _ Hlen). rewrite Hsize, Hq. reflexivity. }
    rewrite Hstart. clear Hstart.
    destruct (core_parse_string (skip s) (peek (skip s)) 8 (core w1))
      as [[[strdb|] rest'] k2] eqn:Eps; cbn [fst snd];
      [intros Hstr Hsrc|];
      unfold bind at 1; unfold bind at 1; unfold bind at 1;
      unfold parse_string; rewrite ask_step, Eps; cbn [fst snd];
      [|reflexivity].
    assert (Hnz : (db_size strdb =? 0) = false) by (apply Z.eqb_neq; lia).
    rewrite Hnz. cbn [negb].
    destruct (db_size strdb >? db_size db) eqn:Hover.
    + apply Z.gtb_lt in Hover. rewrite Z.min_r by lia.
      rewrite Z.min_r in Hsrc by lia.
      rewrite (memcpy_into_zeros (db_size db) (db_size db) (db_data strdb))
        by lia.
      reflexivity.
    + rewrite Z.gtb_ltb in Hover. apply Z.ltb_ge in Hover.
      rewrite Z.min_l by lia. rewrite Z.min_l in Hsrc by lia.
      rewrite (memcpy_into_zeros (db_size db) (db_size strdb)
                 (db_data strdb)) by lia.
      reflexivity.
  - intros p db s s1 w w1 Hp Hskip Hlen Hsize Hq r off w2 st.
    unfold struct_atom. rewrite Hp.
    unfold bind at 1. rewrite Hskip.
    rewrite (gtb_of_lt _ _ Hlen).
    apply Z.eqb_neq in Hsize. rewrite Hsize. rewrite Hq.
    unfold bind at 1. unfold bind at 1. unfold bind at 1.
    unfold parse_constexpr. rewrite ask_step. subst st w2 off r.
    cbn [fst snd]. unfold bind at 1.
    destruct (snd (store _ _ _) >? 0); reflexivity.
  - intros p ip rest s w Hp w1.
    assert (E : struct_atom p s w = (Some s, w1)).
    { unfold struct_atom. rewrite Hp. reflexivity. }
    split; [exact E|].
    cbn [struct_atoms]. unfold bind. rewrite E. reflexivity.
Qed.

End StructProperties.

Section OperandBound.
Context {CFG : Config} {TY : Types} {CORE : Core}.

(** The bound on the rounds of [skip_operand] is enough: once a string
    scanner moves forward and the terminator is no parenthesis, any two
    numbers of rounds above the length of the text give the same
    result. *)
Lemma skip_operand_loop_bound (n : nat) :
  START_PARENTH NUL = false ->
  END_PARENTH NUL = false ->
  (forall (c : ascii) (r : string) (d : ascii),
      (String.length (skip_string (String c r) d) <= String.length r)%nat) ->
  forall (m : nat) (par_cnt : Z) (s : string) (w : world),
    (String.length s < n)%nat ->
    (String.length s < m)%nat ->
    skip_operand_loop n par_cnt s w = skip_operand_loop m par_cnt s w.
Proof.
  intros Hstart Hend Hskip.
  induction n as [|n IH]; intros m par_cnt s w Hn Hm; [lia|].
  destruct m as [|m]; [lia|].
  cbn [skip_operand_loop].
  destruct s as [|c r].
  - cbn [peek]. rewrite Hstart, Hend. reflexivity.
  - cbn [String.length] in Hn, Hm. cbn [peek next].
    destruct (START_PARENTH c); [apply IH; lia|].
    destruct (END_PARENTH c).
    { destruct (par_cnt >? 0); [apply IH; lia|].
      unfold bind, syntax_error, log. apply IH; lia. }
    destruct (ceq c squote || ceq c dquote).
    { pose proof (Hskip c r c). apply IH; lia. }
    destruct (ceq c NUL
              || (par_cnt =? 0) && (ceq c "," || ceq c commentchar));
      [reflexivity | apply IH; lia].
Qed.

End OperandBound.

Section BindProperties.
Context {CFG : Config} {TY : Types} {CORE : Core}.

Lemma land_1_odd (z : Z) : (Z.land z 1 =? 0) = negb (Z.odd z).
Proof.
  change 1 with (Z.ones 1) at 1. rewrite Z.land_ones by lia.
  change (2 ^ 1) with 2. rewrite Zmod_odd.
  destruct (Z.odd z); reflexivity.
Qed.

(** The test of [do_bind] looks at bit 0 of the flags of the symbol, and
    not at its binding, for every binding a directive asks for. *)
Lemma binding_already_set_is_bit_0 (flags bind : Z) :
  Z.lor (Z.lor EXPORT WEAK) LOCAL <> 0 ->
  Z.lor (Z.lor EXPORT WEAK) LOCAL <> bind ->
  binding_already_set flags bind = Z.odd flags.
Proof.
  intros H0 Hb. unfold binding_already_set.
  apply Z.eqb_neq in H0, Hb. rewrite H0, Hb. cbn [negb b2z].
  rewrite land_1_odd, negb_involutive. apply andb_diag.
Qed.

End BindProperties.

(** * The properties on examples *)

Section Examples.
#[local] Existing Instance Ref.config.
#[local] Existing Instance Ref.types.
#[local] Existing Instance Ref.asm.

(** C7, at an input where the code departs from it.  The symbol [foo] is
    bound by [global]; [weak foo] then adds the weak flag to the export
    flag and reports nothing. *)
Theorem weak_after_global_is_not_reported :
  let w := Ref.start exported_foo in
  let w' := snd (handle_weak "foo" w) in
  core_sym_flags "foo" (core w) = EXPORT
  /\ trace w' = [E_new_import "foo"; E_set_sym_flags "foo" (Z.lor EXPORT WEAK)]
  /\ core_sym_flags "foo" (core w') = Z.lor EXPORT WEAK.
Proof. cbv zeta. repeat split. Qed.

(** C6, at an input where the code departs from it.  The structure [tag]
    has one data field of two bytes, and is instantiated with the
    constant 65 on a big-endian target whose [taddr] has eight bytes.
    The field is no larger than [taddr], so [setval] stores the eight
    bytes of the value from the start of the block of two: six bytes are
    stored behind the block, and the field holds the two highest bytes of
    the value, both 0, not 65.  The atom is added and the result is 1. *)
Theorem struct_constant_overruns_small_field :
  let r := execute_struct "tag" "65" (Ref.start with_tag) in
  core_find_structure "tag" with_tag = Some [tag_field]
  /\ sizeof_taddr = 8
  /\ fst r = Some 1
  /\ trace (snd r)
     = [E_parse_constexpr "65"; E_write_behind 6;
        E_add_atom
          {| align := 1;
             content := DATA {| db_size := 2; db_data := [NUL; NUL] |} |}].
Proof. cbv zeta. repeat split. Qed.


(** C1 as it is stated fails on a skipped [elseif]: the state is inactive
    and the guard of the line is parsed and evaluated. *)
Lemma skipped_elseif_evaluates_its_guard :
  let w := Ref.start inactive in
  parse_end w = false
  /\ core_cond_state (core w) = false
  /\ trace (snd (parse_line " elseif 1" w))
     = [E_parse_expr_tmplab "1"; E_eval_expr (Ref.Num 1);
        E_free_expr (Ref.Num 1); E_cond_elseif true].
Proof. cbv zeta. repeat split. Qed.

(** C5 as it is stated fails on a count beyond the range of [int], which
    [parse_constexpr] can return where [taddr] is wider than [int]: the
    constant 2147483648 is not negative, the cast makes it negative, and
    the count handed to [new_repeat] is 0. *)
Lemma rept_count_beyond_int_is_zero :
  fst (fst (core_parse_constexpr "2147483648" Ref.nothing)) = 2147483648
  /\ trace (snd (handle_rept "2147483648" Ref.fresh))
     = [E_parse_constexpr "2147483648";
        E_new_repeat 0 None None rept_dirlist endr_dirlist].
Proof. split; reflexivity. Qed.

(** The parser on lines of the specification. *)

Example long_string_is_cut_to_the_field :
  trace (snd (execute_struct "tag" "'xyz'" (Ref.start with_tag)))
  = [E_parse_string "'xyz'"; E_syntax_error 21 [Int 1];
     E_add_atom
       {| align := 1;
          content := DATA {| db_size := 2; db_data := ["x"; "y"]%char |} |}].
Proof. reflexivity. Qed.

Example fail_line_sets_parse_end :
  parse_end (snd (parse_line " fail" Ref.fresh)) = true
  /\ trace (snd (parse_line " fail" Ref.fresh))
     = [E_parse_cpu_special "fail"; E_directive "fail" EmptyString;
        E_syntax_error 11 []].
Proof. split; reflexivity. Qed.

Example end_line_sets_parse_end :
  parse_end (snd (parse_line " END" Ref.fresh)) = true.
Proof. reflexivity. Qed.

Example fatal_inform_sets_parse_end :
  parse_end (snd (parse_line " inform 3,stop" Ref.fresh)) = true
  /\ parse_end (snd (parse_line " inform 2,go" Ref.fresh)) = false.
Proof. split; reflexivity. Qed.

Example reference_after_first_definition :
  get_local_label 1 Ref.nothing 0 ":+"
  = Some (core_make_local_label 0 (Some ":") "2" Ref.nothing, EmptyString)
  /\ get_local_label 1 Ref.nothing 0 ":-"
     = Some (core_make_local_label 0 (Some ":") "1" Ref.nothing, EmptyString).
Proof. split; reflexivity. Qed.

Example pair_with_second_operand :
  Ref.atoms (core (snd (execute_struct "pair" ",5" (Ref.start with_template))))
  = [word_field;
     {| align := 1;
        content := DATADEF {| bitsize := 8; op := "5" : @operand Ref.types |} |}]
  /\ Ref.atoms (core (snd (execute_struct "pair" EmptyString
                             (Ref.start with_template))))
     = [word_field; byte_field]
  /\ execute_struct "triple" ",5" (Ref.start with_template)
     = (Some 0, Ref.start with_template).
Proof. repeat split. Qed.

Example rs_sizes_on_lines :
  trace (snd (parse_line "a rs 3" Ref.fresh))
  = [E_internal_abs "__RS"; E_parse_expr_tmplab "3";
     E_new_equate "a" (Ref.Num 0); E_set_sym_expr "__RS" (Ref.Num 6);
     E_parse_cpu_special EmptyString]
  /\ trace (snd (parse_line "a rs.q 3" Ref.fresh))
     = [E_syntax_error 1 []; E_internal_abs "__RS"; E_parse_expr_tmplab "3";
        E_new_equate "a" (Ref.Num 0); E_set_sym_expr "__RS" (Ref.Num 3);
        E_parse_cpu_special EmptyString].
Proof. split; reflexivity. Qed.

Example escapes_of_an_invocation :
  inserted (expand_macro two_of_three "\@" 8) = "_000007"
  /\ inserted (expand_macro two_of_three "\#" 8) = "2"
  /\ inserted (expand_macro two_of_three "\?1" 8) = "1"
  /\ inserted (expand_macro two_of_three "\?2" 8) = "0"
  /\ inserted (expand_macro two_of_three "\?0" 8) = "1"
  /\ inserted (expand_macro two_of_three "\3" 8) = "#1"
  /\ nc (expand_macro two_of_three "\@" 7) = -1.
Proof. repeat split. Qed.

(** The theorems above, each at an input that meets its hypotheses. *)

Lemma skipped_ifdef_line_witness :
  let w := Ref.start inactive in
  parse_end w = false
  /\ core_cond_state (core w) = false
  /\ exists name s n evs k,
       parse_label_or_pc " ifdef foo" w = (Some (name, s), counting w n)
       /\ parse_line " ifdef foo" w = (Some tt, after (counting w n) evs k)
       /\ forallb (fun e => cond_event e || guard_event e) evs = true
       /\ match check_directive s with
          | Some (idx, s') =>
              if strncmp_eq (directive_name idx) "if" 2 then
                evs = [E_cond_skipif] /\ k = core_cond_skipif (core w)
              else if handler_eqb (directive_func idx) fn_else then
                evs = [E_cond_else] /\ k = core_cond_else (core w)
              else if handler_eqb (directive_func idx) fn_endif then
                evs = [E_cond_endif] /\ k = core_cond_endif (core w)
              else if handler_eqb (directive_func idx) fn_elseif then
                let g := guard_of (skip s') (core w) in
                evs = (fst (fst g) ++ [E_cond_elseif (snd (fst g))])%list
                /\ k = core_cond_elseif (snd (fst g)) (snd g)
              else evs = [] /\ k = core w
          | None => evs = [] /\ k = core w
          end.
Proof.
  cbv zeta. split; [reflexivity|]. split; [reflexivity|].
  apply (skipped_line_only_moves_conditionals " ifdef foo"
           (Ref.start inactive)); reflexivity.
Defined.


Lemma operand_with_anonymous_reference_witness :
  parse_label_or_pc " bra :+" Ref.fresh
  = (Some (None, " bra :+"), Ref.start Ref.empty).
Proof.
  apply (label_before_anonymous_reference_is_no_label " bra :+"
           Ref.fresh "bra" " :+"); reflexivity.
Defined.


Lemma rept_count_witness :
  INT_MIN <= -5 <= INT_MAX
  /\ Z.max 0 (int_of (fst (fst (core_parse_constexpr "-5" Ref.nothing))))
     = Z.max 0 (-5).
Proof.
  split; [unfold INT_MIN, INT_MAX; cbn; lia|].
  apply (proj2 (rept_count_is_clamped_int "-5" Ref.fresh)).
  vm_compute. split; discriminate.
Defined.

Lemma default_field_witness :
  is_field word_field = true
  /\ struct_atom word_field ",5" Ref.fresh
     = (Some "5", emitted Ref.fresh (clone_atom word_field)).
Proof.
  split; [reflexivity|].
  apply (proj1 (proj2 (proj2 (proj2 execute_struct_walks_the_fields)))
           word_field ",5" ",5" Ref.fresh Ref.fresh);
    [reflexivity | reflexivity | vm_compute; discriminate].
Defined.

Lemma stopped_parse_witness :
  let w := snd (handle_end EmptyString (Ref.start (Ref.with_lines Ref.empty
                                            [" nop"; "x: rts"]))) in
  parse_end w = true
  /\ parse 3 w = (Some true, after w [E_cond_check] Ref.nothing).
Proof.
  cbv zeta. split; [reflexivity|].
  apply (proj2 (proj2 (proj2 (proj2 stop_flag_skips_lines_but_not_cond_check)))
           2%nat
           (snd (handle_end EmptyString (Ref.start (Ref.with_lines Ref.empty
                                             [" nop"; "x: rts"]))))
           Ref.nothing); reflexivity.
Defined.

Lemma rs_without_qualifier_witness :
  (ceq (at_ 2 "rs 3") "." = false
   /\ new_setoffset (Some "lab") "rs 3" rs_name 1 Ref.fresh
      = new_setoffset_size (Some "lab") rs_name "3" 1 2 Ref.fresh
   /\ rs_effect "lab" "3" 2 Ref.fresh)
  /\ (ceq (at_ 3 "rs.x 3") NUL = false
      /\ new_setoffset (Some "lab") "rs.x 3" rs_name 1 Ref.fresh
         = new_setoffset_size (Some "lab") rs_name "3" 1 1
             (after Ref.fresh [E_syntax_error 1 []] Ref.nothing)
      /\ rs_effect "lab" "3" 1
           (after Ref.fresh [E_syntax_error 1 []] Ref.nothing))
  /\ parse_labelled "lab rs.x 3" "lab" " rs.x 3" Ref.fresh
     = (r <- new_setoffset (Some "lab") "rs.x 3" rs_name 1 ;;
        ret (Next (snd r))) Ref.fresh.
Proof.
  split; [|split].
  - split; [reflexivity|].
    apply (proj1 (rs_default_and_invalid_extension "lab" "rs 3" Ref.fresh));
      reflexivity.
  - split; [reflexivity|].
    apply (proj1 (proj2 (rs_default_and_invalid_extension "lab" "rs.x 3"
                           Ref.fresh))); reflexivity.
  - apply (proj2 (proj2 (rs_default_and_invalid_extension "lab" "rs.x 3"
                           Ref.fresh)) "lab rs.x 3" " rs.x 3"); reflexivity.
Defined.

End Examples.

(** * Further properties *)

Section LexicalProperties.

(** X1.  [skip] removes the white space a text starts with and nothing
    else: the text is that white space followed by the result, and the
    result does not start with white space. *)
Theorem skip_removes_leading_space (s : string) :
  exists ws : list ascii,
    forallb isspace ws = true
    /\ s = text ws (skip s)
    /\ isspace (peek (skip s)) = false.
Proof.
  induction s as [|c r IH].
  - exists []. repeat split.
  - cbn [skip]. destruct (isspace c) eqn:E.
    + destruct IH as (ws & Hws & Hs & Hp).
      exists (c :: ws). cbn [forallb text]. rewrite E, Hws.
      repeat split; [|exact Hp]. rewrite <- Hs. reflexivity.
    + exists []. repeat split. exact E.
Qed.

Lemma intel_scan_stops (base lastbase : Z) (prev : ascii) (rest : string) :
  isxdigit (peek rest) = false ->
  intel_scan base lastbase prev rest = (base, lastbase, prev, rest).
Proof.
  destruct rest as [|c r]; [reflexivity|]. cbn. intros ->. reflexivity.
Qed.

Lemma intel_scan_run (xs : list ascii) (c : ascii) (rest : string)
    (base lastbase : Z) (prev : ascii) :
  forallb isxdigit xs = true ->
  isxdigit c = true ->
  isxdigit (peek rest) = false ->
  intel_scan base lastbase prev (text (xs ++ [c]) rest)
  = (switch_base (fold_left switch_base xs base) c,
     fold_left switch_base xs base, c, rest).
Proof.
  revert base lastbase prev.
  induction xs as [|x xs IH]; intros base lastbase prev Hxs Hc Hrest.
  - cbn. rewrite Hc. apply intel_scan_stops. exact Hrest.
  - cbn [forallb] in Hxs. apply andb_true_iff in Hxs. destruct Hxs as [Hx Hxs].
    cbn [app text intel_scan fold_left]. rewrite Hx.
    apply IH; assumption.
Qed.

Lemma text_snoc (xs : list ascii) (c : ascii) (rest : string) :
  text (xs ++ [c]) rest = text xs (String c rest).
Proof. induction xs as [|x xs IH]; cbn; [|rewrite IH]; reflexivity. Qed.

Lemma isdigit_isxdigit (c : ascii) : isdigit c = true -> isxdigit c = true.
Proof. unfold isxdigit. intros ->. reflexivity. Qed.

Lemma forallb_isdigit_isxdigit (ds : list ascii) :
  forallb isdigit ds = true -> forallb isxdigit ds = true.
Proof.
  induction ds as [|d ds IH]; [reflexivity|]. cbn [forallb].
  intro E. apply andb_true_iff in E. destruct E as [E1 E2].
  rewrite (isdigit_isxdigit d E1), (IH E2). reflexivity.
Qed.

(** The base the loop of [intel_suffix] reaches over decimal digits. *)
Lemma fold_switch_base_digits (ds : list ascii) (base : Z) :
  forallb isdigit ds = true ->
  base = 2 \/ base = 8 \/ base = 10 ->
  (fold_left switch_base ds base = 2
   \/ fold_left switch_base ds base = 8
   \/ fold_left switch_base ds base = 10)
  /\ (fold_left switch_base ds base <=? 2)
     = (base <=? 2) && forallb (fun c => cle c "1") ds
  /\ (fold_left switch_base ds base <=? 8)
     = (base <=? 8) && forallb (fun c => cle c "7") ds.
Proof.
  revert base. induction ds as [|d ds IH]; intros base Hds Hb.
  - cbn. rewrite !andb_true_r. auto.
  - cbn [forallb] in Hds. apply andb_true_iff in Hds.
    destruct Hds as [Hd Hds].
    assert (H9 : cle d "9" = true).
    { unfold cle. apply Z.leb_le. apply isdigit_code in Hd.
      change (code "9") with 57. lia. }
    assert (H17 : cle d "1" = true -> cle d "7" = true).
    { unfold cle. intro E. apply Z.leb_le in E. apply Z.leb_le.
      change (code "1") with 49 in E. change (code "7") with 55. lia. }
    cbn [fold_left forallb].
    assert (Hs : (switch_base base d = 2 \/ switch_base base d = 8
                  \/ switch_base base d = 10)
                 /\ (switch_base base d <=? 2) = (base <=? 2) && cle d "1"
                 /\ (switch_base base d <=? 8) = (base <=? 8) && cle d "7").
    { unfold switch_base, case_2, case_8, case_10. rewrite H9.
      destruct Hb as [-> | [-> | ->]]; cbn;
        destruct (cle d "1") eqn:E1; destruct (cle d "7") eqn:E7; cbn;
        try (specialize (H17 eq_refl); discriminate); auto. }
    destruct Hs as (Hs1 & Hs2 & Hs3).
    destruct (IH _ Hds Hs1) as (I1 & I2 & I3).
    split; [exact I1|]. rewrite I2, I3, Hs2, Hs3, !andb_assoc. auto.
Qed.

Lemma cle_false_after_9 (c : ascii) :
  isxdigit c = true -> isdigit c = false -> cle c "9" = false.
Proof.
  unfold isxdigit, cle. intros Hx Hd. rewrite Hd in Hx. cbn [orb] in Hx.
  apply Z.leb_gt. change (code "9") with 57.
  unfold in_range in Hx. apply orb_true_iff in Hx.
  destruct Hx as [Hx|Hx]; apply andb_true_iff in Hx; destruct Hx as [Hx _];
    apply Z.leb_le in Hx.
  - change (code "a") with 97 in Hx. lia.
  - change (code "A") with 65 in Hx. lia.
Qed.

Lemma switch_base_letter (base : Z) (c : ascii) :
  base = 2 \/ base = 8 \/ base = 10 ->
  isxdigit c = true -> isdigit c = false ->
  switch_base base c = 16.
Proof.
  intros Hb Hx Hd. pose proof (cle_false_after_9 c Hx Hd) as H9.
  assert (H7 : cle c "7" = false).
  { unfold cle in *. apply Z.leb_gt. apply Z.leb_gt in H9.
    change (code "9") with 57 in H9. change (code "7") with 55. lia. }
  assert (H1 : cle c "1" = false).
  { unfold cle in *. apply Z.leb_gt. apply Z.leb_gt in H9.
    change (code "9") with 57 in H9. change (code "1") with 49. lia. }
  unfold switch_base, case_2, case_8, case_10. rewrite H1, H7, H9.
  destruct Hb as [-> | [-> | ->]]; reflexivity.
Qed.

(** X2.  What [intel_suffix] recognises.  A run of hexadecimal digits
    before [h] is hexadecimal.  A run of decimal digits before [o] or [q]
    is octal when no digit is above 7, before [d] it is decimal, and
    before [b] it is binary when no digit is above 1; [d] and [b] count
    when no hexadecimal digit and no [h] follows them.  In the other
    cases of such digits the result is 0.  Upper case suffixes do as
    well.  On these texts the result is the same whatever [lastbase]
    holds before it is set and whatever character lies before the text;
    a text that starts with no hexadecimal digit and no [h] is outside
    this statement. *)
Theorem intel_suffix_recognises (junk : Z) (before : ascii) :
  (forall (xs : list ascii) (rest : string),
      forallb isxdigit xs = true ->
      isxdigit (peek rest) = false ->
      ceq (tolower (peek rest)) "h" = true ->
      intel_suffix junk before (text xs rest) = 16)
  /\ (forall (ds : list ascii) (rest : string),
         ds <> [] ->
         forallb isdigit ds = true ->
         ceq (tolower (peek rest)) "o" || ceq (tolower (peek rest)) "q"
         = true ->
         intel_suffix junk before (text ds rest)
         = if forallb (fun c => cle c "7") ds then 8 else 0)
  /\ (forall (ds : list ascii) (sc : ascii) (rest : string),
         forallb isdigit ds = true ->
         isxdigit (peek rest) = false ->
         ceq (tolower (peek rest)) "h" = false ->
         (ceq sc "d" || ceq sc "D" = true ->
          intel_suffix junk before (text ds (String sc rest)) = 10)
         /\ (ceq sc "b" || ceq sc "B" = true ->
             intel_suffix junk before (text ds (String sc rest))
             = if forallb (fun c => cle c "1") ds then 2 else 0)).
Proof.
  split; [|split].
  - intros xs rest Hxs Hrest Hh.
    unfold intel_suffix.
    destruct xs as [|x xs] using rev_ind.
    + cbn [text]. rewrite intel_scan_stops by exact Hrest. rewrite Hh.
      reflexivity.
    + clear IHxs. rewrite forallb_app in Hxs. apply andb_true_iff in Hxs.
      destruct Hxs as [Hxs Hx]. cbn in Hx. rewrite andb_true_r in Hx.
      rewrite intel_scan_run by assumption. rewrite Hh. reflexivity.
  - intros ds rest Hne Hds Hoq.
    assert (Hrest : isxdigit (peek rest) = false).
    { destruct rest as [|c r]; [reflexivity|]. cbn [peek] in *.
      destruct c as [[] [] [] [] [] [] [] []]; try reflexivity;
        vm_compute in Hoq; discriminate. }
    assert (Hh : ceq (tolower (peek rest)) "h" = false).
    { destruct (ceq (tolower (peek rest)) "h") eqn:E; [|reflexivity].
      unfold ceq in *. apply Ascii.eqb_eq in E. rewrite E in Hoq.
      vm_compute in Hoq. discriminate. }
    unfold intel_suffix.
    destruct ds as [|d ds] using rev_ind; [contradiction|]. clear IHds.
    rewrite forallb_app in Hds. apply andb_true_iff in Hds.
    destruct Hds as [Hds Hd]. cbn in Hd. rewrite andb_true_r in Hd.
    rewrite intel_scan_run
      by (auto using forallb_isdigit_isxdigit, isdigit_isxdigit).
    rewrite Hh, Hoq. cbn [andb].
    change (switch_base (fold_left switch_base ds 2) d)
      with (fold_left switch_base [d] (fold_left switch_base ds 2)).
    rewrite <- fold_left_app.
    assert (Hall : forallb isdigit (ds ++ [d]) = true).
    { rewrite forallb_app, Hds. cbn. rewrite Hd. reflexivity. }
    destruct (fold_switch_base_digits (ds ++ [d]) 2 Hall (or_introl eq_refl))
      as (_ & _ & H8).
    rewrite H8. cbn [Z.leb andb]. change (2 <=? 8) with true. cbn [andb].
    destruct (forallb (fun c => cle c "7") (ds ++ [d])); [reflexivity|].
    assert (Hnd : ceq (tolower d) "d" = false /\ ceq (tolower d) "b" = false).
    { clear - Hd. destruct d as [[] [] [] [] [] [] [] []];
        vm_compute in Hd; try discriminate; split; reflexivity. }
    destruct Hnd as [-> ->]. reflexivity.
  - intros ds sc rest Hds Hrest Hh.
    assert (Hscan : forall sc,
      isxdigit sc = true -> isdigit sc = false ->
      intel_scan 2 junk before (text ds (String sc rest))
      = (16, fold_left switch_base ds 2, sc, rest)).
    { intros c Hx Hd. rewrite <- text_snoc.
      rewrite intel_scan_run
        by (auto using forallb_isdigit_isxdigit).
      rewrite switch_base_letter; auto.
      apply (fold_switch_base_digits ds 2 Hds). auto. }
    destruct (fold_switch_base_digits ds 2 Hds (or_introl eq_refl))
      as (Hrange & H2 & _).
    split.
    + intros Hsc.
      assert (Hx : isxdigit sc = true /\ isdigit sc = false
                   /\ ceq (tolower sc) "d" = true).
      { apply orb_true_iff in Hsc. unfold ceq in Hsc.
        destruct Hsc as [E|E]; apply Ascii.eqb_eq in E; subst sc;
          repeat split; reflexivity. }
      destruct Hx as (Hx & Hd & Hlow).
      unfold intel_suffix. rewrite (Hscan sc) by auto.
      rewrite Hh. change (16 <=? 8) with false. rewrite andb_false_r.
      rewrite Hlow.
      assert (H10 : (fold_left switch_base ds 2 <=? 10) = true).
      { apply Z.leb_le. destruct Hrange as [-> | [-> | ->]]; lia. }
      rewrite H10. reflexivity.
    + intros Hsc.
      assert (Hx : isxdigit sc = true /\ isdigit sc = false
                   /\ ceq (tolower sc) "d" = false
                   /\ ceq (tolower sc) "b" = true).
      { apply orb_true_iff in Hsc. unfold ceq in Hsc.
        destruct Hsc as [E|E]; apply Ascii.eqb_eq in E; subst sc;
          repeat split; reflexivity. }
      destruct Hx as (Hx & Hd & Hnd & Hb).
      unfold intel_suffix. rewrite (Hscan sc) by auto.
      rewrite Hh. change (16 <=? 8) with false. rewrite andb_false_r.
      rewrite Hnd, Hb, H2. cbn [andb].
      change (2 <=? 2) with true. cbn [andb].
      destruct (forallb (fun c => cle c "1") ds); reflexivity.
Qed.

Section ConstantProperties.
Context {CFG : Config}.

Lemma land_15_digit (c : ascii) :
  cle "2" c = true -> cle c "9" = true ->
  2 <= Z.land (code c) 15 <= 9.
Proof.
  destruct c as [[] [] [] [] [] [] [] []]; vm_compute; intros H2 H9;
    try discriminate; split; discriminate.
Qed.

Lemma intel_suffix_range (junk : Z) (before : ascii) (s : string) :
  In (intel_suffix junk before s) [0; 2; 8; 10; 16].
Proof.
  unfold intel_suffix.
  destruct (intel_scan 2 junk before s) as [[[base lastbase] prev] e].
  repeat match goal with
         | |- context [if ?b then _ else _] => destruct b
         end; cbn; auto 10.
Qed.

Lemma intel_suffix_of_digit (j1 j2 : Z) (b1 b2 : ascii) (s : string) :
  isdigit (peek s) = true ->
  intel_suffix j1 b1 s = intel_suffix j2 b2 s.
Proof.
  destruct s as [|c r]; [discriminate|]. cbn [peek]. intro Hd.
  unfold intel_suffix. cbn [intel_scan].
  rewrite (isdigit_isxdigit c Hd). reflexivity.
Qed.

(** X3.  [const_prefix] on any text: the base is 0, 16 or from 2 to 10,
    the position moves on by two characters at most, and with the base 0
    it does not move.  The result depends neither on the character before
    the text nor on an uninitialised [lastbase]: [intel_suffix] is only
    called on a digit. *)
Theorem const_prefix_base_and_position
    (junk junk' : Z) (before before' : ascii) (s : string) :
  let r := const_prefix junk before s in
  r = const_prefix junk' before' s
  /\ (snd r = 0 \/ snd r = 16 \/ 2 <= snd r <= 10)
  /\ (fst r = s \/ fst r = next s \/ fst r = advance 2 s)
  /\ (snd r = 0 -> fst r = s /\ isdigit (peek s) = false).
Proof.
  cbv zeta. unfold const_prefix.
  destruct (isdigit (peek s)) eqn:Hd.
  - rewrite (intel_suffix_of_digit junk junk' before before' s Hd).
    destruct (alt_numeric && negb (intel_suffix junk' before' s =? 0)) eqn:Ha.
    + cbn [fst snd]. split; [reflexivity|].
      apply andb_true_iff in Ha. destruct Ha as [_ Ha].
      apply negb_true_iff, Z.eqb_neq in Ha.
      pose proof (intel_suffix_range junk' before' s) as Hr. cbn in Hr.
      repeat split; auto; try lia.
    + repeat match goal with
             | |- context [if ?b then _ else _] => destruct b eqn:?
             end; cbn [fst snd]; repeat split; auto; try lia;
        try (match goal with
             | H : _ && cle "2" (peek s) && cle (peek s) "9" = true |- _ =>
                 apply andb_true_iff in H; destruct H as [H H9];
                 apply andb_true_iff in H; destruct H as [_ H2];
                 pose proof (land_15_digit _ H2 H9)
             end; solve [auto | lia | intro; lia]).
  - repeat match goal with
           | |- context [if ?b then _ else _] => destruct b
           end; cbn [fst snd]; repeat split; auto; try lia; try discriminate.
Qed.

End ConstantProperties.

End LexicalProperties.

Section OperandProperties.
Context {CFG : Config} {TY : Types} {CORE : Core}.

Lemma length_text (t : list ascii) (rest : string) :
  String.length (text t rest) = (List.length t + String.length rest)%nat.
Proof. induction t as [|c t IH]; cbn; [|rewrite IH]; reflexivity. Qed.

Lemma skip_operand_loop_stops (n : nat) :
  START_PARENTH NUL = false ->
  END_PARENTH NUL = false ->
  (forall (c : ascii) (r : string) (d : ascii),
      (String.length (skip_string (String c r) d) <= String.length r)%nat) ->
  forall (par_cnt : Z) (s : string) (w : world),
    (String.length s < n)%nat ->
    exists (p : Z) (s1 : string) (w1 : world),
      skip_operand_loop n par_cnt s w = (Some (p, s1), w1)
      /\ (String.length s1 <= String.length s)%nat
      /\ (ceq (peek s1) NUL = true
          \/ (p = 0
              /\ ceq (peek s1) "," || ceq (peek s1) commentchar = true)).
Proof.
  intros Hstart Hend Hskip.
  induction n as [|n IH]; intros par_cnt s w Hn; [lia|].
  cbn [skip_operand_loop].
  destruct s as [|c r].
  - cbn [peek]. rewrite Hstart, Hend. cbn.
    exists par_cnt, EmptyString, w. auto.
  - cbn [String.length] in Hn. cbn [peek next].
    assert (Hnext : forall p w',
      exists p' s1 w1,
        skip_operand_loop n p r w' = (Some (p', s1), w1)
        /\ (String.length s1 <= String.length (String c r))%nat
        /\ (ceq (peek s1) NUL = true
            \/ (p' = 0
                /\ ceq (peek s1) "," || ceq (peek s1) commentchar = true))).
    { intros p w'. destruct (IH p r w' ltac:(lia)) as (p' & s1 & w1 & E & L & S).
      exists p', s1, w1. cbn [String.length]. auto. }
    destruct (START_PARENTH c); [apply Hnext|].
    destruct (END_PARENTH c).
    { destruct (par_cnt >? 0); [apply Hnext|].
      unfold bind, syntax_error, log. apply Hnext. }
    destruct (ceq c squote || ceq c dquote).
    { pose proof (Hskip c r c) as Hl.
      destruct (IH par_cnt (skip_string (String c r) c) w ltac:(lia))
        as (p' & s1 & w1 & E & L & S).
      exists p', s1, w1. cbn [String.length]. split; [exact E|].
      split; [lia|exact S]. }
    destruct (ceq c NUL) eqn:Enul.
    { cbn [orb]. exists par_cnt, (String c r), w. cbn [peek]. auto. }
    cbn [orb].
    destruct (par_cnt =? 0) eqn:Ep; cbn [andb]; [|apply Hnext].
    destruct (ceq c "," || ceq c commentchar) eqn:Ec; [|apply Hnext].
    exists par_cnt, (String c r), w. cbn [peek].
    apply Z.eqb_eq in Ep. auto.
Qed.

(** X4.  [skip_operand] returns a position that is not before the one it
    started from, and stops only at the end of the text, at a comma or at
    the comment character: as long as [skip_string] moves forward and the
    terminator is no parenthesis. *)
Theorem skip_operand_stops_at_operand_end (s : string) (w : world) :
  START_PARENTH NUL = false ->
  END_PARENTH NUL = false ->
  (forall (c : ascii) (r : string) (d : ascii),
      (String.length (skip_string (String c r) d) <= String.length r)%nat) ->
  exists (s1 : string) (w1 : world),
    skip_operand s w = (Some s1, w1)
    /\ (String.length s1 <= String.length s)%nat
    /\ ends_operand (peek s1) = true.
Proof.
  intros Hstart Hend Hskip.
  destruct (skip_operand_loop_stops (S (String.length s)) Hstart Hend Hskip
              0 s w ltac:(lia)) as (p & s1 & w1 & E & L & S).
  unfold skip_operand, bind. rewrite E. cbn [fst snd].
  assert (Hends : ends_operand (peek s1) = true).
  { unfold ends_operand. destruct S as [-> | [_ S]]; [reflexivity|].
    rewrite <- orb_assoc, S. apply orb_true_r. }
  destruct (negb (p =? 0)).
  - unfold syntax_error, log, ret. eexists _, _. repeat split; eauto.
  - unfold ret. eexists _, _. repeat split; eauto.
Qed.

Lemma skip_operand_loop_plain (s : string) (n : nat) (w : world) :
  START_PARENTH NUL = false ->
  END_PARENTH NUL = false ->
  plain s = true ->
  (String.length s < n)%nat ->
  skip_operand_loop n 0 s w = (Some (0, operand_end s), w).
Proof.
  intros Hstart Hend. revert n.
  induction s as [|c r IH]; intros n Hp Hn.
  - destruct n as [|n]; [cbn in Hn; lia|]. cbn. rewrite Hstart, Hend.
    reflexivity.
  - destruct n as [|n]; [lia|]. cbn [String.length] in Hn.
    cbn [plain] in Hp. cbn [skip_operand_loop operand_end peek next].
    unfold special in Hp.
    destruct (START_PARENTH c); [discriminate|].
    destruct (END_PARENTH c); [discriminate|].
    destruct (ceq c squote || ceq c dquote) eqn:Eq.
    { apply orb_true_iff in Eq. destruct Eq as [Eq|Eq]; rewrite Eq in Hp;
        cbn in Hp; [discriminate|]. rewrite orb_true_r in Hp. discriminate. }
    apply orb_false_iff in Eq. destruct Eq as [Eq1 Eq2].
    rewrite Eq1, Eq2 in Hp. cbn [orb] in Hp.
    unfold ends_operand in *. cbn [Z.eqb andb].
    rewrite <- orb_assoc in Hp. rewrite <- orb_assoc.
    destruct (ceq c NUL || (ceq c "," || ceq c commentchar)); [reflexivity|].
    apply IH; [exact Hp|lia].
Qed.

(** X5.  An operand without parentheses and quotes: [skip_operand] returns
    the first position with a comma, the comment character or the end of
    the text, and reports nothing. *)
Theorem skip_operand_of_plain_text (s : string) (w : world) :
  START_PARENTH NUL = false ->
  END_PARENTH NUL = false ->
  plain s = true ->
  skip_operand s w = (Some (operand_end s), w).
Proof.
  intros Hstart Hend Hp. unfold skip_operand, bind.
  rewrite (skip_operand_loop_plain s _ w Hstart Hend Hp) by lia.
  reflexivity.
Qed.

Lemma skip_operand_loop_inner (t : list ascii) (rest : string) (n : nat)
    (par_cnt : Z) (w : world) :
  inner t = true ->
  0 < par_cnt ->
  skip_operand_loop (List.length t + n) par_cnt (text t rest) w
  = skip_operand_loop n par_cnt rest w.
Proof.
  intros Ht Hp. induction t as [|c t IH]; [reflexivity|].
  cbn [inner forallb] in Ht. apply andb_true_iff in Ht.
  destruct Ht as [Hc Ht]. apply andb_true_iff in Hc. destruct Hc as [Hs Hn].
  apply negb_true_iff in Hs, Hn. unfold special in Hs.
  apply orb_false_iff in Hs. destruct Hs as [Hs Hq2].
  apply orb_false_iff in Hs. destruct Hs as [Hs Hq1].
  apply orb_false_iff in Hs. destruct Hs as [Hs1 Hs2].
  cbn [List.length Nat.add text skip_operand_loop peek next].
  rewrite Hs1, Hs2, Hq1, Hq2, Hn. cbn [orb].
  assert (E : (par_cnt =? 0) = false) by (apply Z.eqb_neq; lia).
  rewrite E. cbn [andb]. apply IH. exact Ht.
Qed.

(** X6.  A comma or a comment character inside parentheses does not end
    the operand: behind a parenthesised text without further parentheses
    and quotes, [skip_operand] goes on as from the start of an operand. *)
Theorem skip_operand_passes_parentheses
    (o cl : ascii) (t : list ascii) (rest : string) (w : world) :
  START_PARENTH o = true ->
  START_PARENTH cl = false ->
  END_PARENTH cl = true ->
  inner t = true ->
  skip_operand (String o (text t (String cl rest))) w = skip_operand rest w.
Proof.
  intros Ho Hc1 Hc2 Ht. unfold skip_operand.
  cbn [String.length]. rewrite length_text. cbn [String.length].
  replace (S (S (List.length t + S (String.length rest))))
    with (S (List.length t + S (S (String.length rest)))) by lia.
  cbn [skip_operand_loop peek next]. rewrite Ho.
  unfold bind at 1. unfold bind at 2.
  rewrite skip_operand_loop_inner by (auto; lia).
  cbn [skip_operand_loop peek next]. rewrite Hc1, Hc2.
  change (0 + 1 >? 0) with true. cbv iota.
  change (0 + 1 - 1) with 0. reflexivity.
Qed.

End OperandProperties.

Section MoreLabelProperties.
Context {CFG : Config} {TY : Types} {CORE : Core}.

Lemma take_text (t : list ascii) (rest : string) :
  take (List.length t) (text t rest) = text t EmptyString.
Proof. induction t as [|c t IH]; cbn; [destruct rest|rewrite IH]; reflexivity. Qed.

Lemma upto_text (t : list ascii) (rest : string) :
  upto (text t rest) rest = text t EmptyString.
Proof.
  unfold upto. rewrite length_text.
  replace (List.length t + String.length rest - String.length rest)%nat
    with (List.length t) by lia.
  apply take_text.
Qed.

Lemma dist_text (t : list ascii) (rest : string) :
  dist (text t rest) rest = Z.of_nat (List.length t).
Proof. unfold dist. rewrite length_text. lia. Qed.

Lemma skip_idchars_text (t : list ascii) (rest : string) :
  forallb ISIDCHAR t = true ->
  ISIDCHAR (peek rest) = false ->
  skip_idchars (text t rest) = rest.
Proof.
  intros Ht Hr. induction t as [|c t IH].
  - cbn. destruct rest as [|c r]; [reflexivity|]. cbn in *. rewrite Hr.
    reflexivity.
  - cbn [forallb] in Ht. apply andb_true_iff in Ht. destruct Ht as [Hc Ht].
    cbn. rewrite Hc. apply IH. exact Ht.
Qed.

(** X7.  The two spellings of a local label give the same name: the
    local character before an identifier, and the same identifier before
    [$], both make [make_local_label] name the identifier in the current
    scope, and both leave the position behind the label and the white
    space that follows. *)
Theorem local_label_spellings_agree
    (labno : Z) (k : K) (n : Z) (c : ascii) (cs : list ascii)
    (rest : string) :
  ISIDSTART local_char = true ->
  ISIDCHAR "$" = false ->
  ISIDSTART c || isdigit c = true ->
  ceq c local_char = false ->
  forallb ISIDCHAR (c :: cs) = true ->
  let name := core_make_local_label n None (text (c :: cs) EmptyString) k in
  (ISIDCHAR (peek rest) = false ->
   get_local_label labno k n (String local_char (text (c :: cs) rest))
   = Some (name, skip rest))
  /\ get_local_label labno k n (text (c :: cs) (String "$" rest))
     = Some (name, skip rest).
Proof.
  intros Hloc Hdollar Hstart Hnl Hcs name. subst name.
  assert (Hll : ceq local_char local_char = true)
    by (unfold ceq; apply Ascii.eqb_refl).
  split.
  - intro Hrest.
    unfold get_local_label, skip_local. cbn [peek next].
    rewrite Hloc. cbn [orb].
    rewrite (skip_idchars_text (c :: cs) rest Hcs Hrest).
    rewrite Hll. cbn [negb]. rewrite !andb_false_r.
    assert (Hd : (dist (String local_char (text (c :: cs) rest)) rest >? 1)
                 = true).
    { apply gtb_true. unfold dist. cbn [String.length].
      rewrite length_text. cbn [List.length]. lia. }
    rewrite Hd. cbn [andb]. rewrite upto_text. reflexivity.
  - unfold get_local_label, skip_local.
    cbn [forallb] in Hcs. apply andb_true_iff in Hcs. destruct Hcs as [Hc Hcs].
    cbn [text peek next]. rewrite Hstart.
    rewrite (skip_idchars_text cs (String "$" rest) Hcs Hdollar).
    cbn [peek]. change (ceq "$" ":") with false. cbn [andb].
    rewrite Hnl. rewrite andb_false_r.
    change (String c (text cs (String "$" rest)))
      with (text (c :: cs) (String "$" rest)).
    rewrite dist_text. change (ceq "$" "$") with true. rewrite andb_true_r.
    assert (Hd : (Z.of_nat (List.length (c :: cs)) >? 0) = true)
      by (apply gtb_true; cbn [List.length]; lia).
    rewrite Hd. rewrite upto_text. reflexivity.
Qed.

(** X8.  [parse_label_or_pc] always returns, and touches nothing but the
    anonymous counter, which changes only for a line that starts with
    [:]; when it finds no label the position stays where it was. *)
Theorem parse_label_or_pc_frame (start : string) (w : world) :
  exists (name : option string) (s : string) (n : Z),
    parse_label_or_pc start w = (Some (name, s), counting w n)
    /\ (ceq (peek start) ":" = false -> n = anon_labno w)
    /\ (name = None -> s = start).
Proof.
  unfold parse_label_or_pc. destruct (ceq (peek start) ":").
  - eexists _, _, _. split; [reflexivity|]. split; intro; discriminate.
  - unfold bind at 1. unfold bind at 1. unfold parse_symbol at 1.
    destruct (core_parse_symbol _ _ _) as [[name s]|].
    + destruct (ceq (peek (skip s)) ":").
      * destruct (ceq (peek (next (skip s))) "+"
                  || ceq (peek (next (skip s))) "-");
          eexists _, _, (anon_labno w); unfold counting;
          (split; [destruct w; reflexivity|]);
          split; intros; try reflexivity; discriminate.
      * destruct (negb (negb (isspace (peek start))));
          eexists _, _, (anon_labno w); unfold counting;
          (split; [destruct w; reflexivity|]);
          split; intros; try reflexivity; discriminate.
    + unfold ret at 1. cbv iota beta.
      destruct (ceq (peek _) current_pc_char && negb (ISIDCHAR (at_ 1 _)));
        eexists _, _, (anon_labno w); unfold counting;
        (split; [destruct w; reflexivity|]);
        split; intros; try reflexivity; discriminate.
Qed.

(** X9.  The colon and the first column.  An identifier that the line
    starts with in its first column is a label, with or without a colon.
    An identifier behind white space is a label only with a colon.  Behind
    the colon of a label the position is at the next character. *)
Theorem label_needs_colon_unless_in_first_column
    (start : string) (w : world) (name rest : string) :
  ceq (peek start) ":" = false ->
  core_parse_symbol (get_local_label (anon_labno w) (core w))
    (if isspace (peek start) then skip start else start) (core w)
  = Some (name, rest) ->
  (ceq (peek (skip rest)) ":" = false ->
   parse_label_or_pc start w
   = if isspace (peek start) then (Some (None, start), w)
     else (Some (Some name, skip rest), w))
  /\ (ceq (peek (skip rest)) ":" = true ->
      marker (at_ 1 (skip rest)) = false ->
      parse_label_or_pc start w = (Some (Some name, next (skip rest)), w)).
Proof.
  intros Hcolon Hsym.
  unfold parse_label_or_pc, bind, parse_symbol. rewrite Hcolon, Hsym.
  split.
  - intro Hc. rewrite Hc. destruct (isspace (peek start)); reflexivity.
  - intros Hc Hm. rewrite Hc.
    unfold marker, at_ in Hm. cbn in Hm. rewrite Hm. reflexivity.
Qed.

(** X10.  The current-pc character.  Where no symbol starts, a [*] that
    no identifier character follows is returned as the name of the
    program counter, in the first column and behind white space alike,
    and the position moves behind it and the white space that follows. *)
Theorem current_pc_is_found_in_any_column (start : string) (w : world) :
  ceq (peek start) ":" = false ->
  let s := if isspace (peek start) then skip start else start in
  core_parse_symbol (get_local_label (anon_labno w) (core w)) s (core w)
  = None ->
  ceq (peek s) "*" = true ->
  ISIDCHAR (at_ 1 s) = false ->
  parse_label_or_pc start w = (Some (Some "*", skip (next s)), w).
Proof.
  intros Hcolon s Hsym Hstar Hid. subst s.
  unfold parse_label_or_pc, bind, parse_symbol. rewrite Hcolon, Hsym.
  unfold ret. cbv iota beta.
  change current_pc_char with "*"%char. rewrite Hstar, Hid. reflexivity.
Qed.

End MoreLabelProperties.

Section TableProperties.
Context {CFG : Config} {TY : Types} {CORE : Core}.

Lemma lower_lower (s : string) : lower (lower s) = lower s.
Proof.
  induction s as [|c s IH]; [reflexivity|]. cbn. rewrite IH. f_equal.
  destruct c as [[] [] [] [] [] [] [] []]; reflexivity.
Qed.

Lemma find_namelen_nc_case (tab : list (string * handler)) (i : nat)
    (a b : string) :
  lower a = lower b -> find_namelen_nc tab i a = find_namelen_nc tab i b.
Proof.
  intro E. revert i. induction tab as [|[n f] tab IH]; intro i;
    [reflexivity|].
  cbn. rewrite E. destruct (String.eqb (lower n) (lower b)); auto.
Qed.

Lemma find_namelen_nc_sound (tab : list (string * handler)) (i idx : nat)
    (name : string) :
  find_namelen_nc tab i name = Some idx ->
  (i <= idx < i + List.length tab)%nat
  /\ lower (fst (nth (idx - i) tab (EmptyString, fn_end))) = lower name.
Proof.
  revert i. induction tab as [|[n f] tab IH]; intros i E; [discriminate|].
  cbn in E. destruct (String.eqb (lower n) (lower name)) eqn:En.
  - injection E as <-. apply String.eqb_eq in En.
    rewrite Nat.sub_diag. cbn. split; [lia|exact En].
  - destruct (IH _ E) as [Hr Hn]. cbn [List.length]. split; [lia|].
    replace (idx - i)%nat with (S (idx - S i)) by lia. exact Hn.
Qed.

Lemma directives_found_at_their_index :
  forallb
    (fun i =>
       match find_namelen_nc directives 0 (directive_name i) with
       | Some j => Nat.eqb i j
       | None => false
       end)
    (seq 0 (List.length directives)) = true.
Proof.
  unfold directive_name, directives.
  destruct VASM_CPU_M68K; vm_compute; reflexivity.
Qed.

(** X11.  No directive hides another: a name that equals the name of an
    entry of the table, in any mixture of upper and lower case, is found
    at the index of that entry, in the table of the M68K and in the table
    of the other targets. *)
Theorem every_directive_is_found (idx : nat) (name : string) :
  (idx < List.length directives)%nat ->
  lower name = lower (directive_name idx) ->
  find_namelen_nc directives 0 name = Some idx.
Proof.
  intros Hidx Hname.
  rewrite (find_namelen_nc_case directives 0 _ _ Hname).
  pose proof directives_found_at_their_index as Hall.
  rewrite forallb_forall in Hall.
  specialize (Hall idx). rewrite in_seq in Hall.
  specialize (Hall ltac:(lia)).
  destruct (find_namelen_nc directives 0 (directive_name idx)) as [j|];
    [|discriminate].
  apply Nat.eqb_eq in Hall. subst j. reflexivity.
Qed.

Lemma if_names_open_blocks :
  forallb
    (fun i =>
       Bool.eqb (strncmp_eq (directive_name i) "if" 2)
                (opens_block (directive_func i)))
    (seq 0 (List.length directives)) = true.
Proof.
  unfold directive_name, directive_func, directives.
  destruct VASM_CPU_M68K; vm_compute; reflexivity.
Qed.

(** X12.  What the skipping parser counts as the start of a nested block
    is what opens a block when it is not skipped: the names of the table
    that start with [if] are exactly those of the handlers of the
    conditional directives. *)
Theorem if_prefix_marks_the_conditional_handlers (idx : nat) :
  (idx < List.length directives)%nat ->
  strncmp_eq (directive_name idx) "if" 2 = opens_block (directive_func idx).
Proof.
  intro Hidx. pose proof if_names_open_blocks as Hall.
  rewrite forallb_forall in Hall.
  specialize (Hall idx). rewrite in_seq in Hall.
  specialize (Hall ltac:(lia)). apply eqb_prop in Hall. exact Hall.
Qed.

Lemma skip_dirchars_suffix (r : string) :
  exists pre : string,
    r = pre ++ skip_dirchars r
    /\ (skip_dirchars r = EmptyString
        \/ ISIDCHAR (peek (skip_dirchars r))
           || ceq (peek (skip_dirchars r)) "." = false).
Proof.
  induction r as [|c r IH].
  - exists EmptyString. cbn. auto.
  - cbn [skip_dirchars].
    destruct (ISIDCHAR c || ceq c ".") eqn:E.
    + destruct IH as (pre & Hpre & Hstop).
      exists (String c pre). cbn. rewrite <- Hpre. auto.
    + exists EmptyString. cbn. auto.
Qed.

Lemma length_append (a b : string) :
  String.length (a ++ b) = (String.length a + String.length b)%nat.
Proof. induction a as [|c a IH]; cbn; [reflexivity|]. rewrite IH. reflexivity. Qed.

Lemma upto_append (pre e : string) : upto (pre ++ e) e = pre.
Proof.
  unfold upto. rewrite length_append.
  replace (String.length pre + String.length e - String.length e)%nat
    with (String.length pre) by lia.
  induction pre as [|c pre IH]; cbn; [destruct e; reflexivity|].
  rewrite IH. reflexivity.
Qed.

(** X13.  What [check_directive] accepts: the index is one of the table,
    the text it passes over, behind leading white space, is the name of
    that entry up to case, and the name is taken as long as it goes: the
    position it returns is at the end of the text or at a character that
    is no identifier character and no dot. *)
Theorem check_directive_accepts_a_table_name
    (line : string) (idx : nat) (rest : string) :
  check_directive line = Some (idx, rest) ->
  (idx < List.length directives)%nat
  /\ (exists name : string,
         skip line = name ++ rest
         /\ lower name = lower (directive_name idx))
  /\ (rest = EmptyString
      \/ ISIDCHAR (peek rest) || ceq (peek rest) "." = false).
Proof.
  unfold check_directive.
  destruct (negb (ISIDSTART (peek (skip line)))); [discriminate|].
  destruct (find_namelen_nc directives 0 _) as [j|] eqn:E; [|discriminate].
  intro H. injection H as <- <-.
  destruct (find_namelen_nc_sound _ _ _ _ E) as [Hr Hn].
  rewrite Nat.sub_0_r in Hn.
  destruct (skip_dirchars_suffix (next (skip line))) as (pre & Hpre & Hstop).
  split; [lia|]. split; [|exact Hstop].
  assert (Hl : skip line = upto (skip line) (skip_dirchars (next (skip line)))
                          ++ skip_dirchars (next (skip line))).
  { destruct (skip line) as [|c r]; [reflexivity|].
    cbn [next] in Hpre |- *.
    assert (Hc : String c r = String c pre ++ skip_dirchars r)
      by (cbn [append]; rewrite <- Hpre; reflexivity).
    rewrite Hc at 2. rewrite upto_append. exact Hc. }
  exists (upto (skip line) (skip_dirchars (next (skip line)))).
  split; [exact Hl|].
  unfold directive_name. rewrite Hn. reflexivity.
Qed.

End TableProperties.

Section DecimalLength.

Lemma length_string_of_uint (d : Decimal.uint) :
  String.length (NilEmpty.string_of_uint d) = Decimal.nb_digits d.
Proof. induction d; cbn; congruence. Qed.

Lemma length_string_of_unorm (d : Decimal.uint) :
  d <> Decimal.Nil ->
  (String.length (NilZero.string_of_uint (Decimal.unorm d))
   <= Decimal.nb_digits d)%nat.
Proof.
  intro Hd. pose proof (DecimalFacts.nb_digits_unorm d Hd) as Hn.
  unfold NilZero.string_of_uint.
  destruct (Decimal.unorm d) eqn:E;
    try (rewrite length_string_of_uint; exact Hn).
  cbn in Hn |- *. destruct d; cbn in *; try lia. congruence.
Qed.

(** One more digit at the low end of a number written with the lowest
    digit first. *)
Lemma one_more_digit (a : N) (d : Decimal.uint) :
  (a < 10)%N ->
  exists d' : Decimal.uint,
    DecimalPos.Unsigned.of_lu d' = (a + 10 * DecimalPos.Unsigned.of_lu d)%N
    /\ Decimal.nb_digits d' = S (Decimal.nb_digits d).
Proof.
  intro Ha.
  assert (H : (a = 0 \/ a = 1 \/ a = 2 \/ a = 3 \/ a = 4 \/ a = 5
               \/ a = 6 \/ a = 7 \/ a = 8 \/ a = 9)%N) by lia.
  destruct H
    as [ -> | [ -> | [ -> | [ -> | [ -> | [ -> | [ -> | [ -> | [ -> | -> ]
       ] ] ] ] ] ] ] ];
    [ exists (Decimal.D0 d) | exists (Decimal.D1 d) | exists (Decimal.D2 d)
    | exists (Decimal.D3 d) | exists (Decimal.D4 d) | exists (Decimal.D5 d)
    | exists (Decimal.D6 d) | exists (Decimal.D7 d) | exists (Decimal.D8 d)
    | exists (Decimal.D9 d) ];
    split; reflexivity.
Qed.

Lemma six_digits (m : N) :
  (m < 1000000)%N ->
  exists lu : Decimal.uint,
    DecimalPos.Unsigned.of_lu lu = m /\ Decimal.nb_digits lu = 6%nat.
Proof.
  intro Hm.
  remember (m / 10)%N as q1 eqn:Q1. remember (q1 / 10)%N as q2 eqn:Q2.
  remember (q2 / 10)%N as q3 eqn:Q3. remember (q3 / 10)%N as q4 eqn:Q4.
  remember (q4 / 10)%N as q5 eqn:Q5.
  pose proof (N.div_mod' m 10) as E0. pose proof (N.div_mod' q1 10) as E1.
  pose proof (N.div_mod' q2 10) as E2. pose proof (N.div_mod' q3 10) as E3.
  pose proof (N.div_mod' q4 10) as E4.
  rewrite <- Q1 in E0. rewrite <- Q2 in E1. rewrite <- Q3 in E2.
  rewrite <- Q4 in E3. rewrite <- Q5 in E4.
  pose proof (N.mod_lt m 10 ltac:(discriminate)) as L0.
  pose proof (N.mod_lt q1 10 ltac:(discriminate)) as L1.
  pose proof (N.mod_lt q2 10 ltac:(discriminate)) as L2.
  pose proof (N.mod_lt q3 10 ltac:(discriminate)) as L3.
  pose proof (N.mod_lt q4 10 ltac:(discriminate)) as L4.
  clear Q1 Q2 Q3 Q4 Q5.
  generalize dependent (m mod 10)%N. intros r0 E0 L0.
  generalize dependent (q1 mod 10)%N. intros r1 E1 L1.
  generalize dependent (q2 mod 10)%N. intros r2 E2 L2.
  generalize dependent (q3 mod 10)%N. intros r3 E3 L3.
  generalize dependent (q4 mod 10)%N. intros r4 E4 L4.
  assert (L5 : (q5 < 10)%N) by lia.
  destruct (one_more_digit q5 Decimal.Nil L5) as (d5 & V5 & N5).
  destruct (one_more_digit r4 d5 L4) as (d4 & V4 & N4).
  destruct (one_more_digit r3 d4 L3) as (d3 & V3 & N3).
  destruct (one_more_digit r2 d3 L2) as (d2 & V2 & N2).
  destruct (one_more_digit r1 d2 L1) as (d1 & V1 & N1).
  destruct (one_more_digit r0 d1 L0) as (d0 & V0 & N0).
  exists d0. split; [|cbn in *; lia].
  cbn [DecimalPos.Unsigned.of_lu] in V5. lia.
Qed.

Lemma decimal_of_six_digits (n : Z) :
  0 <= n <= 999999 -> (String.length (decimal n) <= 6)%nat.
Proof.
  intro Hn. unfold decimal.
  destruct (six_digits (Z.to_N n) ltac:(lia)) as (lu & Hv & Hd).
  rewrite <- Hv, <- DecimalPos.Unsigned.of_lu_rev.
  change (Pos.of_uint (Decimal.rev lu)) with (N.of_uint (Decimal.rev lu)).
  rewrite DecimalN.Unsigned.to_of.
  assert (Hnil : Decimal.rev lu <> Decimal.Nil).
  { intro E. pose proof (DecimalFacts.nb_digits_rev lu) as Hr.
    rewrite E in Hr. cbn in Hr. lia. }
  pose proof (length_string_of_unorm (Decimal.rev lu) Hnil) as Hl.
  rewrite DecimalFacts.nb_digits_rev in Hl. lia.
Qed.

Lemma length_zeros (n : nat) : String.length (zeros n) = n.
Proof. induction n as [|n IH]; cbn; [reflexivity|]. rewrite IH. reflexivity. Qed.

(** The name of a block fits [inl_lab_name] for the first million ids. *)
Lemma name_fits_below_a_million (id : Z) :
  0 <= id <= 999999 -> name_fits id = true.
Proof.
  intro Hid. pose proof (decimal_of_six_digits id Hid) as Hl.
  unfold name_fits, inl_lab_name, printf_06d, len.
  assert (E : (id <? 0) = false) by (apply Z.ltb_ge; lia). rewrite E.
  cbn [String.length]. rewrite length_append, length_zeros.
  apply Z.leb_le. lia.
Qed.

End DecimalLength.

Section ModuleProperties.

Variable G : Type.
Variable set_last_global_label : option string -> G -> option string * G.
Variable last_global_label : G -> option string.

Hypothesis set_returns_the_old_label : forall l g,
  fst (set_last_global_label l g) = last_global_label g.
Hypothesis set_stores_the_label : forall l g,
  last_global_label (snd (set_last_global_label l g)) = l.

Lemma length_store_at (a : list Z) (i : nat) (v : Z) :
  List.length (store_at a i v) = List.length a.
Proof.
  revert i. induction a as [|x a IH]; intros [|i]; cbn; auto.
Qed.

Lemma nth_store_at_same (a : list Z) (i : nat) (v : Z) :
  (i < List.length a)%nat -> nth i (store_at a i v) 0 = v.
Proof.
  revert i. induction a as [|x a IH]; intros [|i] H; cbn in *;
    try lia; auto. apply IH. lia.
Qed.

Lemma nth_store_at_other (a : list Z) (i j : nat) (v : Z) :
  i <> j -> nth j (store_at a i v) 0 = nth j a 0.
Proof.
  revert i j. induction a as [|x a IH]; intros [|i] [|j] H; cbn;
    try reflexivity; try congruence. apply IH. congruence.
Qed.

(** Below a million ids nothing is undefined, and the open blocks hold
    ids that were given out. *)
Lemma handle_module_stays_defined (st : inl G) :
  inl_ok st -> ids_given st -> module_id st < 1000000 ->
  inl_ok (handle_module set_last_global_label st)
  /\ ids_given (handle_module set_last_global_label st).
Proof.
  intros (Hr & Hlen & Hu) (Hid & Hin) Hm.
  unfold handle_module, inl_ok, ids_given in *.
  destruct (inline_stack_index st <? INLSTACKSIZE) eqn:E;
    cbn [inline_stack inline_stack_index saved_last_global_label module_id glob reported undefined].
  - apply Z.ltb_lt in E. rewrite length_store_at.
    rewrite Hu, (name_fits_below_a_million (module_id st)) by lia.
    assert (Hmax : (INT_MAX <=? module_id st) = false)
      by (apply Z.leb_gt; unfold INT_MAX; cbn; lia).
    rewrite Hmax. cbn [orb negb].
    split; [split; [lia|split; [exact Hlen|reflexivity]]|].
    split; [lia|]. intros j Hj. unfold elt.
    destruct (Z.eq_dec j (inline_stack_index st)) as [ -> |Hne].
    + rewrite nth_store_at_same; [lia|].
      rewrite Hlen. unfold INLSTACKSIZE in *. lia.
    + rewrite nth_store_at_other by lia.
      specialize (Hin j ltac:(lia)). unfold elt in Hin. lia.
  - split; [split; [lia|split; assumption]|]. split; assumption.
Qed.

Lemma handle_endmodule_stays_defined (st : inl G) :
  inl_ok st -> ids_given st -> module_id st <= 1000000 ->
  inl_ok (handle_endmodule set_last_global_label st)
  /\ ids_given (handle_endmodule set_last_global_label st).
Proof.
  intros (Hr & Hlen & Hu) (Hid & Hin) Hm.
  unfold handle_endmodule, inl_ok, ids_given in *.
  destruct (inline_stack_index st >? 0) eqn:E;
    cbn [inline_stack inline_stack_index saved_last_global_label module_id glob reported undefined].
  - apply Z.gtb_lt in E.
    destruct (inline_stack_index st - 1 =? 0) eqn:E0;
      cbn [inline_stack inline_stack_index saved_last_global_label module_id glob reported undefined].
    + apply Z.eqb_eq in E0.
      split; [split; [lia|split; assumption]|].
      split; [exact Hid|]. intros j Hj. lia.
    + apply Z.eqb_neq in E0.
      pose proof (Hin (inline_stack_index st - 1 - 1) ltac:(lia)) as Hj.
      rewrite Hu, (name_fits_below_a_million
                   (elt (inline_stack st) (inline_stack_index st - 1 - 1)))
        by lia.
      cbn [orb negb].
      split; [split; [lia|split; [exact Hlen|reflexivity]]|].
      split; [exact Hid|]. intros j Hj'. apply Hin. lia.
  - split; [split; [lia|split; assumption]|]. split; assumption.
Qed.

Lemma handle_module_keeps_block_label (before : option string)
    (st : inl G) :
  inl_ok st ->
  block_label last_global_label before st ->
  block_label last_global_label before
    (handle_module set_last_global_label st).
Proof.
  intros (Hr & Hlen & _) (H0 & Hpos).
  unfold handle_module, block_label in *.
  destruct (inline_stack_index st <? INLSTACKSIZE) eqn:E; cbn.
  - apply Z.ltb_lt in E. split; [intro; lia|]. intros _. split.
    + destruct (inline_stack_index st =? 0) eqn:E0.
      * apply Z.eqb_eq in E0. rewrite set_returns_the_old_label. auto.
      * apply Z.eqb_neq in E0. apply Hpos. lia.
    + rewrite set_stores_the_label. unfold elt.
      replace (inline_stack_index st + 1 - 1) with (inline_stack_index st)
        by lia.
      rewrite nth_store_at_same; [reflexivity|].
      rewrite Hlen. unfold INLSTACKSIZE in *. lia.
  - split; assumption.
Qed.

Lemma handle_endmodule_keeps_block_label (before : option string)
    (st : inl G) :
  inl_ok st ->
  block_label last_global_label before st ->
  block_label last_global_label before
    (handle_endmodule set_last_global_label st).
Proof.
  intros (Hr & Hlen & _) (H0 & Hpos).
  unfold handle_endmodule, block_label in *.
  destruct (inline_stack_index st >? 0) eqn:E; cbn.
  - apply Z.gtb_lt in E. destruct (Hpos ltac:(lia)) as [Hs Hl].
    destruct (inline_stack_index st - 1 =? 0) eqn:E0; cbn.
    + apply Z.eqb_eq in E0. split; [|intro; lia].
      intros _. rewrite set_stores_the_label. exact Hs.
    + apply Z.eqb_neq in E0. split; [intro; lia|]. intros _.
      split; [exact Hs|]. rewrite set_stores_the_label. reflexivity.
  - split; assumption.
Qed.

(** X14.  [module] and [modend] keep the last global label in step with
    the open blocks, however they nest and whichever of them are refused,
    as long as the ids stay below a million, where the name of a block
    fits [inl_lab_name]: nothing undefined happens, the depth stays
    between 0 and [INLSTACKSIZE], inside a block the label is the name
    made of the id of the innermost open block, and once every block is
    closed it is again the label from before the first [module]. *)
Theorem modules_restore_the_global_label
    (ops : list bool) (before : option string) (st : inl G) :
  inl_ok st ->
  inline_stack_index st = 0 ->
  0 <= module_id st ->
  module_id st + Z.of_nat (List.length ops) <= 1000000 ->
  last_global_label (glob st) = before ->
  let st' := run_modules set_last_global_label ops st in
  undefined st' = false
  /\ 0 <= inline_stack_index st' <= INLSTACKSIZE
  /\ (inline_stack_index st' = 0 ->
      last_global_label (glob st') = before)
  /\ (inline_stack_index st' > 0 ->
      last_global_label (glob st')
      = Some (inl_lab_name
                (elt (inline_stack st') (inline_stack_index st' - 1)))).
Proof.
  intros Hok Hzero Hid Hbudget Hlast.
  assert (Hg : ids_given st) by (split; [exact Hid|intros j Hj; lia]).
  assert (Hb : block_label last_global_label before st).
  { split; [auto|lia]. }
  clear Hzero Hlast Hid. revert st Hok Hg Hb Hbudget.
  induction ops as [|[] ops IH]; intros st Hok Hg Hb Hbudget;
    cbn [run_modules List.length] in *.
  - destruct Hok as (Hr & _ & Hu). destruct Hb as (H0 & Hpos).
    split; [exact Hu|]. split; [exact Hr|]. split; [exact H0|].
    intro H. apply Hpos, H.
  - destruct (handle_module_stays_defined st Hok Hg ltac:(lia))
      as [Hok' Hg'].
    apply IH; [exact Hok' | exact Hg'
              | apply handle_module_keeps_block_label; assumption |].
    assert (module_id (handle_module set_last_global_label st)
            <= module_id st + 1).
    { unfold handle_module.
      destruct (inline_stack_index st <? INLSTACKSIZE); cbn; lia. }
    lia.
  - destruct (handle_endmodule_stays_defined st Hok Hg
                ltac:(destruct Hg; lia)) as [Hok' Hg'].
    apply IH; [exact Hok' | exact Hg'
              | apply handle_endmodule_keeps_block_label; assumption |].
    assert (module_id (handle_endmodule set_last_global_label st)
            = module_id st).
    { unfold handle_endmodule.
      destruct (inline_stack_index st >? 0); [|reflexivity].
      destruct (inline_stack_index st - 1 =? 0); reflexivity. }
    lia.
Qed.

Lemma handle_module_keeps_fresh_ids (st : inl G) :
  inl_ok st -> fresh_ids st ->
  fresh_ids (handle_module set_last_global_label st).
Proof.
  intros (Hr & Hlen & _) Hf.
  unfold handle_module, fresh_ids in *.
  destruct (inline_stack_index st <? INLSTACKSIZE) eqn:E; cbn.
  - apply Z.ltb_lt in E.
    intros i j Hi Hij Hj. unfold elt.
    assert (Hn : i <> inline_stack_index st ->
                 nth (Z.to_nat i)
                   (store_at (inline_stack st)
                      (Z.to_nat (inline_stack_index st)) (module_id st)) 0
                 = elt (inline_stack st) i).
    { intro. apply nth_store_at_other. lia. }
    destruct (j =? inline_stack_index st + 1) eqn:Ej.
    + apply Z.eqb_eq in Ej.
      destruct (Z.eq_dec i (inline_stack_index st)) as [ -> |Hne].
      * rewrite nth_store_at_same; [lia|].
        rewrite Hlen. unfold INLSTACKSIZE in *. lia.
      * rewrite Hn by exact Hne.
        specialize (Hf i (inline_stack_index st) Hi ltac:(lia) ltac:(lia)).
        rewrite Z.eqb_refl in Hf. lia.
    + apply Z.eqb_neq in Ej. rewrite Hn by lia.
      destruct (Z.eq_dec j (inline_stack_index st)) as [ -> |Hne].
      * rewrite nth_store_at_same;
          [|rewrite Hlen; unfold INLSTACKSIZE in *; lia].
        specialize (Hf i (inline_stack_index st) Hi Hij ltac:(lia)).
        rewrite Z.eqb_refl in Hf. exact Hf.
      * rewrite nth_store_at_other by lia.
        specialize (Hf i j Hi Hij ltac:(lia)).
        apply Z.eqb_neq in Hne. rewrite Hne in Hf. exact Hf.
  - exact Hf.
Qed.

Lemma handle_endmodule_keeps_fresh_ids (st : inl G) :
  inl_ok st -> fresh_ids st ->
  fresh_ids (handle_endmodule set_last_global_label st).
Proof.
  intros (Hr & Hlen & _) Hf.
  assert (Hstep : forall i j, 0 <= i -> i < j ->
            j <= inline_stack_index st - 1 ->
            elt (inline_stack st) i
            < (if j =? inline_stack_index st - 1 then module_id st
               else elt (inline_stack st) j)).
  { intros i j Hi Hij Hj.
    destruct (j =? inline_stack_index st - 1) eqn:Ej.
    - apply Z.eqb_eq in Ej.
      specialize (Hf i (inline_stack_index st) Hi ltac:(lia) ltac:(lia)).
      rewrite Z.eqb_refl in Hf. exact Hf.
    - apply Z.eqb_neq in Ej.
      specialize (Hf i j Hi Hij ltac:(lia)).
      destruct (j =? inline_stack_index st) eqn:Ej'; [|exact Hf].
      apply Z.eqb_eq in Ej'. lia. }
  unfold handle_endmodule, fresh_ids in *.
  destruct (inline_stack_index st >? 0) eqn:E; cbn.
  - destruct (inline_stack_index st - 1 =? 0) eqn:E0; cbn; exact Hstep.
  - exact Hf.
Qed.

(** X15.  Every block gets an id of its own: after any run of [module]
    and [modend] that stays below a million ids, so that no name overruns
    [inl_lab_name] and the counter stays an [int], nothing undefined has
    happened, the ids of the open blocks grow strictly from the outermost
    to the innermost one, and all are below the id the next [module] will
    take: no two open blocks share the name that isolates their local
    labels. *)
Theorem open_modules_have_growing_ids
    (ops : list bool) (st : inl G) (i j : Z) :
  inl_ok st ->
  inline_stack_index st = 0 ->
  0 <= module_id st ->
  module_id st + Z.of_nat (List.length ops) <= 1000000 ->
  let st' := run_modules set_last_global_label ops st in
  0 <= i -> i < j -> j < inline_stack_index st' ->
  undefined st' = false
  /\ elt (inline_stack st') i < elt (inline_stack st') j
  /\ elt (inline_stack st') j < module_id st'.
Proof.
  intros Hok Hzero Hid Hbudget.
  assert (Hg : ids_given st) by (split; [exact Hid|intros k Hk; lia]).
  assert (Hf : fresh_ids st).
  { intros a b Ha Hab Hb. lia. }
  clear Hzero Hid. revert st Hok Hg Hf Hbudget.
  induction ops as [|[] ops IH]; intros st Hok Hg Hf Hbudget;
    cbn [run_modules List.length] in *.
  - intros Hi Hij Hj. split; [apply Hok|]. split.
    + specialize (Hf i j Hi Hij ltac:(lia)).
      destruct (j =? inline_stack_index st) eqn:E; [|exact Hf].
      apply Z.eqb_eq in E. lia.
    + specialize (Hf j (inline_stack_index st) ltac:(lia) Hj ltac:(lia)).
      rewrite Z.eqb_refl in Hf. exact Hf.
  - destruct (handle_module_stays_defined st Hok Hg ltac:(lia))
      as [Hok' Hg'].
    apply IH; [exact Hok' | exact Hg'
              | apply handle_module_keeps_fresh_ids; assumption |].
    assert (module_id (handle_module set_last_global_label st)
            <= module_id st + 1).
    { unfold handle_module.
      destruct (inline_stack_index st <? INLSTACKSIZE); cbn; lia. }
    lia.
  - destruct (handle_endmodule_stays_defined st Hok Hg
                ltac:(destruct Hg; lia)) as [Hok' Hg'].
    apply IH; [exact Hok' | exact Hg'
              | apply handle_endmodule_keeps_fresh_ids; assumption |].
    assert (module_id (handle_endmodule set_last_global_label st)
            = module_id st).
    { unfold handle_endmodule.
      destruct (inline_stack_index st >? 0); [|reflexivity].
      destruct (inline_stack_index st - 1 =? 0); reflexivity. }
    lia.
Qed.

End ModuleProperties.

Section ConditionalProperties.
Context {CFG : Config} {TY : Types} {CORE : Core}.

Ltac run :=
  unfold ask, act, bind, log, look, set_core, set_parse_end, get_parse_end,
    get_anon_labno, set_anon_labno, syntax_error, general_error, ret; cbn.

(** X16.  The comparisons of the conditional directives come in opposite
    pairs, [ifeq] and [ifne], [ifgt] and [ifle], [ifge] and [iflt]: on the
    same text and state the two of a pair make the same calls and stop at
    the same position, and with a constant guard one is true where the
    other is false.  With a guard that is not constant both are false, and
    the error 30 is reported. *)
Theorem opposite_guards (s : string) (c : Z) (w : world) :
  c = 0 \/ c = 2 \/ c = 4 ->
  let pe := core_parse_expr_tmplab s (core w) in
  exists (b b' : bool) (w' : world),
    eval_ifexp s c w = (Some (b, snd (fst pe)), w')
    /\ eval_ifexp s (opposite c) w = (Some (b', snd (fst pe)), w')
    /\ match core_eval_expr (fst (fst pe)) (snd pe) with
       | Some _ => b' = negb b
       | None =>
           b = false /\ b' = false
           /\ In (E_general_error 30 []) (trace w')
       end.
Proof.
  intros Hc. cbv zeta.
  unfold eval_ifexp, parse_expr_tmplab, eval_expr, free_expr.
  destruct (core_parse_expr_tmplab s (core w)) as [[e rest] k] eqn:Epe.
  destruct Hc as [ -> | [ -> | -> ] ]; unfold opposite; cbn [Z.eqb];
    run; rewrite Epe; cbn;
    destruct (core_eval_expr e k) as [val|]; cbn;
    eexists _, _, _; (split; [reflexivity|]); (split; [reflexivity|]).
  - reflexivity.
  - repeat split. cbn. rewrite !in_app_iff. cbn. auto 10.
  - rewrite Z.gtb_ltb, (Z.leb_antisym 0 val). reflexivity.
  - repeat split. cbn. rewrite !in_app_iff. cbn. auto 10.
  - rewrite Z.geb_leb, (Z.ltb_antisym 0 val), negb_involutive. reflexivity.
  - repeat split. cbn. rewrite !in_app_iff. cbn. auto 10.
Qed.

Lemma advance_append (pre rest : string) :
  advance (String.length pre) (pre ++ rest) = rest.
Proof. induction pre as [|c pre IH]; cbn; [reflexivity|exact IH]. Qed.

Lemma advance_all (s : string) : advance (String.length s) s = EmptyString.
Proof. induction s as [|c s IH]; cbn; [reflexivity|exact IH]. Qed.

Lemma dist_append (pre rest : string) :
  dist (pre ++ rest) rest = Z.of_nat (String.length pre).
Proof. unfold dist. rewrite length_append. lia. Qed.

(** X17.  [iif]: a line that does not start with [iif] and white space is
    returned as it is, and nothing happens.  On one that does, the guard
    behind the white space is evaluated as that of [ifne]; when it is
    false nothing of the line is left, and when it is true the line goes
    on behind the expression and the white space that follows it,
    provided the expression parser stops inside the text it was given. *)
Theorem iif_keeps_the_statement_or_nothing
    (line pre : string) (w : world) :
  let found := strnicmp_eq line "iif" 3 && isspace (at_ 3 line) in
  let p := skip (advance 3 line) in
  let g := guard_of p (core w) in
  let rest := snd (fst (core_parse_expr_tmplab p (core w))) in
  (found = false -> handle_iif line w = (Some line, w))
  /\ (found = true ->
      p = pre ++ rest ->
      handle_iif line w
      = (Some (if snd (fst g) then skip rest else EmptyString),
         after w (fst (fst g)) (snd g))).
Proof.
  cbv zeta. unfold handle_iif. split; intro Hf; rewrite Hf; [reflexivity|].
  intro Hp. unfold bind at 1. rewrite eval_ifexp_guard.
  cbn [fst snd].
  destruct (snd (fst (guard_of (skip (advance 3 line)) (core w)))).
  - unfold ret. f_equal. f_equal. f_equal.
    remember (snd (fst (core_parse_expr_tmplab (skip (advance 3 line))
                          (core w)))) as rest.
    rewrite Hp, dist_append, Nat2Z.id.
    apply advance_append.
  - unfold ret. rewrite advance_all. reflexivity.
Qed.

Lemma ifdef_opens_one_block (s : string) (b : bool) (w : world) :
  exists (pre : list event) (last : event) (k : K),
    ifdef s b w = (Some tt, after w (pre ++ [last]) k)
    /\ forallb (fun e => negb (stack_event e)) pre = true
    /\ ((exists flag, last = E_cond_if flag)
        \/ (exists n, last = E_syntax_error n [] /\ (n = 10 \/ n = 5))).
Proof.
  unfold ifdef, parse_symbol, find_symbol, sym_type, cond_if. run.
  destruct (core_parse_symbol _ s (core w)) as [[name rest]|]; cbn.
  - destruct (core_find_symbol name (core w)) as [y|]; cbn;
      eexists [], (E_cond_if _), _;
      (split; [reflexivity|]); (split; [reflexivity|]);
      left; eexists; reflexivity.
  - eexists [], (E_syntax_error 10 []), (core w).
    split; [reflexivity|]. split; [reflexivity|].
    right. exists 10. auto.
Qed.

Lemma ifmacro_opens_one_block (s : string) (b : bool) (w : world) :
  exists (pre : list event) (last : event) (k : K),
    ifmacro s b w = (Some tt, after w (pre ++ [last]) k)
    /\ forallb (fun e => negb (stack_event e)) pre = true
    /\ ((exists flag, last = E_cond_if flag)
        \/ (exists n, last = E_syntax_error n [] /\ (n = 10 \/ n = 5))).
Proof.
  unfold ifmacro, find_macro, cond_if.
  destruct (skip_identifier s) as [e|]; run.
  - eexists [], (E_cond_if _), _.
    split; [reflexivity|]. split; [reflexivity|].
    left; eexists; reflexivity.
  - eexists [], (E_syntax_error 10 []), (core w).
    split; [reflexivity|]. split; [reflexivity|].
    right. exists 10. auto.
Qed.

Lemma ifc_opens_one_block (s : string) (b : bool) (w : world) :
  exists (pre : list event) (last : event) (k : K),
    ifc s b w = (Some tt, after w (pre ++ [last]) k)
    /\ forallb (fun e => negb (stack_event e)) pre = true
    /\ ((exists flag, last = E_cond_if flag)
        \/ (exists n, last = E_syntax_error n [] /\ (n = 10 \/ n = 5))).
Proof.
  unfold ifc, parse_name, cond_if. run.
  destruct (core_parse_name 0 s (core w)) as [[[str1 s1]|] k1]; cbn.
  - destruct (ceq (peek s1) ","); cbn.
    + destruct (core_parse_name 1 (skip (next s1)) k1)
        as [[[str2 s2]|] k2]; cbn.
      * eexists [E_parse_name s; E_parse_name (skip (next s1))],
          (E_cond_if _), _.
        unfold after, log. cbn. rewrite <- !app_assoc. cbn.
        split; [reflexivity|]. split; [reflexivity|].
        left; eexists; reflexivity.
      * eexists [E_parse_name s; E_parse_name (skip (next s1))],
          (E_syntax_error 5 []), k2.
        unfold after, log. cbn. rewrite <- !app_assoc. cbn.
        split; [reflexivity|]. split; [reflexivity|].
        right. exists 5. auto.
    + eexists [E_parse_name s], (E_syntax_error 5 []), k1.
      unfold after, log. cbn. rewrite <- !app_assoc. cbn.
      split; [reflexivity|]. split; [reflexivity|].
      right. exists 5. auto.
  - eexists [E_parse_name s], (E_syntax_error 5 []), k1.
    unfold after, log. cbn. rewrite <- !app_assoc. cbn.
    split; [reflexivity|]. split; [reflexivity|].
    right. exists 5. auto.
Qed.

Lemma ifexp_opens_one_block (s : string) (c : Z) (w : world) :
  0 <= c <= 5 ->
  exists (pre : list event) (last : event) (k : K),
    ifexp s c w = (Some tt, after w (pre ++ [last]) k)
    /\ forallb (fun e => negb (stack_event e)) pre = true
    /\ ((exists flag, last = E_cond_if flag)
        \/ (exists n, last = E_syntax_error n [] /\ (n = 10 \/ n = 5))).
Proof.
  intro Hc.
  assert (Hcases : c = 0 \/ c = 1 \/ c = 2 \/ c = 3 \/ c = 4 \/ c = 5)
    by lia.
  unfold ifexp, eval_ifexp, parse_expr_tmplab, eval_expr, free_expr, cond_if.
  destruct (core_parse_expr_tmplab s (core w)) as [[e rest] k] eqn:Epe.
  destruct Hcases as [ -> | [ -> | [ -> | [ -> | [ -> | -> ] ] ] ] ];
    cbn [Z.eqb]; run; rewrite Epe; cbn;
    (destruct (core_eval_expr e k) as [val|]; cbn;
     [ eexists [E_parse_expr_tmplab s; E_eval_expr e; E_free_expr e],
         (E_cond_if _), _
     | eexists [E_parse_expr_tmplab s; E_eval_expr e; E_general_error 30 [];
               E_free_expr e], (E_cond_if _), _ ]);
    unfold after, log; cbn; rewrite <- !app_assoc; cbn;
    (split; [reflexivity|]); (split; [reflexivity|]);
    left; eexists; reflexivity.
Qed.

(** X18.  A handler of a conditional directive moves the stack of the
    conditional blocks once at most: it returns, and the last thing it
    does is either to open one block with [cond_if] or to report a syntax
    error ([identifier expected] or [missing operand]), in which case no
    block is open for the [endif] that follows.  Before that it makes no
    call that moves the stack. *)
Theorem conditional_handler_opens_one_block_or_none
    (f : handler) (s : string) (w : world) :
  opens_block f = true ->
  exists (pre : list event) (last : event) (k : K),
    call_handler f s w = (Some tt, after w (pre ++ [last]) k)
    /\ forallb (fun e => negb (stack_event e)) pre = true
    /\ ((exists flag, last = E_cond_if flag)
        \/ (exists n, last = E_syntax_error n [] /\ (n = 10 \/ n = 5))).
Proof.
  intro Hf. destruct f; try discriminate Hf; cbn [call_handler].
  - apply ifdef_opens_one_block.
  - apply ifdef_opens_one_block.
  - apply ifmacro_opens_one_block.
  - apply ifmacro_opens_one_block.
  - unfold handle_ifnb, cond_if. eexists [], (E_cond_if _), _.
    split; [reflexivity|]. split; [reflexivity|]. left; eexists; reflexivity.
  - unfold handle_ifb, cond_if. eexists [], (E_cond_if _), _.
    split; [reflexivity|]. split; [reflexivity|]. left; eexists; reflexivity.
  - apply ifc_opens_one_block.
  - apply ifc_opens_one_block.
  - apply ifexp_opens_one_block; lia.
  - apply ifexp_opens_one_block; lia.
  - apply ifexp_opens_one_block; lia.
  - apply ifexp_opens_one_block; lia.
  - apply ifexp_opens_one_block; lia.
  - apply ifexp_opens_one_block; lia.
Qed.

End ConditionalProperties.

Section StatementProperties.
Context {CFG : Config} {TY : Types} {CORE : Core}.

Ltac run :=
  unfold ask, act, bind, log, look, set_core, set_parse_end, get_parse_end,
    get_anon_labno, set_anon_labno, syntax_error, general_error, ret; cbn.

Lemma eol_returns_and_keeps_parse_end (s : string) (w : world) :
  exists w', eol s w = (Some tt, w') /\ parse_end w' = parse_end w.
Proof.
  unfold eol.
  destruct allow_spaces.
  - destruct (negb (ISEOL (skip s))); run; eexists; split; reflexivity.
  - destruct (negb (ISEOL s) && negb (isspace (peek s))); run;
      eexists; split; reflexivity.
Qed.

(** X19.  [inform] returns, and ends the assembly only for a fatal
    message: [parse_end] is set when the severity is 3, a comma follows
    it and a text follows the comma; after any other [inform], a
    malformed one included, it is as it was. *)
Theorem inform_stops_only_when_fatal (s : string) (w : world) :
  let pc := core_parse_constexpr s (core w) in
  let s1 := skip (snd (fst pc)) in
  let txt := fst (core_parse_name 0 (skip (next s1)) (snd pc)) in
  exists w',
    handle_inform s w = (Some tt, w')
    /\ parse_end w'
       = parse_end w
         || ((int_of (fst (fst pc)) =? 3) && ceq (peek s1) ","
             && match txt with Some _ => true | None => false end).
Proof.
  cbv zeta. unfold handle_inform, parse_constexpr, parse_name.
  unfold bind at 1. rewrite ask_step.
  destruct (core_parse_constexpr s (core w)) as [[v rest] k1]. cbn [fst snd].
  destruct (ceq (peek (skip rest)) ",") eqn:Ec; cbn [negb].
  - unfold bind at 1. rewrite ask_step. cbn [core after].
    destruct (core_parse_name 0 (skip (next (skip rest))) k1)
      as [[[t s2]|] k2]; cbn [fst snd].
    + destruct (int_of v =? 0) eqn:E0;
        [|destruct (int_of v =? 1) eqn:E1;
          [|destruct (int_of v =? 2) eqn:E2;
            [|destruct (int_of v =? 3) eqn:E3]]];
        unfold bind at 1; run;
        match goal with
        | |- context [eol ?p ?x] =>
            destruct (eol_returns_and_keeps_parse_end p x) as (w' & E & P);
            rewrite E; exists w'; split; [reflexivity|];
            rewrite P; cbn
        end;
        try (apply Z.eqb_eq in E0; rewrite E0);
        try (apply Z.eqb_eq in E1; rewrite E1);
        try (apply Z.eqb_eq in E2; rewrite E2);
        cbn; rewrite ?andb_false_r, ?orb_false_r, ?orb_true_r; reflexivity.
    + match goal with
      | |- context [eol ?p ?x] =>
          destruct (eol_returns_and_keeps_parse_end p x) as (w' & E & P);
          rewrite E; exists w'; split; [reflexivity|];
          rewrite P; cbn
      end.
      rewrite ?andb_false_r, ?orb_false_r. reflexivity.
  - run. eexists. split; [reflexivity|]. cbn.
    rewrite ?andb_false_r, ?orb_false_r. reflexivity.
Qed.

Lemma rtrim_splits (t : string) :
  exists sp : string,
    t = rtrim t ++ sp
    /\ forallb isspace (list_ascii_of_string sp) = true.
Proof.
  induction t as [|c r (sp & Hr & Hsp)].
  - exists EmptyString. split; reflexivity.
  - cbn [rtrim]. destruct (rtrim r) as [|c' r'] eqn:E.
    + cbn in Hr. subst sp. destruct (isspace c) eqn:Ec.
      * exists (String c r). split; [reflexivity|]. cbn. rewrite Ec. exact Hsp.
      * exists r. split; [reflexivity|exact Hsp].
    + exists sp. split; [|exact Hsp]. cbn [append]. rewrite Hr at 1.
      reflexivity.
Qed.

Lemma rtrim_ends_in_text (t : string) :
  rtrim t <> EmptyString ->
  isspace (at_ (String.length (rtrim t) - 1) (rtrim t)) = false.
Proof.
  induction t as [|c r IH]; [intro H; exfalso; apply H; reflexivity|].
  cbn [rtrim]. destruct (rtrim r) as [|c' r'] eqn:E.
  - destruct (isspace c) eqn:Ec; [intro H; exfalso; apply H; reflexivity|].
    intros _. exact Ec.
  - intros _. specialize (IH ltac:(discriminate)).
    replace (String.length (String c (String c' r')) - 1)%nat
      with (S (String.length (String c' r') - 1)) by (cbn; lia).
    exact IH.
Qed.

Lemma at_append (i : nat) (a b : string) :
  (i < String.length a)%nat -> at_ i (a ++ b) = at_ i a.
Proof.
  revert a. induction i as [|i IH]; intros [|c a] H; cbn in H; try lia.
  - reflexivity.
  - unfold at_ in *. cbn. apply IH. lia.
Qed.

Lemma rtrim_idempotent (t : string) : rtrim (rtrim t) = rtrim t.
Proof.
  induction t as [|c r IH]; [reflexivity|].
  cbn [rtrim]. destruct (rtrim r) as [|c' r'] eqn:E.
  - destruct (isspace c) eqn:Ec; [reflexivity|]. cbn. rewrite Ec. reflexivity.
  - cbn [rtrim] in IH |- *. rewrite IH. reflexivity.
Qed.

Lemma take_append (a b : string) : take (String.length a) (a ++ b) = a.
Proof. induction a as [|c a IH]; cbn; [destruct b; reflexivity|]. rewrite IH. reflexivity. Qed.

Lemma advance_nil (n : nat) : advance n EmptyString = EmptyString.
Proof. induction n as [|n IH]; cbn; [reflexivity|exact IH]. Qed.

Lemma take_advance (n : nat) (s : string) : take n s ++ advance n s = s.
Proof.
  revert s. induction n as [|n IH]; intros [|c r]; cbn; try reflexivity.
  - rewrite advance_nil. reflexivity.
  - rewrite IH. reflexivity.
Qed.

(** X20.  [oplen] gives the length of an operand without the white space
    at its end: for the text [t] between the two positions, the result is
    between 0 and the length of [t], the characters of [t] from there on
    are all white space, and the one before, if there is one, is not. *)
Theorem oplen_drops_trailing_space (t e : string) :
  let n := oplen e (t ++ e) in
  0 <= n <= len t
  /\ (exists sp : string,
         t = take (Z.to_nat n) t ++ sp
         /\ forallb isspace (list_ascii_of_string sp) = true)
  /\ (0 < n -> isspace (at_ (Z.to_nat n - 1) t) = false).
Proof.
  cbv zeta. unfold oplen. rewrite upto_append.
  destruct (rtrim_splits t) as (sp & Ht & Hsp).
  unfold len. rewrite Nat2Z.id.
  assert (Hlen : String.length t
                 = (String.length (rtrim t) + String.length sp)%nat).
  { rewrite Ht at 1. apply length_append. }
  split; [lia|]. split.
  - exists sp. split; [|exact Hsp].
    pose proof (take_append (rtrim t) sp) as Hk. rewrite <- Ht in Hk.
    rewrite Hk. exact Ht.
  - intro Hn.
    pose proof (at_append (String.length (rtrim t) - 1) (rtrim t) sp
                  ltac:(lia)) as Hk.
    rewrite <- Ht in Hk. rewrite Hk.
    apply rtrim_ends_in_text. destruct (rtrim t); [cbn in Hn; lia|discriminate].
Qed.

Lemma append_assoc (a b c : string) : (a ++ b) ++ c = a ++ (b ++ c).
Proof. induction a as [|x a IH]; cbn; [reflexivity|]. rewrite IH. reflexivity. Qed.

Lemma operand_is_trimmed (s e : string) :
  take (Z.to_nat (oplen e s)) s = rtrim (upto s e).
Proof.
  unfold oplen, len. rewrite Nat2Z.id. unfold upto.
  set (m := (String.length s - String.length e)%nat).
  destruct (rtrim_splits (take m s)) as (sp & Hx & _).
  pose proof (take_advance m s) as Hs.
  rewrite Hx, append_assoc in Hs.
  rewrite <- Hs at 2. apply take_append.
Qed.

(** X21.  The loop that reads the operands of an instruction returns for
    any text, and what it collects for [new_inst] is well formed: never
    more than [MAX_OPERANDS] operands, each of them without white space
    at its end, and, unless the target allows empty operands, none of
    them empty. *)
Theorem parse_operands_collects_trimmed_operands
    (n : nat) (s : string) (ops : list string) (w : world) :
  exists (s' : string) (added : list string) (w' : world),
    parse_operands n s ops w = (Some (s', (ops ++ added)%list), w')
    /\ Z.of_nat (List.length added)
       <= Z.max 0 (MAX_OPERANDS - Z.of_nat (List.length ops))
    /\ Forall
         (fun o => rtrim o = o
                   /\ (ALLOW_EMPTY_OPS = false -> o <> EmptyString))
         added.
Proof.
  revert s ops w. induction n as [|n IH]; intros s ops w.
  - exists s, [], w. cbn. rewrite app_nil_r.
    split; [reflexivity|]. split; [lia|constructor].
  - cbn [parse_operands].
    destruct (negb (ISEOL s)
              && (Z.of_nat (List.length ops) <? MAX_OPERANDS)) eqn:Ec.
    2:{ exists s, [], w. cbn. rewrite app_nil_r.
        split; [reflexivity|]. split; [lia|constructor]. }
    apply andb_true_iff in Ec. destruct Ec as [_ Hlt].
    apply Z.ltb_lt in Hlt.
    destruct (returns_skip_operand s w) as (s1 & w1 & E1).
    unfold bind at 1. rewrite E1.
    set (o := take (Z.to_nat (oplen s1 s)) s).
    assert (Ho : rtrim o = o).
    { unfold o. rewrite operand_is_trimmed. apply rtrim_idempotent. }
    assert (Hne : (oplen s1 s <=? 0) = false -> o <> EmptyString).
    { intros Hl Hempty. apply Z.leb_gt in Hl.
      unfold o in Hempty. rewrite operand_is_trimmed in Hempty.
      unfold oplen in Hl. rewrite Hempty in Hl. cbn in Hl. lia. }
    assert (Hstep : forall (s2 : string) (w2 : world) (new : list string),
              (Z.of_nat (List.length new) <= 1) ->
              Forall
                (fun o => rtrim o = o
                          /\ (ALLOW_EMPTY_OPS = false -> o <> EmptyString))
                new ->
              exists (s' : string) (added : list string) (w' : world),
                (if allow_spaces then
                   if negb (ceq (peek (skip s2)) ",")
                   then ret (skip s2, (ops ++ new)%list)
                   else parse_operands n (skip (next (skip s2)))
                          (ops ++ new)%list
                 else
                   if negb (ceq (peek s2) ",")
                   then ret (s2, (ops ++ new)%list)
                   else parse_operands n (next s2) (ops ++ new)%list) w2
                = (Some (s', (ops ++ added)%list), w')
                /\ Z.of_nat (List.length added)
                   <= Z.max 0 (MAX_OPERANDS - Z.of_nat (List.length ops))
                /\ Forall
                     (fun o => rtrim o = o
                               /\ (ALLOW_EMPTY_OPS = false
                                   -> o <> EmptyString))
                     added).
    { intros s2 w2 new Hnew Hall.
      assert (Hdone : forall p,
                exists (s' : string) (added : list string) (w' : world),
                  ret (p, (ops ++ new)%list) w2
                  = (Some (s', (ops ++ added)%list), w')
                  /\ Z.of_nat (List.length added)
                     <= Z.max 0 (MAX_OPERANDS - Z.of_nat (List.length ops))
                  /\ Forall
                       (fun o => rtrim o = o
                                 /\ (ALLOW_EMPTY_OPS = false
                                     -> o <> EmptyString))
                       added).
      { intro p. exists p, new, w2. split; [reflexivity|].
        split; [lia|exact Hall]. }
      assert (Hmore : forall p,
                exists (s' : string) (added : list string) (w' : world),
                  parse_operands n p (ops ++ new)%list w2
                  = (Some (s', (ops ++ added)%list), w')
                  /\ Z.of_nat (List.length added)
                     <= Z.max 0 (MAX_OPERANDS - Z.of_nat (List.length ops))
                  /\ Forall
                       (fun o => rtrim o = o
                                 /\ (ALLOW_EMPTY_OPS = false
                                     -> o <> EmptyString))
                       added).
      { intro p.
        destruct (IH p (ops ++ new)%list w2) as (s' & added & w' & E & B & F).
        exists s', (new ++ added)%list, w'.
        rewrite app_assoc. split; [exact E|].
        rewrite length_app in B |- *. split; [lia|].
        apply Forall_app. split; assumption. }
      destruct allow_spaces.
      - destruct (negb (ceq (peek (skip s2)) ",")); [apply Hdone|apply Hmore].
      - destruct (negb (ceq (peek s2) ",")); [apply Hdone|apply Hmore]. }
    destruct (negb ALLOW_EMPTY_OPS && (oplen s1 s <=? 0)) eqn:Ee.
    + unfold bind at 1. unfold bind at 1. rewrite syntax_error_step.
      unfold ret at 1.
      destruct (Hstep s1 (after w1 [E_syntax_error 5 []] (core w1)) []
                  ltac:(cbn; lia) ltac:(constructor))
        as (s' & added & w' & E & B & F).
      rewrite app_nil_r in E.
      exists s', added, w'. split; [exact E|]. split; assumption.
    + unfold bind at 1. unfold ret at 1.
      apply (Hstep s1 w1 [o]); [cbn; lia|].
      constructor; [|constructor]. split; [exact Ho|].
      intro Ha. apply Hne. rewrite Ha in Ee. cbn in Ee. exact Ee.
Qed.

Lemma skip_is_no_longer (s : string) :
  (String.length (skip s) <= String.length s)%nat.
Proof.
  induction s as [|c r IH]; cbn; [lia|]. destruct (isspace c); cbn; lia.
Qed.

Lemma skip_operand_moves_forward (s : string) (w : world) :
  START_PARENTH NUL = false ->
  END_PARENTH NUL = false ->
  (forall (c : ascii) (r : string) (d : ascii),
      (String.length (skip_string (String c r) d) <= String.length r)%nat) ->
  exists (s1 : string) (w1 : world),
    skip_operand s w = (Some s1, w1)
    /\ (String.length s1 <= String.length s)%nat.
Proof.
  intros Hstart Hend Hskip.
  destruct (skip_operand_loop_stops (S (String.length s)) Hstart Hend Hskip
              0 s w ltac:(lia)) as (p & s1 & w1 & E & L & _).
  unfold skip_operand, bind. rewrite E. cbn [fst snd].
  destruct (negb (p =? 0)).
  - unfold syntax_error, log, ret. eexists _, _. split; [reflexivity|exact L].
  - unfold ret. eexists _, _. split; [reflexivity|exact L].
Qed.

Lemma comma_is_passed (s : string) :
  ceq (peek s) "," = true -> (String.length (next s) < String.length s)%nat.
Proof. destruct s as [|c r]; cbn; [discriminate|lia]. Qed.

(** X27.  The loop over the operands ends: every round that goes on
    passes a comma, so that the rounds are fewer than the characters of
    the text plus one, and more rounds than that change nothing.  (The
    string scanner of the core is taken to move forward, and the
    terminator of the text to be no parenthesis.) *)
Theorem operand_loop_ends_within_the_text (n m : nat) :
  START_PARENTH NUL = false ->
  END_PARENTH NUL = false ->
  (forall (c : ascii) (r : string) (d : ascii),
      (String.length (skip_string (String c r) d) <= String.length r)%nat) ->
  forall (s : string) (ops : list string) (w : world),
    (String.length s < n)%nat ->
    (String.length s < m)%nat ->
    parse_operands n s ops w = parse_operands m s ops w.
Proof.
  intros Hstart Hend Hskip. revert m.
  induction n as [|n IH]; intros m s ops w Hn Hm; [lia|].
  destruct m as [|m]; [lia|].
  cbn [parse_operands].
  destruct (negb (ISEOL s) && (Z.of_nat (List.length ops) <? MAX_OPERANDS));
    [|reflexivity].
  destruct (skip_operand_moves_forward s w Hstart Hend Hskip)
    as (s1 & w1 & E & L).
  unfold bind. rewrite !E.
  assert (Hgo : forall (ops1 : list string) (w2 : world),
            (if allow_spaces then
               if negb (ceq (peek (skip s1)) ",") then ret (skip s1, ops1)
               else parse_operands n (skip (next (skip s1))) ops1
             else
               if negb (ceq (peek s1) ",") then ret (s1, ops1)
               else parse_operands n (next s1) ops1) w2
            = (if allow_spaces then
                 if negb (ceq (peek (skip s1)) ",") then ret (skip s1, ops1)
                 else parse_operands m (skip (next (skip s1))) ops1
               else
                 if negb (ceq (peek s1) ",") then ret (s1, ops1)
                 else parse_operands m (next s1) ops1) w2).
  { intros ops1 w2. destruct allow_spaces.
    - destruct (ceq (peek (skip s1)) ",") eqn:Ec; [|reflexivity].
      cbn [negb].
      pose proof (comma_is_passed _ Ec).
      pose proof (skip_is_no_longer s1).
      pose proof (skip_is_no_longer (next (skip s1))).
      apply IH; lia.
    - destruct (ceq (peek s1) ",") eqn:Ec; [|reflexivity].
      cbn [negb]. pose proof (comma_is_passed _ Ec). apply IH; lia. }
  destruct (negb ALLOW_EMPTY_OPS && (oplen s1 s <=? 0)).
  - unfold syntax_error, log, ret in *. cbv beta iota. apply Hgo.
  - unfold ret in *. cbv beta iota. apply Hgo.
Qed.

End StatementProperties.

Section EscapeProperties.
Context {CFG : Config} {TY : Types} {CORE : Core}.

(** X22.  What a caller of [expand_macro] can rely on, whatever the
    escape: a result below 0 leaves [*line] where it was; a result above
    0 is below [dlen] and is only given for a line that starts with a
    backslash; and a line that starts with another character gives 0,
    stays where it was and has nothing stored. *)
Theorem expand_macro_result_and_line
    (src : source) (line : string) (dlen : Z) :
  let x := expand_macro src line dlen in
  (nc x < 0 -> line' x = line)
  /\ (0 < nc x -> nc x < dlen /\ peek line = "\"%char)
  /\ (peek line <> "\"%char ->
      nc x = 0 /\ line' x = line /\ stored x = EmptyString).
Proof.
  cbv zeta. split; [apply expand_macro_failure_keeps_line|]. split.
  - intro Hpos. destruct line as [|c rest].
    + cbn in Hpos. lia.
    + destruct (ceq c "\") eqn:Ec.
      * apply Ascii.eqb_eq in Ec. subst c. split; [|reflexivity].
        apply expand_macro_success_below_dlen. lia.
      * unfold expand_macro in Hpos. cbn [peek] in Hpos.
        rewrite Ec in Hpos. cbn in Hpos. lia.
  - intro Hne. unfold expand_macro.
    destruct (ceq (peek line) "\") eqn:Ec.
    + apply Ascii.eqb_eq in Ec. contradiction.
    + repeat split.
Qed.

Lemma count_from_bounds (src : source) (n : nat) (i : Z) :
  0 <= count_from src i n <= Z.of_nat n.
Proof.
  revert i. induction n as [|n IH]; intro i; [cbn; lia|].
  cbn [count_from]. specialize (IH (i + 1)).
  destruct (elt (param_len src) i >? 0); lia.
Qed.

Lemma short_decimals :
  forallb
    (fun n =>
       let l := String.length (decimal (Z.of_nat n)) in
       Nat.leb 1 l && Nat.leb l 3)
    (seq 0 1000) = true.
Proof. vm_compute. reflexivity. Qed.

Lemma decimal_of_small (n : Z) :
  0 <= n <= 999 -> 1 <= len (decimal n) <= 3.
Proof.
  intro Hn. pose proof short_decimals as H.
  rewrite forallb_forall in H. specialize (H (Z.to_nat n)).
  rewrite in_seq in H. specialize (H ltac:(lia)).
  rewrite Z2Nat.id in H by lia. cbv zeta in H.
  apply andb_true_iff in H. destruct H as [H1 H3].
  apply Nat.leb_le in H1, H3. unfold len. lia.
Qed.

Lemma length_with_NUL (s : string) : len (with_NUL s) = len s + 1.
Proof. unfold len, with_NUL. rewrite length_append. cbn. lia. Qed.

(** X23.  The escape [\#] stays within its buffer: with up to 999 macro
    parameters the count of the supplied arguments is between 0 and
    [maxmacparams] and has three digits at most, so that with the room
    the code asks for ([dlen > 3]) the escape succeeds for any invocation
    context, the digits and the terminator stored are [dlen] characters
    at most, and the line goes on behind the escape. *)
Theorem argument_count_escape_fits
    (src : source) (rest : string) (dlen : Z) :
  0 <= maxmacparams <= 999 ->
  3 < dlen ->
  let x := expand_macro src (String "\" (String "#" rest)) dlen in
  0 <= count_passed_macargs src <= maxmacparams
  /\ nc x = len (decimal (count_passed_macargs src))
  /\ 1 <= nc x <= 3
  /\ len (stored x) = nc x + 1
  /\ len (stored x) <= dlen
  /\ line' x = rest.
Proof.
  intros Hmax Hd. cbv zeta.
  assert (Hc : 0 <= count_passed_macargs src <= maxmacparams).
  { unfold count_passed_macargs.
    pose proof (count_from_bounds src (Z.to_nat maxmacparams) 0) as Hb.
    rewrite Z2Nat.id in Hb by lia. exact Hb. }
  assert (Hs : 0 <= count_passed_macargs src <= 999) by lia.
  pose proof (decimal_of_small (count_passed_macargs src) Hs) as Hl.
  unfold expand_macro, escape. cbn [peek next].
  change (ceq "\" "\") with true. cbv iota.
  change (ceq "#" "\") with false. change (ceq "#" "@") with false.
  change (ceq "#" "#") with true. cbv iota.
  rewrite (gtb_true dlen 3) by lia.
  rewrite (geb_false (len (decimal (count_passed_macargs src))) dlen) by lia.
  rewrite (geb_true (len (decimal (count_passed_macargs src))) 0) by lia.
  cbn [nc line' stored]. rewrite length_with_NUL.
  repeat split; lia.
Qed.

(** X24.  A name that is no parameter of the macro expands to nothing:
    [\name] gives 0 with only the backslash passed over, and [\?name]
    gives 0 with the whole escape passed over, so that it vanishes from
    the line; in both cases nothing is stored. *)
Theorem unknown_names_expand_to_nothing
    (src : source) (c : ascii) (r e : string) (dlen : Z) :
  1 <= dlen ->
  ceq c "\" = false -> ceq c "@" = false -> ceq c "#" = false ->
  ceq c "?" = false -> isdigit c = false ->
  skip_identifier (String c r) = Some e ->
  find_macarg_name src (upto (String c r) e) < 0 ->
  (let x := expand_macro src (String "\" (String c r)) dlen in
   nc x = 0 /\ line' x = String c r /\ stored x = EmptyString)
  /\ (let x := expand_macro src (String "\" (String "?" (String c r))) dlen in
      nc x = 0 /\ line' x = e /\ stored x = EmptyString).
Proof.
  intros Hd H1 H2 H3 H4 H5 Hid Hn. cbv zeta.
  assert (Hneg : (find_macarg_name src (upto (String c r) e) >=? 0) = false)
    by (apply geb_false; lia).
  split.
  - unfold expand_macro, escape. cbn [peek next].
    change (ceq "\" "\") with true. cbv iota.
    rewrite H1, H2, H3, H4, H5. cbn [andb]. rewrite Hid, Hneg.
    rewrite (geb_false 0 dlen) by lia.
    change (0 >=? 0) with true. cbv iota. repeat split.
  - unfold expand_macro, escape. cbn [peek next].
    change (ceq "\" "\") with true. cbv iota.
    change (ceq "?" "\") with false. change (ceq "?" "@") with false.
    change (ceq "?" "#") with false. change (ceq "?" "?") with true.
    cbv iota.
    rewrite (geb_true dlen 1) by lia. cbn [andb].
    unfold at_. cbn [advance next peek]. rewrite H5. cbn [andb].
    rewrite Hid.
    unfold macro_arg_defined.
    change (negb (1 =? 0)) with true. cbv iota.
    rewrite Hneg. cbn [fst snd].
    rewrite (geb_false 0 dlen) by lia.
    change (0 >=? 0) with true. cbv iota. repeat split.
Qed.

End EscapeProperties.

Section OptionProperties.

Lemma syntax_args_sets_one_option (p : string) (o : options) :
  let r := syntax_args p o in
  fst r = (if String.eqb p "-align" || String.eqb p "-spaces"
              || String.eqb p "-altnum" || String.eqb p "-altlocal"
           then 1 else 0)
  /\ opt_align_data (snd r) = opt_align_data o || String.eqb p "-align"
  /\ opt_allow_spaces (snd r) = opt_allow_spaces o || String.eqb p "-spaces"
  /\ opt_alt_numeric (snd r) = opt_alt_numeric o || String.eqb p "-altnum"
  /\ opt_local_char (snd r)
     = (if String.eqb p "-altlocal" then "@"%char else opt_local_char o).
Proof.
  cbv zeta. unfold syntax_args.
  destruct (String.eqb p "-align") eqn:E1.
  { apply String.eqb_eq in E1. subst p. cbn.
    rewrite orb_true_r, !orb_false_r. repeat split. }
  destruct (String.eqb p "-spaces") eqn:E2.
  { apply String.eqb_eq in E2. subst p. cbn.
    rewrite orb_true_r, !orb_false_r. repeat split. }
  destruct (String.eqb p "-altnum") eqn:E3.
  { apply String.eqb_eq in E3. subst p. cbn.
    rewrite orb_true_r, !orb_false_r. repeat split. }
  destruct (String.eqb p "-altlocal") eqn:E4; cbn;
    rewrite !orb_false_r; repeat split.
Qed.

(** X25.  The options of the module after any list of arguments depend
    only on which of the four options occur in it, not on their order or
    number: a flag is set when it was set before or its option occurs,
    the local-label character is [@] when [-altlocal] occurs and is
    unchanged otherwise; an argument that is none of the four is refused
    with 0 and changes nothing. *)
Theorem options_depend_on_occurrence (ps : list string) (o : options) :
  let o' := read_args ps o in
  opt_align_data o'
  = opt_align_data o || existsb (String.eqb "-align") ps
  /\ opt_allow_spaces o'
     = opt_allow_spaces o || existsb (String.eqb "-spaces") ps
  /\ opt_alt_numeric o'
     = opt_alt_numeric o || existsb (String.eqb "-altnum") ps
  /\ opt_local_char o'
     = (if existsb (String.eqb "-altlocal") ps then "@"%char
        else opt_local_char o)
  /\ (forall p,
         existsb (String.eqb p)
           ["-align"; "-spaces"; "-altnum"; "-altlocal"] = false ->
         syntax_args p o = (0, o)).
Proof.
  cbv zeta. split; [|split; [|split; [|split]]].
  1-4: revert o; induction ps as [|p ps IH]; intro o; cbn [read_args existsb].
  - rewrite orb_false_r. reflexivity.
  - rewrite IH.
    destruct (syntax_args_sets_one_option p o) as (_ & H & _).
    rewrite H, (String.eqb_sym "-align" p), orb_assoc. reflexivity.
  - rewrite orb_false_r. reflexivity.
  - rewrite IH.
    destruct (syntax_args_sets_one_option p o) as (_ & _ & H & _).
    rewrite H, (String.eqb_sym "-spaces" p), orb_assoc. reflexivity.
  - rewrite orb_false_r. reflexivity.
  - rewrite IH.
    destruct (syntax_args_sets_one_option p o) as (_ & _ & _ & H & _).
    rewrite H, (String.eqb_sym "-altnum" p), orb_assoc. reflexivity.
  - reflexivity.
  - rewrite IH.
    destruct (syntax_args_sets_one_option p o) as (_ & _ & _ & _ & H).
    rewrite H, (String.eqb_sym "-altlocal" p).
    destruct (String.eqb p "-altlocal"); cbn [orb];
      [destruct (existsb _ ps)|]; reflexivity.
  - intros p Hp. cbn in Hp. rewrite orb_false_r in Hp.
    apply orb_false_iff in Hp. destruct Hp as [H1 Hp].
    apply orb_false_iff in Hp. destruct Hp as [H2 Hp].
    apply orb_false_iff in Hp. destruct Hp as [H3 H4].
    unfold syntax_args. rewrite H1, H2, H3, H4. reflexivity.
Qed.

End OptionProperties.

Section StructDefaults.
Context {CFG : Config} {TY : Types} {CORE : Core}.

Lemma struct_atom_of_empty_text (p : atom) (w : world) :
  START_PARENTH NUL = false ->
  END_PARENTH NUL = false ->
  struct_atom p EmptyString w = (Some EmptyString, default_of p w).
Proof.
  intros Hstart Hend.
  assert (Hskip : skip_operand EmptyString = ret EmptyString).
  { unfold skip_operand. cbn [String.length skip_operand_loop peek].
    rewrite Hstart, Hend. reflexivity. }
  unfold struct_atom, default_of.
  destruct (content p); cbn [skip];
    try rewrite Hskip; try reflexivity.
Qed.

(** X26.  A structure that is invoked without any operand text emits its
    template: [execute_struct] returns 1 and goes through the atoms in
    order, adding a clone of each one with its default values, reporting
    error 20 for an instruction and passing over the atoms it ignores.
    (The terminator of the text is taken to be no parenthesis.) *)
Theorem structure_without_operands_emits_its_template
    (name : string) (atoms : list atom) (w : world) :
  START_PARENTH NUL = false ->
  END_PARENTH NUL = false ->
  core_find_structure name (core w) = Some atoms ->
  execute_struct name EmptyString w
  = (Some 1, fold_left (fun w p => default_of p w) atoms w).
Proof.
  intros Hstart Hend Hfind.
  unfold execute_struct, find_structure, look. unfold bind at 1.
  rewrite Hfind.
  assert (Hall : forall w0,
            struct_atoms atoms EmptyString w0
            = (Some tt, fold_left (fun w p => default_of p w) atoms w0)).
  { clear Hfind. induction atoms as [|p rest IH]; intro w0; [reflexivity|].
    cbn [struct_atoms fold_left]. unfold bind.
    rewrite (struct_atom_of_empty_text p w0 Hstart Hend). apply IH. }
  unfold bind. rewrite Hall. reflexivity.
Qed.

End StructDefaults.

(** * The further properties on examples *)

Section MoreExamples.
#[local] Existing Instance Ref.config.
#[local] Existing Instance Ref.types.
#[local] Existing Instance Ref.asm.

(** The string scanner of the stand-in core moves forward. *)
Lemma until_is_shorter (d : ascii) (s : string) :
  (String.length (Ref.until d s) <= String.length s)%nat.
Proof.
  induction s as [|c r IH]; cbn; [lia|]. destruct (ceq c d); cbn; lia.
Qed.

Lemma ref_skip_string_moves (c : ascii) (r : string) (d : ascii) :
  (String.length (skip_string (String c r) d) <= String.length r)%nat.
Proof.
  cbn. pose proof (until_is_shorter d r) as H.
  destruct (Ref.until d r); cbn in *; lia.
Qed.

(** Outside the texts of X2: where no hexadecimal digit starts the text,
    [intel_suffix] reads [lastbase] before it is set, and the character
    before the text, and its result follows them. *)
Example intel_suffix_reads_what_it_did_not_set :
  intel_suffix 0 "b" "z" = 2 /\ intel_suffix 3 "b" "z" = 0.
Proof. split; reflexivity. Qed.

(** From the id 1000000 on the name of a block has eight characters, and
    its terminator is stored behind [inl_lab_name]. *)
Example block_name_overruns_from_a_million :
  name_fits 999999 = true
  /\ inl_lab_name 1000000 = "=1000000"
  /\ name_fits 1000000 = false
  /\ inl_lab_name (-5) = "=-00005".
Proof. repeat split. Qed.

Lemma intel_suffix_witness :
  intel_suffix 0 " " "1Fh" = 16
  /\ intel_suffix 0 " " "17o" = 8
  /\ intel_suffix 0 " " "12d " = 10
  /\ intel_suffix 0 " " "102b " = 0.
Proof.
  destruct (intel_suffix_recognises 0 " "%char) as (Hh & Ho & Hdb).
  split; [apply (Hh ["1"; "F"]%char "h"); reflexivity|].
  split; [apply (Ho ["1"; "7"]%char "o");
          [discriminate|reflexivity|reflexivity]|].
  split.
  - apply (proj1 (Hdb ["1"; "2"]%char "d"%char " "
                    eq_refl eq_refl eq_refl)). reflexivity.
  - apply (proj2 (Hdb ["1"; "0"; "2"]%char "b"%char " "
                    eq_refl eq_refl eq_refl)). reflexivity.
Defined.

Lemma const_prefix_witness :
  snd (const_prefix 0 " " "abc") = 0
  /\ fst (const_prefix 0 " " "abc") = "abc"
  /\ isdigit (peek "abc") = false.
Proof.
  split; [reflexivity|].
  apply (proj2 (proj2 (proj2
           (const_prefix_base_and_position 0 0 " "%char " "%char "abc")))).
  reflexivity.
Defined.

Lemma skip_operand_stops_witness :
  START_PARENTH NUL = false
  /\ END_PARENTH NUL = false
  /\ exists (s1 : string) (w1 : world),
       skip_operand "(a,b),c" Ref.fresh = (Some s1, w1)
       /\ (String.length s1 <= String.length "(a,b),c")%nat
       /\ ends_operand (peek s1) = true.
Proof.
  split; [reflexivity|]. split; [reflexivity|].
  apply (skip_operand_stops_at_operand_end "(a,b),c" Ref.fresh);
    [reflexivity | reflexivity | exact ref_skip_string_moves].
Defined.

Lemma plain_operand_witness :
  plain "d0,d1" = true
  /\ skip_operand "d0,d1" Ref.fresh = (Some ",d1", Ref.fresh).
Proof.
  split; [reflexivity|].
  apply (skip_operand_of_plain_text "d0,d1" Ref.fresh); reflexivity.
Defined.

Lemma parenthesised_operand_witness :
  inner ["a"; ","; "b"]%char = true
  /\ skip_operand "(a,b),c" Ref.fresh = skip_operand ",c" Ref.fresh.
Proof.
  split; [reflexivity|].
  apply (skip_operand_passes_parentheses "("%char ")"%char
           ["a"; ","; "b"]%char ",c" Ref.fresh); reflexivity.
Defined.

Lemma local_label_witness :
  get_local_label 0 Ref.nothing 0 ".l1 x"
  = Some (core_make_local_label 0 None "l1" Ref.nothing, "x")
  /\ get_local_label 0 Ref.nothing 0 "l1$ x"
     = Some (core_make_local_label 0 None "l1" Ref.nothing, "x").
Proof.
  destruct (local_label_spellings_agree 0 Ref.nothing 0 "l"%char ["1"%char]
              " x" eq_refl eq_refl eq_refl eq_refl eq_refl) as [Hdot Hdollar].
  split; [apply Hdot; reflexivity | exact Hdollar].
Defined.

Lemma label_frame_witness :
  ceq (peek " nop") ":" = false
  /\ anon_labno (snd (parse_label_or_pc " nop" Ref.fresh))
     = anon_labno Ref.fresh.
Proof.
  split; [reflexivity|].
  destruct (parse_label_or_pc_frame " nop" Ref.fresh)
    as (name & s & n & E & Hn & _).
  rewrite E. cbn. apply Hn. reflexivity.
Defined.

Lemma label_in_first_column_witness :
  parse_label_or_pc "loop move" Ref.fresh
  = (Some (Some "loop", "move"), Ref.fresh)
  /\ parse_label_or_pc " loop move" Ref.fresh
     = (Some (None, " loop move"), Ref.fresh).
Proof.
  split.
  - apply (proj1 (label_needs_colon_unless_in_first_column "loop move"
                    Ref.fresh "loop" " move" eq_refl eq_refl)).
    reflexivity.
  - apply (proj1 (label_needs_colon_unless_in_first_column " loop move"
                    Ref.fresh "loop" " move" eq_refl eq_refl)).
    reflexivity.
Defined.

Lemma current_pc_witness :
  parse_label_or_pc " * = 5" Ref.fresh = (Some (Some "*", "= 5"), Ref.fresh).
Proof.
  apply (current_pc_is_found_in_any_column " * = 5" Ref.fresh); reflexivity.
Defined.

Lemma directive_found_witness :
  directive_name 4 = "rs.b"
  /\ find_namelen_nc directives 0 "Rs.B" = Some 4%nat.
Proof.
  split; [reflexivity|].
  apply (every_directive_is_found 4 "Rs.B");
    [vm_compute; lia | reflexivity].
Defined.

Lemma if_prefix_witness :
  directive_name 27 = "if"
  /\ strncmp_eq (directive_name 27) "if" 2 = opens_block (directive_func 27).
Proof.
  split; [reflexivity|].
  apply (if_prefix_marks_the_conditional_handlers 27). vm_compute. lia.
Defined.

Lemma check_directive_witness :
  check_directive " IfEq 1" = Some (39%nat, " 1")
  /\ (39 < List.length directives)%nat
  /\ (exists name : string,
         skip " IfEq 1" = name ++ " 1"
         /\ lower name = lower (directive_name 39))
  /\ (" 1" = EmptyString
      \/ ISIDCHAR (peek " 1") || ceq (peek " 1") "." = false).
Proof.
  split; [reflexivity|].
  apply (check_directive_accepts_a_table_name " IfEq 1" 39 " 1").
  reflexivity.
Defined.

Lemma nested_modules_witness :
  let st' :=
    run_modules (fun l g => (g, l)) [true; true; false; false]
      (no_module (Some "main")) in
  undefined st' = false
  /\ inline_stack_index st' = 0
  /\ glob st' = Some "main".
Proof.
  cbv zeta.
  destruct (modules_restore_the_global_label (option string)
              (fun l g => (g, l)) (fun g => g)
              (fun l g => eq_refl) (fun l g => eq_refl)
              [true; true; false; false] (Some "main")
              (no_module (Some "main")))
    as (Hu & _ & H0 & _).
  - split; [split; vm_compute; discriminate|]. split; reflexivity.
  - reflexivity.
  - cbn. lia.
  - cbn. lia.
  - reflexivity.
  - split; [exact Hu|]. split; [reflexivity|]. apply H0. reflexivity.
Defined.

Lemma growing_ids_witness :
  let st' :=
    run_modules (fun l g => (g, l)) [true; false; true; true]
      (no_module (@None string)) in
  inline_stack_index st' = 2
  /\ undefined st' = false
  /\ elt (inline_stack st') 0 < elt (inline_stack st') 1
  /\ elt (inline_stack st') 1 < module_id st'.
Proof.
  cbv zeta. split; [reflexivity|].
  apply (open_modules_have_growing_ids (option string)
           (fun l g => (g, l)) [true; false; true; true]
           (no_module (@None string)) 0 1).
  - split; [split; vm_compute; discriminate|]. split; reflexivity.
  - reflexivity.
  - cbn. lia.
  - cbn. lia.
  - lia.
  - lia.
  - vm_compute. reflexivity.
Defined.

Lemma opposite_guards_witness :
  exists (b : bool) (w' : world),
    eval_ifexp "5" 2 Ref.fresh = (Some (b, EmptyString), w')
    /\ eval_ifexp "5" 5 Ref.fresh = (Some (negb b, EmptyString), w').
Proof.
  destruct (opposite_guards "5" 2 Ref.fresh (or_intror (or_introl eq_refl)))
    as (b & b' & w' & E1 & E2 & H).
  exists b, w'. change (b' = negb b) in H. subst b'.
  split; [exact E1 | exact E2].
Defined.

Lemma iif_witness :
  fst (handle_iif "iif 1 nop" Ref.fresh) = Some "nop"
  /\ fst (handle_iif "iif 0 nop" Ref.fresh) = Some EmptyString
  /\ handle_iif "nop" Ref.fresh = (Some "nop", Ref.fresh).
Proof.
  split; [|split].
  - rewrite (proj2 (iif_keeps_the_statement_or_nothing "iif 1 nop" "1"
                      Ref.fresh) eq_refl eq_refl).
    reflexivity.
  - rewrite (proj2 (iif_keeps_the_statement_or_nothing "iif 0 nop" "0"
                      Ref.fresh) eq_refl eq_refl).
    reflexivity.
  - apply (proj1 (iif_keeps_the_statement_or_nothing "nop" EmptyString
                    Ref.fresh)).
    reflexivity.
Defined.

Lemma malformed_ifdef_witness :
  opens_block fn_ifd = true
  /\ exists (pre : list event) (last : event) (k : K),
       call_handler fn_ifd "1" Ref.fresh
       = (Some tt, after Ref.fresh (pre ++ [last]) k)
       /\ forallb (fun e => negb (stack_event e)) pre = true
       /\ ((exists flag, last = E_cond_if flag)
           \/ (exists n, last = E_syntax_error n [] /\ (n = 10 \/ n = 5))).
Proof.
  split; [reflexivity|].
  apply (conditional_handler_opens_one_block_or_none fn_ifd "1" Ref.fresh).
  reflexivity.
Defined.

Lemma oplen_witness :
  oplen ",d1" "d0  ,d1" = 2 /\ isspace (at_ 1 "d0  ") = false.
Proof.
  split; [reflexivity|].
  apply (proj2 (proj2 (oplen_drops_trailing_space "d0  " ",d1"))).
  reflexivity.
Defined.

Lemma operands_witness :
  ALLOW_EMPTY_OPS = false
  /\ exists (s' : string) (added : list string) (w' : world),
       parse_operands 3 "d0 ,d1" [] Ref.fresh = (Some (s', added), w')
       /\ Z.of_nat (List.length added) <= 4
       /\ Forall (fun o => rtrim o = o /\ o <> EmptyString) added.
Proof.
  split; [reflexivity|].
  destruct (parse_operands_collects_trimmed_operands 3 "d0 ,d1" []
              Ref.fresh) as (s' & added & w' & E & B & F).
  exists s', added, w'. split; [exact E|]. split; [exact B|].
  apply (Forall_impl _ (fun o H => conj (proj1 H) (proj2 H eq_refl)) F).
Defined.

Lemma expand_macro_contract_witness :
  nc (expand_macro two_of_three "\1" 8) < 8
  /\ line' (expand_macro two_of_three "\@" 7) = "\@"
  /\ stored (expand_macro two_of_three "d0" 8) = EmptyString.
Proof.
  split; [|split].
  - apply (proj1 (proj2 (expand_macro_result_and_line two_of_three "\1" 8))).
    reflexivity.
  - apply (proj1 (expand_macro_result_and_line two_of_three "\@" 7)).
    reflexivity.
  - apply (proj2 (proj2 (expand_macro_result_and_line two_of_three "d0" 8))).
    discriminate.
Defined.

Lemma argument_count_fits_witness :
  0 <= maxmacparams <= 999
  /\ len (stored (expand_macro two_of_three "\#" 4)) <= 4.
Proof.
  assert (Hmax : 0 <= maxmacparams <= 999) by (cbn; lia).
  split; [exact Hmax|].
  apply (argument_count_escape_fits two_of_three EmptyString 4 Hmax).
  lia.
Defined.

Lemma unknown_name_witness :
  line' (expand_macro two_of_three "\xy+1" 8) = "xy+1"
  /\ line' (expand_macro two_of_three "\?xy+1" 8) = "+1"
  /\ nc (expand_macro two_of_three "\?xy+1" 8) = 0.
Proof.
  destruct (unknown_names_expand_to_nothing (CORE := Ref.asm) two_of_three
              "x"%char "y+1" "+1" 8 ltac:(lia)
              eq_refl eq_refl eq_refl eq_refl eq_refl eq_refl
              ltac:(vm_compute; reflexivity))
    as [Hname Hask].
  split; [apply Hname|]. split; apply Hask.
Defined.

Lemma options_witness :
  let o := read_args ["-spaces"; "-x"; "-align"; "-spaces"] default_options in
  opt_align_data o = true
  /\ opt_allow_spaces o = true
  /\ opt_alt_numeric o = false
  /\ syntax_args "-x" default_options = (0, default_options).
Proof.
  cbv zeta.
  destruct (options_depend_on_occurrence
              ["-spaces"; "-x"; "-align"; "-spaces"] default_options)
    as (Ha & Hs & Hn & _ & Hx).
  split; [exact Ha|]. split; [exact Hs|]. split; [exact Hn|].
  apply Hx. reflexivity.
Defined.

Lemma template_witness :
  core_find_structure "pair" with_template = Some [word_field; byte_field]
  /\ execute_struct "pair" EmptyString (Ref.start with_template)
     = (Some 1,
        emitted (emitted (Ref.start with_template) word_field) byte_field).
Proof.
  split; [reflexivity|].
  apply (structure_without_operands_emits_its_template "pair"
           [word_field; byte_field] (Ref.start with_template));
    reflexivity.
Defined.

Lemma operand_loop_witness :
  START_PARENTH NUL = false
  /\ END_PARENTH NUL = false
  /\ parse_operands 6 "d0,d1" [] Ref.fresh
     = parse_operands 9 "d0,d1" [] Ref.fresh.
Proof.
  split; [reflexivity|]. split; [reflexivity|].
  apply (operand_loop_ends_within_the_text 6 9);
    [reflexivity | reflexivity | exact ref_skip_string_moves
    | cbn; lia | cbn; lia].
Defined.

End MoreExamples.
